(** * Deferred reclamation of userspace RCU (urcu-defer.c)

    A shallow embedding of the per-thread defer queues, the deferer
    registry and the barrier operations of [urcu-defer.c], with the
    properties of its specification stated and proved over it.

    Conventions of the embedding.
    - [unsigned long] and pointers are 64-bit words: integers in
      [0, 2^64), arithmetic wrapped by [wrap].
    - [int] values are integers; signed overflow is reported as the fault
      [Overflow].
    - The thread-local [defer_queue] of every thread lives in one store
      indexed by thread id; [&defer_queue] of thread [t] is the key [t],
      so the registry entries alias the thread-local structures.
    - The functions are run one at a time (the mutexes serialise every
      function that takes them); memory barriers have no effect here.
    - The reclamation thread is represented by its creation, cancellation
      and join; its loop, [thr_defer], is run for a given number of
      passes, with no call of another thread in between; [wait_defer]
      returns instead of sleeping on the futex; the library destructor
      is outside the embedding.
    - The log [trace] records the library calls made (grace periods,
      callbacks, futex and pthread calls, [free] of a queue buffer) and
      the updates of the shared registry, in program order. *)

From Stdlib Require Import ZArith Lia.
From stdpp Require Import base list gmap.

Local Open Scope Z_scope.

(** ** Machine words *)

Definition word_bits : Z := 64.
Definition word_modulus : Z := 2 ^ word_bits.
Definition wrap (z : Z) : Z := z mod word_modulus.
Definition is_word (z : Z) : Prop := 0 <= z < word_modulus.
Definition INT_MAX : Z := 2 ^ 31 - 1.

(** ** Data *)

(** [struct defer_queue] ([q] is [None] for a null pointer). *)
Record defer_queue := mk_defer_queue {
  dq_head : Z;
  dq_last_fct_in : Z;
  dq_tail : Z;
  dq_last_fct_out : Z;
  dq_q : option (list Z)
}.

(** [struct deferer_registry]; [dr_defer_queue] is the pointer to the
    thread-local queue of a thread, [None] when null. *)
Record deferer_registry := mk_deferer_registry {
  tid : Z;
  dr_defer_queue : option Z;
  last_head : Z
}.

Inductive event :=
| EvSynchronizeRcu
| EvCall (queue fct p : Z)
| EvFutexWake
| EvFutexWait
| EvPthreadCreate
| EvPthreadCancel
| EvPthreadJoin
| EvFreeQueue (t : Z)
| EvRegistryAdd (id : Z)
| EvRegistryRemove (id : Z).

#[export] Instance event_eq_dec : EqDecision event.
Proof. solve_decision. Defined.

(** The process state: thread-local queues, the static variables of the
    file, the number of live reclamation threads and the log. *)
Record state := mk_state {
  tls : gmap Z defer_queue;
  registry : option (list deferer_registry);
  num_deferers : Z;
  alloc_deferers : Z;
  defer_thread_futex : Z;
  workers : nat;
  trace : list event
}.

(** Static storage is zero-initialised. *)
Definition zero_queue : defer_queue := mk_defer_queue 0 0 0 0 None.
Definition zero_entry : deferer_registry := mk_deferer_registry 0 None 0.
Definition init_state : state := mk_state ∅ None 0 0 0 0%nat [].

Definition tls_get (t : Z) (st : state) : defer_queue :=
  default zero_queue (tls st !! t).

Definition set_tls (f : gmap Z defer_queue → gmap Z defer_queue) (st : state) : state :=
  mk_state (f (tls st)) (registry st) (num_deferers st) (alloc_deferers st)
           (defer_thread_futex st) (workers st) (trace st).
Definition set_registry (r : option (list deferer_registry)) (st : state) : state :=
  mk_state (tls st) r (num_deferers st) (alloc_deferers st)
           (defer_thread_futex st) (workers st) (trace st).
Definition set_num_deferers (n : Z) (st : state) : state :=
  mk_state (tls st) (registry st) n (alloc_deferers st)
           (defer_thread_futex st) (workers st) (trace st).
Definition set_alloc_deferers (n : Z) (st : state) : state :=
  mk_state (tls st) (registry st) (num_deferers st) n
           (defer_thread_futex st) (workers st) (trace st).
Definition set_futex (v : Z) (st : state) : state :=
  mk_state (tls st) (registry st) (num_deferers st) (alloc_deferers st)
           v (workers st) (trace st).
Definition set_workers (n : nat) (st : state) : state :=
  mk_state (tls st) (registry st) (num_deferers st) (alloc_deferers st)
           (defer_thread_futex st) n (trace st).
Definition add_trace (evs : list event) (st : state) : state :=
  mk_state (tls st) (registry st) (num_deferers st) (alloc_deferers st)
           (defer_thread_futex st) (workers st) (trace st ++ evs).

Definition set_dq_head (v : Z) (d : defer_queue) : defer_queue :=
  mk_defer_queue v (dq_last_fct_in d) (dq_tail d) (dq_last_fct_out d) (dq_q d).
Definition set_dq_last_fct_in (v : Z) (d : defer_queue) : defer_queue :=
  mk_defer_queue (dq_head d) v (dq_tail d) (dq_last_fct_out d) (dq_q d).
Definition set_dq_tail (v : Z) (d : defer_queue) : defer_queue :=
  mk_defer_queue (dq_head d) (dq_last_fct_in d) v (dq_last_fct_out d) (dq_q d).
Definition set_dq_last_fct_out (v : Z) (d : defer_queue) : defer_queue :=
  mk_defer_queue (dq_head d) (dq_last_fct_in d) (dq_tail d) v (dq_q d).
Definition set_dq_q (v : option (list Z)) (d : defer_queue) : defer_queue :=
  mk_defer_queue (dq_head d) (dq_last_fct_in d) (dq_tail d) (dq_last_fct_out d) v.

Definition set_last_head (v : Z) (e : deferer_registry) : deferer_registry :=
  mk_deferer_registry (tid e) (dr_defer_queue e) v.

(** ** The monad of the embedding: state and faults *)

Inductive fault :=
| AssertFailed   (* an [assert] of the source fails *)
| Segfault       (* access through a null pointer or outside an allocation *)
| Overflow       (* signed overflow of an [int] *)
| OutOfFuel.     (* a loop overran its bound *)

Inductive result (A : Type) :=
| Ok (a : A)
| Fail (f : fault).
Arguments Ok {A} a.
Arguments Fail {A} f.

Definition M (A : Type) : Type := state → result (A * state).

#[export] Instance M_ret : MRet M := λ A a st, Ok (a, st).
#[export] Instance M_bind : MBind M := λ A B k m st,
  match m st with
  | Ok (a, st') => k a st'
  | Fail f => Fail f
  end.
Definition fail {A} (f : fault) : M A := λ _, Fail f.
Definition gets {A} (f : state → A) : M A := λ st, Ok (f st, st).
Definition modify (f : state → state) : M unit := λ st, Ok (tt, f st).
Definition assert (b : bool) : M unit := if b then mret tt else fail AssertFailed.
Definition emit (ev : event) : M unit := modify (add_trace [ev]).

(** Access to a [struct defer_queue] through a pointer. *)
Definition load_dq (queue : Z) : M defer_queue := gets (tls_get queue).
Definition update_dq (queue : Z) (f : defer_queue → defer_queue) : M unit :=
  modify (λ st, set_tls (<[queue := f (tls_get queue st)]>) st).

(** [LOAD_SHARED(queue->q[i])] and [_STORE_SHARED(queue->q[i], v)]. *)
Definition load_slot (queue : Z) (i : Z) : M Z :=
  d ← load_dq queue;
  match dq_q d with
  | None => fail Segfault
  | Some slots =>
      match slots !! Z.to_nat i with
      | Some v => mret v
      | None => fail Segfault
      end
  end.
Definition store_slot (queue : Z) (i : Z) (v : Z) : M unit :=
  d ← load_dq queue;
  match dq_q d with
  | None => fail Segfault
  | Some slots =>
      if decide (Z.to_nat i < length slots)%nat
      then update_dq queue (set_dq_q (Some (<[Z.to_nat i := v]> slots)))
      else fail Segfault
  end.

(** Access to [registry[k]]. *)
Definition load_entry (k : nat) : M deferer_registry :=
  r ← gets registry;
  match r with
  | None => fail Segfault
  | Some arr =>
      match arr !! k with
      | Some e => mret e
      | None => fail Segfault
      end
  end.
Definition store_entry (k : nat) (e : deferer_registry) : M unit :=
  r ← gets registry;
  match r with
  | None => fail Segfault
  | Some arr =>
      if decide (k < length arr)%nat
      then modify (set_registry (Some (<[k := e]> arr)))
      else fail Segfault
  end.
Definition deref_queue (e : deferer_registry) : M Z :=
  match dr_defer_queue e with
  | Some queue => mret queue
  | None => fail Segfault
  end.

(** [for (index = registry; index < registry + num_deferers; index++)],
    the body given the position of [index] and an accumulator. *)
Fixpoint fold_index {A} (ks : list nat) (body : nat → A → M A) (acc : A) : M A :=
  match ks with
  | [] => mret acc
  | k :: ks => acc ← body k acc; fold_index ks body acc
  end.
Definition for_each_deferer {A} (body : nat → A → M A) (acc : A) : M A :=
  n ← gets num_deferers;
  fold_index (seq 0 (Z.to_nat n)) body acc.

(** [malloc]: the caller supplies what the allocator returns, [None] for a
    null pointer and otherwise the (arbitrary) initial content. *)
Definition malloc {A} (n : nat) (filler : A) (mem : option (list A)) : option (list A) :=
  resize n filler <$> mem.

(** Modelled from the spec: the header urcu-defer-static.h is not among the
    sources. The queue has [DEFER_QUEUE_SIZE] slots, a power of two, and
    mask [DEFER_QUEUE_SIZE - 1]; the function tag is the low bit of a slot;
    [DQ_FCT_MARK] is the reserved sentinel value. The two constants are the
    parameters of the development. *)
Class defer_config := {
  DEFER_QUEUE_SIZE : Z;
  DQ_FCT_MARK : Z
}.

(** [put_dq queue d st]: the state [st] with [*queue = d]. *)
Abbreviation put_dq queue d st := (set_tls (<[queue := d]>) st) (only parsing).

Section Defer.

Context `{defer_config}.

Definition DEFER_QUEUE_MASK : Z := DEFER_QUEUE_SIZE - 1.
Definition DQ_FCT_BIT : Z := 1.
Definition DQ_IS_FCT_BIT (x : Z) : bool := negb (Z.land x DQ_FCT_BIT =? 0).
Definition DQ_SET_FCT_BIT (x : Z) : Z := Z.lor x DQ_FCT_BIT.
Definition DQ_CLEAR_FCT_BIT (x : Z) : Z := Z.land x (Z.lnot DQ_FCT_BIT).

Definition INIT_NUM_THREADS : Z := 4.

(** ** The functions of urcu-defer.c *)

Definition wake_up_defer : M unit :=
  f ← gets defer_thread_futex;
  if f =? -1 then
    modify (set_futex 0);;
    emit EvFutexWake
  else mret tt.

Definition rcu_defer_num_callbacks : M Z :=
  for_each_deferer (λ index num_items,
    e ← load_entry index;
    queue ← deref_queue e;
    d ← load_dq queue;
    let head := dq_head d in
    mret (wrap (num_items + wrap (head - dq_tail d)))) 0.

Definition wait_defer : M unit :=
  f ← gets defer_thread_futex;
  modify (set_futex (f - 1));;
  n ← rcu_defer_num_callbacks;
  if negb (n =? 0) then
    modify (set_futex 0)
  else
    f ← gets defer_thread_futex;
    if f =? -1 then emit EvFutexWait else mret tt.

(** The loop of [rcu_defer_barrier_queue]. It is left through [i != head]
    only; [fuel] bounds the number of iterations. *)
Fixpoint barrier_queue_loop (fuel : nat) (queue : Z) (i head : Z) : M Z :=
  if i =? head then mret i else
  match fuel with
  | O => fail OutOfFuel
  | S fuel =>
      p ← load_slot queue (Z.land i DEFER_QUEUE_MASK);
      let i := wrap (i + 1) in
      '(i, p) ← (if DQ_IS_FCT_BIT p then
                   update_dq queue (set_dq_last_fct_out (DQ_CLEAR_FCT_BIT p));;
                   p ← load_slot queue (Z.land i DEFER_QUEUE_MASK);
                   mret (wrap (i + 1), p)
                 else if p =? DQ_FCT_MARK then
                   p ← load_slot queue (Z.land i DEFER_QUEUE_MASK);
                   let i := wrap (i + 1) in
                   update_dq queue (set_dq_last_fct_out p);;
                   p ← load_slot queue (Z.land i DEFER_QUEUE_MASK);
                   mret (wrap (i + 1), p)
                 else mret (i, p));
      d ← load_dq queue;
      let fct := dq_last_fct_out d in
      emit (EvCall queue fct p);;
      barrier_queue_loop fuel queue i head
  end.

(** Every iteration reads at least one slot, so [head - tail] iterations
    are enough whenever [i] meets [head]. *)
Definition rcu_defer_barrier_queue (queue : Z) (head : Z) : M unit :=
  d ← load_dq queue;
  i ← barrier_queue_loop (Z.to_nat (wrap (head - dq_tail d))) queue (dq_tail d) head;
  update_dq queue (set_dq_tail i).

Definition _rcu_defer_barrier_thread (self : Z) : M unit :=
  d ← load_dq self;
  let head := dq_head d in
  let num_items := wrap (head - dq_tail d) in
  if num_items =? 0 then mret tt
  else
    emit EvSynchronizeRcu;;
    rcu_defer_barrier_queue self head.

Definition rcu_defer_barrier_thread (self : Z) : M unit :=
  _rcu_defer_barrier_thread self.

Definition rcu_defer_barrier : M unit :=
  r ← gets registry;
  if r is None then mret tt
  else
    num_items ← for_each_deferer (λ index num_items,
      e ← load_entry index;
      queue ← deref_queue e;
      d ← load_dq queue;
      let e := set_last_head (dq_head d) e in
      store_entry index e;;
      mret (wrap (num_items + wrap (last_head e - dq_tail d)))) 0;
    if num_items =? 0 then mret tt
    else
      emit EvSynchronizeRcu;;
      for_each_deferer (λ index _,
        e ← load_entry index;
        queue ← deref_queue e;
        rcu_defer_barrier_queue queue (last_head e)) tt.

Definition _rcu_defer_queue (self : Z) (fct p : Z) : M unit :=
  d ← load_dq self;
  let head := dq_head d in
  let tail := dq_tail d in
  (if wrap (DEFER_QUEUE_SIZE - 2) <=? wrap (head - tail) then
     assert (wrap (head - tail) <=? wrap DEFER_QUEUE_SIZE);;
     rcu_defer_barrier_thread self;;
     d ← load_dq self;
     assert (wrap (head - dq_tail d) =? 0)
   else mret tt);;
  d ← load_dq self;
  head ← (if negb (dq_last_fct_in d =? fct) then
            update_dq self (set_dq_last_fct_in fct);;
            if DQ_IS_FCT_BIT fct || (fct =? DQ_FCT_MARK) then
              store_slot self (Z.land head DEFER_QUEUE_MASK) DQ_FCT_MARK;;
              let head := wrap (head + 1) in
              store_slot self (Z.land head DEFER_QUEUE_MASK) fct;;
              mret (wrap (head + 1))
            else
              store_slot self (Z.land head DEFER_QUEUE_MASK) (DQ_SET_FCT_BIT fct);;
              mret (wrap (head + 1))
          else
            if DQ_IS_FCT_BIT p || (p =? DQ_FCT_MARK) then
              store_slot self (Z.land head DEFER_QUEUE_MASK) DQ_FCT_MARK;;
              let head := wrap (head + 1) in
              store_slot self (Z.land head DEFER_QUEUE_MASK) fct;;
              mret (wrap (head + 1))
            else mret head);
  store_slot self (Z.land head DEFER_QUEUE_MASK) p;;
  let head := wrap (head + 1) in
  update_dq self (set_dq_head head);;
  wake_up_defer.

(** [thr_defer]: the loop has no exit of its own, the thread runs until
    it is cancelled; [passes] is the number of passes it completes before
    that. [pthread_testcancel] and [poll] leave the state as it is. *)
Fixpoint thr_defer (passes : nat) : M unit :=
  match passes with
  | O => mret tt
  | S passes =>
      wait_defer;;
      rcu_defer_barrier;;
      thr_defer passes
  end.

Definition rcu_defer_queue (self : Z) (fct p : Z) : M unit :=
  _rcu_defer_queue self fct p.

(** [rcu_add_deferer], called by thread [self]; [mem] is what [malloc]
    returns if it is called. *)
Definition rcu_add_deferer (self : Z) (id : Z)
    (mem : option (list deferer_registry)) : M unit :=
  r ← gets registry;
  (if r is None then
     modify (set_alloc_deferers INIT_NUM_THREADS);;
     modify (set_num_deferers 0);;
     modify (set_registry (malloc (Z.to_nat INIT_NUM_THREADS) zero_entry mem))
   else mret tt);;
  alloc ← gets alloc_deferers;
  num ← gets num_deferers;
  (if INT_MAX <? num + 1 then fail Overflow else mret tt);;
  (if alloc <? num + 1 then
     oldarray ← gets registry;
     (if INT_MAX <? alloc * 2 then fail Overflow else mret tt);;
     match malloc (Z.to_nat (alloc * 2)) zero_entry mem, oldarray with
     | Some new, Some old =>
         modify (set_registry
                   (Some (take (Z.to_nat alloc) old ++ drop (Z.to_nat alloc) new)))
     | _, _ => fail Segfault
     end;;
     modify (set_alloc_deferers (alloc * 2))
   else mret tt);;
  num ← gets num_deferers;
  store_entry (Z.to_nat num) (mk_deferer_registry id (Some self) 0);;
  emit (EvRegistryAdd id);;
  modify (set_num_deferers (num + 1)).

Fixpoint remove_deferer_loop (ks : list nat) (id : Z) : M unit :=
  match ks with
  | [] => fail AssertFailed
  | index :: ks =>
      e ← load_entry index;
      if tid e =? id then
        num ← gets num_deferers;
        last ← load_entry (Z.to_nat (num - 1));
        store_entry index last;;
        store_entry (Z.to_nat (num - 1)) (mk_deferer_registry 0 None 0);;
        emit (EvRegistryRemove id);;
        modify (set_num_deferers (num - 1))
      else remove_deferer_loop ks id
  end.

Definition rcu_remove_deferer (id : Z) : M unit :=
  r ← gets registry;
  assert (bool_decide (r ≠ None));;
  n ← gets num_deferers;
  remove_deferer_loop (seq 0 (Z.to_nat n)) id.

(** [pthread_create] is taken to succeed. *)
Definition start_defer_thread : M unit :=
  w ← gets workers;
  modify (set_workers (S w));;
  emit EvPthreadCreate.

(** [pthread_join] fails, and the assertion with it, when there is no
    thread to join. *)
Definition stop_defer_thread : M unit :=
  emit EvPthreadCancel;;
  wake_up_defer;;
  w ← gets workers;
  match w with
  | O => fail AssertFailed
  | S w' =>
      modify (set_workers w');;
      emit EvPthreadJoin
  end.

(** [qmem] and [rmem] are the results of the [malloc] calls for the queue
    buffer and for the registry array. *)
Definition rcu_defer_register_thread (self : Z)
    (qmem : option (list Z)) (rmem : option (list deferer_registry)) : M unit :=
  update_dq self (set_dq_q (malloc (Z.to_nat DEFER_QUEUE_SIZE) 0 qmem));;
  rcu_add_deferer self self rmem;;
  deferers ← gets num_deferers;
  if deferers =? 1 then start_defer_thread else mret tt.

Definition rcu_defer_unregister_thread (self : Z) : M unit :=
  rcu_remove_deferer self;;
  _rcu_defer_barrier_thread self;;
  emit (EvFreeQueue self);;
  update_dq self (set_dq_q None);;
  deferers ← gets num_deferers;
  if deferers =? 0 then stop_defer_thread else mret tt.

(** ** Schedules of API calls *)

Inductive call :=
| Register (t : Z) (qmem : option (list Z)) (rmem : option (list deferer_registry))
| Unregister (t : Z)
| Defer (t : Z) (fct p : Z)
| BarrierThread (t : Z)
| Barrier
| WaitDefer.

Definition do_call (c : call) : M unit :=
  match c with
  | Register t qmem rmem => rcu_defer_register_thread t qmem rmem
  | Unregister t => rcu_defer_unregister_thread t
  | Defer t fct p => _rcu_defer_queue t fct p
  | BarrierThread t => rcu_defer_barrier_thread t
  | Barrier => rcu_defer_barrier
  | WaitDefer => wait_defer
  end.

Fixpoint run (cs : list call) : M unit :=
  match cs with
  | [] => mret tt
  | c :: cs => do_call c;; run cs
  end.

(** The entries of the registry in use, and the registered threads. *)
Definition live_entries (st : state) : list deferer_registry :=
  take (Z.to_nat (num_deferers st)) (default [] (registry st)).
Definition registered (t : Z) (st : state) : Prop :=
  t ∈ tid <$> live_entries st.

(** The preconditions of the interface: a thread registers once, only a
    registered thread enqueues, drains its queue or unregisters, functions
    and arguments are words, and the allocations succeed. *)
Definition admissible (c : call) (st : state) : Prop :=
  match c with
  | Register t qmem rmem =>
      ¬ registered t st ∧ is_Some qmem ∧ is_Some rmem ∧ num_deferers st < 2 ^ 30
  | Unregister t => registered t st
  | Defer t fct p => registered t st ∧ is_word fct ∧ is_word p
  | BarrierThread t => registered t st
  | Barrier => True
  | WaitDefer => True
  end.

(** The callbacks invoked from the queue of thread [t] in a log, in order. *)
Definition calls (t : Z) (tr : list event) : list (Z * Z) :=
  omap (λ ev, match ev with
              | EvCall queue fct p => if decide (queue = t) then Some (fct, p) else None
              | _ => None
              end) tr.
Definition grace_periods (tr : list event) : nat :=
  length (filter (λ ev, ev = EvSynchronizeRcu) tr).

(** The pairs enqueued by thread [t] in a schedule, in order. *)
Definition deferred (t : Z) (cs : list call) : list (Z * Z) :=
  omap (λ c, match c with
             | Defer t' fct p => if decide (t' = t) then Some (fct, p) else None
             | _ => None
             end) cs.

(** ** Definitions for the statements and the proofs *)

(** The ring index of a word: [i & DEFER_QUEUE_MASK]. *)
Definition slot_index (i : Z) : nat := Z.to_nat (Z.land i DEFER_QUEUE_MASK).

(** The effect of a function that touches one queue and the log only. *)
Definition same_globals (st st' : state) : Prop :=
  registry st' = registry st ∧ num_deferers st' = num_deferers st ∧
  alloc_deferers st' = alloc_deferers st ∧ workers st' = workers st.

Definition queue_effect (queue : Z) (st st' : state)
    (d' : defer_queue) (evs : list event) : Prop :=
  tls_get queue st' = d' ∧
  (∀ t, t ≠ queue → tls_get t st' = tls_get t st) ∧
  same_globals st st' ∧
  defer_thread_futex st' = defer_thread_futex st ∧
  trace st' = trace st ++ evs.

Definition slot_at (slots : list Z) (i : Z) : option Z := slots !! slot_index i.

Inductive encodes (slots : list Z) : Z → Z → list (Z * Z) → Z → Z → Prop :=
| enc_nil i f : encodes slots i f [] 0 f
| enc_arg i f p items n f' :
    slot_at slots i = Some p →
    DQ_IS_FCT_BIT p = false → p ≠ DQ_FCT_MARK →
    encodes slots (wrap (i + 1)) f items n f' →
    encodes slots i f ((f, p) :: items) (1 + n) f'
| enc_fct i f s p items n f' :
    slot_at slots i = Some s →
    DQ_IS_FCT_BIT s = true →
    slot_at slots (wrap (i + 1)) = Some p →
    encodes slots (wrap (wrap (i + 1) + 1)) (DQ_CLEAR_FCT_BIT s) items n f' →
    encodes slots i f ((DQ_CLEAR_FCT_BIT s, p) :: items) (2 + n) f'
| enc_mark i f g p items n f' :
    slot_at slots i = Some DQ_FCT_MARK →
    slot_at slots (wrap (i + 1)) = Some g →
    slot_at slots (wrap (wrap (i + 1) + 1)) = Some p →
    encodes slots (wrap (wrap (wrap (i + 1) + 1) + 1)) g items n f' →
    encodes slots i f ((g, p) :: items) (3 + n) f'.

Definition call_events (queue : Z) (items : list (Z * Z)) : list event :=
  (λ c, EvCall queue c.1 c.2) <$> items.

(** [head - tail], the number of slots in use. *)
Definition fill (d : defer_queue) : Z := wrap (dq_head d - dq_tail d).

(** The slots between [tail] and [head] are at most [DEFER_QUEUE_SIZE] and
    encode the pending callbacks [items]; decoding them takes the decoder
    from [last_fct_out] to [last_fct_in]. *)
Definition queue_inv (d : defer_queue) (items : list (Z * Z)) : Prop :=
  is_word (dq_tail d) ∧
  ∃ n, n <= DEFER_QUEUE_SIZE ∧ dq_head d = wrap (dq_tail d + n) ∧
       encodes (default [] (dq_q d)) (dq_tail d) (dq_last_fct_out d)
               items n (dq_last_fct_in d).

Definition has_buffer (d : defer_queue) : Prop :=
  ∃ slots, dq_q d = Some slots ∧ length slots = Z.to_nat DEFER_QUEUE_SIZE.

(** [_rcu_defer_barrier_thread]: a grace period and the pending callbacks,
    unless the queue is empty. *)
Definition drain_events (self : Z) (d : defer_queue) (items : list (Z * Z)) : list event :=
  if fill d =? 0 then [] else EvSynchronizeRcu :: call_events self items.

Definition wake_events (st : state) : list event :=
  if defer_thread_futex st =? -1 then [EvFutexWake] else [].
Definition wake_futex (st : state) : Z :=
  if defer_thread_futex st =? -1 then 0 else defer_thread_futex st.

(** The effect of an enqueue by [self]: its queue and the log change, and
    a waiting reclamation thread is woken. *)
Definition defer_effect (self : Z) (st st' : state)
    (d' : defer_queue) (evs : list event) : Prop :=
  tls_get self st' = d' ∧
  (∀ t, t ≠ self → tls_get t st' = tls_get t st) ∧
  same_globals st st' ∧
  defer_thread_futex st' = wake_futex st ∧
  trace st' = trace st ++ evs ++ wake_events st.

(** The slots written by an enqueue on the queue [d] with buffer [slots]:
    their number and the buffer after the stores. *)
Definition enqueue_slots (d : defer_queue) (fct p : Z) (slots : list Z) : Z * list Z :=
  let h := dq_head d in
  let escaped :=
    (3, <[slot_index (wrap (wrap (h + 1) + 1)) := p]>
          (<[slot_index (wrap (h + 1)) := fct]>
             (<[slot_index h := DQ_FCT_MARK]> slots))) in
  if negb (dq_last_fct_in d =? fct) then
    if DQ_IS_FCT_BIT fct || (fct =? DQ_FCT_MARK) then escaped
    else (2, <[slot_index (wrap (h + 1)) := p]>
               (<[slot_index h := DQ_SET_FCT_BIT fct]> slots))
  else
    if DQ_IS_FCT_BIT p || (p =? DQ_FCT_MARK) then escaped
    else (1, <[slot_index h := p]> slots).

(** The registry is well formed: the entries in use are within the
    array, belong to distinct threads and point to the queue of their
    thread. *)
Definition registry_ok (st : state) : Prop :=
  match registry st with
  | None => num_deferers st = 0
  | Some arr =>
      0 <= num_deferers st <= alloc_deferers st ∧
      INIT_NUM_THREADS <= alloc_deferers st <= INT_MAX ∧
      length arr = Z.to_nat (alloc_deferers st)
  end ∧
  NoDup (tid <$> live_entries st) ∧
  Forall (λ e, dr_defer_queue e = Some (tid e)) (live_entries st).

(** The sum of the fills of the queues of a list of entries. *)
Definition total_fill (st : state) (es : list deferer_registry) : Z :=
  foldr (λ e s, fill (tls_get (tid e) st) + s) 0 es.

(** The entry with the head of its queue recorded in [last_head]. *)
Definition snapshot (st : state) (e : deferer_registry) : deferer_registry :=
  set_last_head (dq_head (tls_get (tid e) st)) e.

Definition snapshot_array (st : state) (k : nat) (arr : list deferer_registry) :=
  (snapshot st <$> take k arr) ++ drop k arr.

(** ** The invariant of the queues along a schedule

    Along the schedule [cs], for every thread the callbacks already
    invoked from its queue followed by those its queue still holds are the
    callbacks it enqueued, in order; a registered thread has a buffer and
    the others have none. *)
Definition queues_ok (cs : list call) (st : state) : Prop :=
  ∀ t, ∃ items,
    queue_inv (tls_get t st) items ∧
    calls t (trace st) ++ items = deferred t cs ∧
    (registered t st → has_buffer (tls_get t st)) ∧
    (¬ registered t st → dq_q (tls_get t st) = None).

Definition new_entry (self id : Z) : deferer_registry :=
  mk_deferer_registry id (Some self) 0.

(** The capacity after an add. *)
Definition grown_capacity (st : state) : Z :=
  match registry st with
  | None => INIT_NUM_THREADS
  | Some _ =>
      if alloc_deferers st <? num_deferers st + 1
      then alloc_deferers st * 2 else alloc_deferers st
  end.

(** The entries in use after the entry at [k] has been overwritten with
    the last one and the count decremented. *)
Definition swap_remove (k : nat) (live : list deferer_registry) : list deferer_registry :=
  take (length live - 1) (<[k := default zero_entry (last live)]> live).

Definition stop_events (st : state) : list event :=
  [EvPthreadCancel] ++ wake_events st ++ [EvPthreadJoin].

(** The queue of [self] once [rcu_defer_unregister_thread] has drained it
    and freed its buffer. *)
Definition unregistered_queue (d : defer_queue) : defer_queue :=
  set_dq_q None (set_dq_tail (dq_head d) (set_dq_last_fct_out (dq_last_fct_in d) d)).

(** The reclamation thread exists exactly while a thread is registered. *)
Definition worker_ok (st : state) : Prop :=
  workers st = if 0 <? num_deferers st then 1%nat else 0%nat.

Definition sys_inv (cs : list call) (st : state) : Prop :=
  registry_ok st ∧ queues_ok cs st ∧ worker_ok st.

Definition deferred_by (t : Z) (c : call) : list (Z * Z) :=
  match c with
  | Defer t' fct p => if decide (t' = t) then [(fct, p)] else []
  | _ => []
  end.

(** [steps st cs st']: from [st] the calls [cs], each made within the
    preconditions of the interface, return normally and lead to [st']. *)
Inductive steps : state → list call → state → Prop :=
| steps_nil st : steps st [] st
| steps_cons st c st1 cs st' :
    admissible c st →
    do_call c st = Ok (tt, st1) →
    steps st1 cs st' →
    steps st (c :: cs) st'.

(** The states reached from the initial state. *)
Definition reaches (cs : list call) (st : state) : Prop := steps init_state cs st.

#[export] Instance is_word_dec z : Decision (is_word z).
Proof. unfold is_word. apply _. Defined.

#[export] Instance registered_dec t st : Decision (registered t st).
Proof. unfold registered. apply _. Defined.

#[export] Instance admissible_dec c st : Decision (admissible c st).
Proof. destruct c; simpl; apply _. Defined.

(** The state after the calls [cs], if each one is admissible and returns
    normally. *)
Fixpoint run_admissible (cs : list call) (st : state) : option state :=
  match cs with
  | [] => Some st
  | c :: cs =>
      if decide (admissible c st) then
        match do_call c st with
        | Ok (_, st') => run_admissible cs st'
        | Fail _ => None
        end
      else None
  end.

(** ** Definitions for the properties of whole runs *)

(** The callbacks thread [t] has enqueued along [cs] that the log [tr]
    does not show as invoked: those of [deferred t cs] after the first
    [length (calls t tr)]. *)
Definition pending (t : Z) (cs : list call) (tr : list event) : list (Z * Z) :=
  drop (length (calls t tr)) (deferred t cs).

(** The callbacks a batch invokes: the pending callbacks of the registered
    threads, queue after queue in the order of the registry. *)
Definition batch_events (cs : list call) (st : state) : list event :=
  mjoin ((λ e, call_events (tid e) (pending (tid e) cs (trace st)))
           <$> live_entries st).

(** The events of [rcu_defer_barrier]: nothing for an empty batch,
    otherwise one grace period and then the batch. *)
Definition barrier_events (cs : list call) (st : state) : list event :=
  match batch_events cs st with
  | [] => []
  | evs => EvSynchronizeRcu :: evs
  end.

(** [guarded false evs]: every callback invoked in [evs] comes after a
    grace period of [evs]. *)
Fixpoint guarded (synced : bool) (evs : list event) : bool :=
  match evs with
  | [] => true
  | EvSynchronizeRcu :: evs => guarded true evs
  | EvCall _ _ _ :: evs => synced && guarded synced evs
  | _ :: evs => guarded synced evs
  end.

(** The number of occurrences of an event in a log. *)
Definition count_event (ev : event) (tr : list event) : nat :=
  length (filter (λ x, x = ev) tr).

(** The events of the life of the reclamation thread. *)
Definition thread_event (ev : event) : Prop :=
  ev = EvPthreadCreate ∨ ev = EvPthreadCancel ∨ ev = EvPthreadJoin.

(** The thread a call is made by, for the calls that act on the queue of
    their caller. *)
Definition caller (c : call) : option Z :=
  match c with
  | Register t _ _ | Unregister t | Defer t _ _ | BarrierThread t => Some t
  | Barrier | WaitDefer => None
  end.

(** Whether [t] is registered after the registrations and unregistrations
    of [cs]. *)
Definition registered_by (t : Z) (cs : list call) : bool :=
  foldl (λ b c,
           match c with
           | Register t' _ _ => if decide (t' = t) then true else b
           | Unregister t' => if decide (t' = t) then false else b
           | _ => b
           end) false cs.

(** The registrations of [cs] less its unregistrations. *)
Definition registrations (cs : list call) : Z :=
  foldl (λ n c,
           match c with
           | Register _ _ _ => n + 1
           | Unregister _ => n - 1
           | _ => n
           end) 0 cs.

(** The events of a call made in the state [st] that the schedule [cs]
    has led to. *)
Definition call_log (c : call) (cs : list call) (st : state) : list event :=
  match c with
  | Register t _ _ =>
      [EvRegistryAdd t] ++ (if num_deferers st =? 0 then [EvPthreadCreate] else [])
  | Unregister t =>
      [EvRegistryRemove t] ++
      drain_events t (tls_get t st) (pending t cs (trace st)) ++
      [EvFreeQueue t] ++
      (if num_deferers st =? 1 then stop_events st else [])
  | Defer t _ _ =>
      (if DEFER_QUEUE_SIZE - 2 <=? fill (tls_get t st)
       then EvSynchronizeRcu :: call_events t (pending t cs (trace st))
       else []) ++ wake_events st
  | BarrierThread t => drain_events t (tls_get t st) (pending t cs (trace st))
  | Barrier => barrier_events cs st
  | WaitDefer =>
      if (total_fill st (live_entries st) =? 0) && (defer_thread_futex st =? 0)
      then [EvFutexWait] else []
  end.

(** The fields of a queue that its owner writes when it enqueues: the
    head, the function last encoded and the buffer with its slots. *)
Definition producer_fields (d : defer_queue) : Z * Z * option (list Z) :=
  (dq_head d, dq_last_fct_in d, dq_q d).

(** The number of callbacks invoked in a log. *)
Definition invocations (tr : list event) : nat :=
  length (omap (λ ev, match ev with
                      | EvCall queue fct p => Some (queue, fct, p)
                      | _ => None
                      end) tr).

(** The events other than the grace periods, the invocations and the
    futex calls. *)
Definition bookkeeping (ev : event) : bool :=
  match ev with
  | EvCall _ _ _ | EvSynchronizeRcu | EvFutexWake | EvFutexWait => false
  | _ => true
  end.

End Defer.

(** * A concrete configuration

    The smallest queue the assumptions allow, four slots, and the sentinel
    with every bit set but the function bit. The schedules below are run
    on it. *)

Definition example_config : defer_config :=
  {| DEFER_QUEUE_SIZE := 4; DQ_FCT_MARK := 2 ^ 64 - 2 |}.

Definition example_mark : Z := @DQ_FCT_MARK example_config.

(** The assumptions on a configuration, together. *)
Definition config_ok (cfg : defer_config) : Prop :=
  (∃ k, 2 <= k < 64 ∧ @DEFER_QUEUE_SIZE cfg = 2 ^ k) ∧
  @DEFER_QUEUE_SIZE cfg <= 2 ^ 32 ∧
  is_word (@DQ_FCT_MARK cfg) ∧
  DQ_IS_FCT_BIT (@DQ_FCT_MARK cfg) = false.

(** The state a schedule leads to from the initial state. *)
Definition state_after (cfg : defer_config) (cs : list call) : state :=
  match @run_admissible cfg cs init_state with
  | Some st => st
  | None => init_state
  end.

(** The events a call appends to the log, when it returns normally. *)
Definition events_of (m : M unit) (st : state) : option (list event) :=
  match m st with
  | Ok (_, st') => Some (drop (length (trace st)) (trace st'))
  | Fail _ => None
  end.

(** Two threads; thread 1 enqueues an untagged function with a tagged
    argument, the same function again, a tagged function with the sentinel
    as argument, and the sentinel as function. *)
Definition schedule_two_threads : list call :=
  [Register 1 (Some []) (Some []);
   Defer 1 8 3; Defer 1 8 16; Defer 1 9 example_mark; Defer 1 example_mark 6;
   Register 2 (Some [7]) (Some []);
   Defer 2 5 5; Barrier; Defer 1 example_mark 7; WaitDefer;
   Defer 2 5 example_mark; BarrierThread 2].

Definition state_two_threads : state :=
  Eval vm_compute in state_after example_config schedule_two_threads.

(** One thread with one callback in its queue, which fills it up to the
    threshold [DEFER_QUEUE_SIZE - 2]. *)
Definition schedule_one_pending : list call :=
  [Register 1 (Some []) (Some []); Defer 1 8 3].

Definition state_one_pending : state :=
  Eval vm_compute in state_after example_config schedule_one_pending.

(** Two threads with a callback each in their queues. *)
Definition schedule_two_pending : list call :=
  [Register 1 (Some []) (Some []); Defer 1 8 3;
   Register 2 (Some []) (Some []); Defer 2 9 5].

Definition state_two_pending : state :=
  Eval vm_compute in state_after example_config schedule_two_pending.

(** One registered thread, nothing enqueued. *)
Definition schedule_registered : list call := [Register 1 (Some []) (Some [])].

Definition state_registered : state :=
  Eval vm_compute in state_after example_config schedule_registered.

(** The state after a first registration whose queue allocation failed. *)
Definition state_failed_queue_alloc : state :=
  Eval vm_compute in
    match @rcu_defer_register_thread example_config 1 None (Some []) init_state with
    | Ok (_, st') => st'
    | Fail _ => init_state
    end.

(** The position of the first occurrence of an event in a log, and the
    order of the first occurrences of two events. *)
Fixpoint position (a : event) (tr : list event) : option nat :=
  match tr with
  | [] => None
  | x :: tr => if decide (x = a) then Some 0%nat else S <$> position a tr
  end.

Definition precedes (a b : event) (tr : list event) : bool :=
  match position a tr, position b tr with
  | Some i, Some j => (i <? j)%nat
  | _, _ => false
  end.

(** The order in which a specification may list the steps of an
    unregistration: the grace period of the drain, then the release of the
    buffer, then the removal of the registry entry. *)
Definition drain_free_remove (t : Z) (evs : list event) : bool :=
  precedes EvSynchronizeRcu (EvFreeQueue t) evs &&
  precedes (EvFreeQueue t) (EvRegistryRemove t) evs.

(** Threads that come and go: two threads register, enqueue and
    unregister, the second one last, and a third one registers after
    that. *)
Definition schedule_churn : list call :=
  [Register 1 (Some []) (Some []); Defer 1 8 3;
   Register 2 (Some []) (Some []); Defer 2 9 5;
   Unregister 1; Unregister 2;
   Register 3 (Some []) (Some []); Defer 3 8 4].

Definition state_churn : state :=
  Eval vm_compute in state_after example_config schedule_churn.

(** * Properties *)

Section Properties.

Context `{cfg : defer_config}.

(** ** Assumptions on the configuration

    The size of a queue is a power of two, at least 4 (an enqueue writes up
    to three slots) and at most [2^32] (the sum of the fills of the queues
    of at most [INT_MAX] threads is then a word); the sentinel is a word
    without the function bit. *)

Hypothesis size_pow2 : ∃ k, 2 <= k < 64 ∧ DEFER_QUEUE_SIZE = 2 ^ k.
Hypothesis size_small : DEFER_QUEUE_SIZE <= 2 ^ 32.
Hypothesis mark_word : is_word DQ_FCT_MARK.
Hypothesis mark_untagged : DQ_IS_FCT_BIT DQ_FCT_MARK = false.

(** ** Words, masks and tags *)

Lemma size_bounds : 4 <= DEFER_QUEUE_SIZE < word_modulus.
Proof.
  destruct size_pow2 as (k & Hk & ->). unfold word_modulus, word_bits. split.
  - change 4 with (2 ^ 2). apply Z.pow_le_mono_r; lia.
  - apply Z.pow_lt_mono_r; lia.
Qed.

Lemma size_divides : ∃ c, word_modulus = c * DEFER_QUEUE_SIZE.
Proof.
  destruct size_pow2 as (k & Hk & ->). exists (2 ^ (64 - k)).
  unfold word_modulus, word_bits. rewrite <- Z.pow_add_r by lia. f_equal. lia.
Qed.

Lemma land_mask i : Z.land i DEFER_QUEUE_MASK = i mod DEFER_QUEUE_SIZE.
Proof.
  unfold DEFER_QUEUE_MASK. destruct size_pow2 as (k & Hk & ->).
  rewrite <- Z.land_ones by lia. f_equal. rewrite Z.ones_equiv. lia.
Qed.

Lemma wrap_mod_size a : wrap a mod DEFER_QUEUE_SIZE = a mod DEFER_QUEUE_SIZE.
Proof.
  destruct size_divides as (c & Hc). unfold wrap.
  apply Z.mod_mod_divide. exists c. exact Hc.
Qed.

(** Equations and bounds between wrapped sums. *)
Ltac wrap_solve :=
  unfold is_word, wrap, word_modulus, word_bits in *;
  change (2 ^ 64) with 18446744073709551616 in *;
  Z.div_mod_to_equations; lia.

Lemma wrap_word a : is_word (wrap a).
Proof. unfold is_word, wrap. apply Z.mod_pos_bound. reflexivity. Qed.

Lemma wrap_id a : is_word a → wrap a = a.
Proof. unfold is_word, wrap. intros. apply Z.mod_small. lia. Qed.

Lemma wrap_add_l a b : wrap (wrap a + b) = wrap (a + b).
Proof. unfold wrap. apply Zplus_mod_idemp_l. Qed.

Lemma wrap_add_sub a n : is_word a → 0 <= n < word_modulus → wrap (wrap (a + n) - a) = n.
Proof.
  intros Ha Hn. unfold wrap. rewrite Zminus_mod_idemp_l.
  replace (a + n - a) with n by lia. apply Z.mod_small. lia.
Qed.

Lemma wrap_sub_self a : wrap (a - a) = 0.
Proof. rewrite Z.sub_diag. reflexivity. Qed.

Lemma wrap_sub_0 a b : is_word a → is_word b → wrap (a - b) = 0 → a = b.
Proof.
  unfold is_word, wrap. intros Ha Hb H.
  apply Z.mod_divide in H; [|unfold word_modulus, word_bits; lia].
  destruct H as (c & Hc). unfold word_modulus, word_bits in *. lia.
Qed.

Lemma slot_index_lt i : (slot_index i < Z.to_nat DEFER_QUEUE_SIZE)%nat.
Proof.
  unfold slot_index. rewrite land_mask. pose proof size_bounds.
  pose proof (Z.mod_pos_bound i DEFER_QUEUE_SIZE). lia.
Qed.

Lemma slot_index_wrap i : slot_index (wrap i) = slot_index i.
Proof. unfold slot_index. rewrite !land_mask, wrap_mod_size. reflexivity. Qed.

Lemma slot_index_ne i a b :
  0 <= a < b → b < DEFER_QUEUE_SIZE → slot_index (i + a) ≠ slot_index (i + b).
Proof.
  intros Ha Hb. unfold slot_index. rewrite !land_mask. pose proof size_bounds.
  pose proof (Z.mod_pos_bound (i + a) DEFER_QUEUE_SIZE).
  pose proof (Z.mod_pos_bound (i + b) DEFER_QUEUE_SIZE).
  intros Heq. apply Z2Nat.inj in Heq; try lia.
  assert (Hd : (b - a) mod DEFER_QUEUE_SIZE = 0).
  { replace (b - a) with ((i + b) - (i + a)) by lia.
    rewrite Zminus_mod, Heq, Z.sub_diag. apply Z.mod_0_l. lia. }
  rewrite Z.mod_small in Hd; lia.
Qed.

Lemma land_1_cases x : Z.land x 1 = 0 ∨ Z.land x 1 = 1.
Proof.
  assert (H : Z.land x 1 = x mod 2) by apply (Z.land_ones x 1 ltac:(lia)).
  rewrite H. pose proof (Z.mod_pos_bound x 2). lia.
Qed.

Lemma is_fct_bit_set x : DQ_IS_FCT_BIT (DQ_SET_FCT_BIT x) = true.
Proof.
  unfold DQ_IS_FCT_BIT, DQ_SET_FCT_BIT, DQ_FCT_BIT.
  rewrite Z.land_lor_distr_l. change (Z.land 1 1) with 1.
  destruct (land_1_cases x) as [-> | ->]; reflexivity.
Qed.

Lemma clear_set_fct_bit x :
  DQ_IS_FCT_BIT x = false → DQ_CLEAR_FCT_BIT (DQ_SET_FCT_BIT x) = x.
Proof.
  unfold DQ_IS_FCT_BIT, DQ_SET_FCT_BIT, DQ_CLEAR_FCT_BIT, DQ_FCT_BIT. intros H.
  apply negb_false_iff, Z.eqb_eq in H.
  rewrite Z.land_lor_distr_l. change (Z.land 1 (Z.lnot 1)) with 0.
  rewrite Z.lor_0_r.
  apply Z.bits_inj'. intros n Hn. rewrite Z.land_spec.
  destruct (decide (n = 0)) as [-> | Hne].
  - assert (Hb : Z.testbit (Z.land x 1) 0 = false) by (rewrite H; reflexivity).
    rewrite Z.land_spec in Hb. change (Z.testbit 1 0) with true in Hb.
    rewrite andb_true_r in Hb. rewrite Hb. reflexivity.
  - rewrite Z.lnot_spec by lia.
    replace (Z.testbit 1 n) with false; [apply andb_true_r|].
    symmetry. change 1 with (2 ^ 0). apply Z.pow2_bits_false. lia.
Qed.

(** ** Evaluation of the monadic primitives *)

Lemma bind_eval {A B} (m : M A) (k : A → M B) st a st1 :
  m st = Ok (a, st1) → (m ≫= k) st = k a st1.
Proof. intros H. unfold mbind, M_bind. rewrite H. reflexivity. Qed.

Lemma bind_fail {A B} (m : M A) (k : A → M B) st f :
  m st = Fail f → (m ≫= k) st = Fail f.
Proof. intros H. unfold mbind, M_bind. rewrite H. reflexivity. Qed.

Ltac mred :=
  unfold mbind, M_bind, mret, M_ret, load_dq, update_dq, gets, emit, modify;
  cbv beta iota.

Lemma tls_get_put_eq queue d st : tls_get queue (put_dq queue d st) = d.
Proof. unfold tls_get. simpl. rewrite lookup_insert_eq. reflexivity. Qed.

Lemma tls_get_put_ne queue t d st :
  t ≠ queue → tls_get t (put_dq queue d st) = tls_get t st.
Proof.
  intros H. unfold tls_get. simpl. rewrite lookup_insert_ne by congruence.
  reflexivity.
Qed.

Lemma load_dq_eval queue st : load_dq queue st = Ok (tls_get queue st, st).
Proof. reflexivity. Qed.

Lemma update_dq_eval queue f st :
  update_dq queue f st = Ok (tt, put_dq queue (f (tls_get queue st)) st).
Proof. reflexivity. Qed.

Lemma emit_eval ev st : emit ev st = Ok (tt, add_trace [ev] st).
Proof. reflexivity. Qed.

Lemma load_slot_eval queue i st slots v :
  dq_q (tls_get queue st) = Some slots →
  slots !! Z.to_nat i = Some v →
  load_slot queue i st = Ok (v, st).
Proof.
  intros Hq Hv. unfold load_slot. rewrite (bind_eval _ _ _ _ _ (load_dq_eval _ _)).
  rewrite Hq, Hv. reflexivity.
Qed.

Lemma store_slot_eval queue i v st slots :
  dq_q (tls_get queue st) = Some slots →
  (Z.to_nat i < length slots)%nat →
  store_slot queue i v st =
    Ok (tt, put_dq queue (set_dq_q (Some (<[Z.to_nat i := v]> slots)) (tls_get queue st)) st).
Proof.
  intros Hq Hi. unfold store_slot. rewrite (bind_eval _ _ _ _ _ (load_dq_eval _ _)).
  rewrite Hq. destruct (decide _); [reflexivity | contradiction].
Qed.

Lemma dq_eta d :
  mk_defer_queue (dq_head d) (dq_last_fct_in d) (dq_tail d) (dq_last_fct_out d) (dq_q d) = d.
Proof. destruct d; reflexivity. Qed.

Lemma queue_effect_refl queue st : queue_effect queue st st (tls_get queue st) [].
Proof.
  unfold queue_effect, same_globals. rewrite app_nil_r. tauto.
Qed.

Lemma queue_effect_trace queue st evs :
  queue_effect queue st (add_trace evs st) (tls_get queue st) evs.
Proof. unfold queue_effect, same_globals. tauto. Qed.

Lemma queue_effect_put queue st d evs :
  queue_effect queue st (add_trace evs (put_dq queue d st)) d evs.
Proof.
  unfold queue_effect, same_globals. split; [apply tls_get_put_eq|].
  split; [intros t Ht; apply (tls_get_put_ne queue t d st Ht)|]. tauto.
Qed.

Lemma queue_effect_put0 queue st d :
  queue_effect queue st (put_dq queue d st) d [].
Proof.
  unfold queue_effect, same_globals. split; [apply tls_get_put_eq|].
  split; [intros t Ht; apply (tls_get_put_ne queue t d st Ht)|].
  simpl. rewrite app_nil_r. tauto.
Qed.

Lemma queue_effect_trans queue st st1 st2 d1 d2 e1 e2 :
  queue_effect queue st st1 d1 e1 →
  queue_effect queue st1 st2 d2 e2 →
  queue_effect queue st st2 d2 (e1 ++ e2).
Proof.
  unfold queue_effect, same_globals.
  intros (H1 & H2 & (H3 & H4 & H5 & H6) & H7 & H8) (K1 & K2 & (K3 & K4 & K5 & K6) & K7 & K8).
  split; [exact K1|]. split.
  { intros t Ht. rewrite K2, H2 by exact Ht. reflexivity. }
  rewrite K3, K4, K5, K6, K7, K8, H8, app_assoc. tauto.
Qed.

(** ** What the slots of a queue encode

    [encodes slots i f items n f']: read from word index [i] with decoder
    state [f] (the last function decoded), the next [n] slots decode to
    the callbacks [items] and leave the decoder in state [f']. *)

Lemma encodes_nonneg slots i f items n f' :
  encodes slots i f items n f' → 0 <= n ∧ Z.of_nat (length items) <= n.
Proof. induction 1; simpl; lia. Qed.

Lemma slot_at_wrap slots i : slot_at slots (wrap i) = slot_at slots i.
Proof. unfold slot_at. rewrite slot_index_wrap. reflexivity. Qed.

Lemma encodes_wrap slots i f items n f' :
  encodes slots (wrap i) f items n f' → encodes slots i f items n f'.
Proof.
  intros H. inversion H; subst; rewrite ?(wrap_add_l i 1) in *;
    repeat match goal with
           | K : slot_at _ (wrap i) = _ |- _ => rewrite (slot_at_wrap _ i) in K
           end.
  - constructor.
  - econstructor; eauto.
  - econstructor; eauto.
  - econstructor; eauto.
Qed.

Lemma encodes_app slots i f items n f' items' m f'' :
  encodes slots i f items n f' →
  encodes slots (wrap (i + n)) f' items' m f'' →
  encodes slots i f (items ++ items') (n + m) f''.
Proof.
  intros H. revert items' m f''.
  induction H as [i f | i f p items n f' ? ? ? ? IH | i f s p items n f' ? ? ? ? IH
                 | i f g p items n f' ? ? ? ? IH]; intros items' m f'' Happ; simpl.
  - rewrite Z.add_0_r in Happ. apply encodes_wrap. exact Happ.
  - rewrite <- Z.add_assoc. econstructor; eauto. apply IH.
    replace (wrap (wrap (i + 1) + n)) with (wrap (i + (1 + n))) by wrap_solve.
    exact Happ.
  - rewrite <- Z.add_assoc. econstructor; eauto. apply IH.
    replace (wrap (wrap (wrap (i + 1) + 1) + n)) with (wrap (i + (2 + n)))
      by wrap_solve.
    exact Happ.
  - rewrite <- Z.add_assoc. econstructor; eauto. apply IH.
    replace (wrap (wrap (wrap (wrap (i + 1) + 1) + 1) + n))
      with (wrap (i + (3 + n))) by wrap_solve.
    exact Happ.
Qed.

Lemma slot_index_wrap_add a k : slot_index (wrap a + k) = slot_index (a + k).
Proof.
  unfold slot_index. rewrite !land_mask. f_equal.
  rewrite Zplus_mod, wrap_mod_size, <- Zplus_mod. reflexivity.
Qed.

Lemma slot_index_congr a b : wrap a = wrap b → slot_index a = slot_index b.
Proof. intros H. rewrite <- (slot_index_wrap a), H. apply slot_index_wrap. Qed.

Lemma slot_at_insert_ne slots i w v :
  slot_index i ≠ w → slot_at (<[w := v]> slots) i = slot_at slots i.
Proof. intros H. unfold slot_at. apply list_lookup_insert_ne. congruence. Qed.

(** A store outside the slots read leaves the decoding unchanged. *)
Lemma encodes_insert slots i f items n f' w v :
  encodes slots i f items n f' →
  (∀ k, 0 <= k < n → slot_index (i + k) ≠ w) →
  encodes (<[w := v]> slots) i f items n f'.
Proof.
  intros H.
  induction H as [i f | i f p items n f' H0 ? ? H3 IH | i f s p items n f' H0 ? H1 H3 IH
                 | i f g p items n f' H0 H1 H2 H3 IH]; intros Hw;
    pose proof (Hw 0) as Hw0; rewrite ?Z.add_0_r in Hw0;
    try pose proof (encodes_nonneg _ _ _ _ _ _ H3) as [Hn _].
  - constructor.
  - econstructor; eauto.
    + rewrite slot_at_insert_ne by (apply Hw0; lia). exact H0.
    + apply IH. intros k Hk.
      rewrite (slot_index_congr _ (i + (1 + k))) by wrap_solve. apply Hw. lia.
  - econstructor; eauto.
    + rewrite slot_at_insert_ne by (apply Hw0; lia). exact H0.
    + rewrite slot_at_insert_ne; [exact H1|].
      rewrite slot_index_wrap. apply Hw. lia.
    + apply IH. intros k Hk.
      rewrite (slot_index_congr _ (i + (2 + k))) by wrap_solve. apply Hw. lia.
  - econstructor; eauto.
    + rewrite slot_at_insert_ne by (apply Hw0; lia). exact H0.
    + rewrite slot_at_insert_ne; [exact H1|].
      rewrite slot_index_wrap. apply Hw. lia.
    + rewrite slot_at_insert_ne; [exact H2|].
      rewrite (slot_index_congr _ (i + 2)) by wrap_solve. apply Hw. lia.
    + apply IH. intros k Hk.
      rewrite (slot_index_congr _ (i + (3 + k))) by wrap_solve. apply Hw. lia.
Qed.

Lemma calls_call_events queue items : calls queue (call_events queue items) = items.
Proof.
  unfold calls, call_events. induction items as [|[f p] items IH]; simpl.
  - reflexivity.
  - destruct (decide (queue = queue)); [|congruence]. f_equal. exact IH.
Qed.

Lemma calls_call_events_ne t queue items :
  queue ≠ t → calls t (call_events queue items) = [].
Proof.
  intros Hne. unfold calls, call_events.
  induction items as [|[f p] items IH]; simpl; [reflexivity|].
  destruct (decide (queue = t)); [congruence | exact IH].
Qed.

Lemma calls_app t tr1 tr2 : calls t (tr1 ++ tr2) = calls t tr1 ++ calls t tr2.
Proof. unfold calls. apply omap_app. Qed.

(** The drain loop invokes what the slots encode, in order, and leaves the
    decoder state in the queue. *)
Lemma barrier_queue_loop_spec slots i f items n f' :
  encodes slots i f items n f' →
  ∀ fuel queue st,
    dq_q (tls_get queue st) = Some slots →
    dq_last_fct_out (tls_get queue st) = f →
    is_word i → n < word_modulus → (Z.to_nat n ≤ fuel)%nat →
    ∃ st',
      barrier_queue_loop fuel queue i (wrap (i + n)) st = Ok (wrap (i + n), st') ∧
      queue_effect queue st st'
        (set_dq_last_fct_out f' (tls_get queue st)) (call_events queue items).
Proof.
  intros H.
  induction H as [i f | i f p items n f' H0 Hb Hm H3 IH | i f s p items n f' H0 Hb H1 H3 IH
                 | i f g p items n f' H0 H1 H2 H3 IH];
    intros fuel queue st Hq Hf Hi Hn Hfuel;
    try pose proof (encodes_nonneg _ _ _ _ _ _ H3) as [Hn0 _].
  - exists st. rewrite Z.add_0_r, (wrap_id i Hi). split.
    + destruct fuel; simpl; rewrite Z.eqb_refl; reflexivity.
    + rewrite <- Hf. unfold set_dq_last_fct_out. rewrite dq_eta.
      apply queue_effect_refl.
  - destruct fuel as [|fuel]; [lia|].
    set (st1 := add_trace [EvCall queue f p] st).
    destruct (IH fuel queue st1) as (st' & Hrun & Heff); try assumption;
      try apply wrap_word; try lia.
    exists st'. split.
    + cbn [barrier_queue_loop].
      rewrite (proj2 (Z.eqb_neq _ _)) by wrap_solve.
      erewrite bind_eval; [|eapply load_slot_eval; [exact Hq | exact H0]].
      rewrite Hb, (proj2 (Z.eqb_neq _ _) Hm).
      mred. rewrite Hf. fold st1.
      replace (wrap (i + (1 + n))) with (wrap (wrap (i + 1) + n)) by wrap_solve.
      exact Hrun.
    + change (call_events queue ((f, p) :: items))
        with ([EvCall queue f p] ++ call_events queue items).
      eapply queue_effect_trans; [|exact Heff]. apply queue_effect_trace.
  - destruct fuel as [|fuel]; [lia|].
    set (g := DQ_CLEAR_FCT_BIT s) in *.
    set (d1 := set_dq_last_fct_out g (tls_get queue st)).
    set (st1 := add_trace [EvCall queue g p] (put_dq queue d1 st)).
    assert (Hd1 : tls_get queue st1 = d1) by apply tls_get_put_eq.
    destruct (IH fuel queue st1) as (st' & Hrun & Heff);
      try apply wrap_word; try lia; try (rewrite Hd1; try reflexivity; exact Hq).
    exists st'. split.
    + cbn [barrier_queue_loop].
      rewrite (proj2 (Z.eqb_neq _ _)) by wrap_solve.
      erewrite bind_eval; [|eapply load_slot_eval; [exact Hq | exact H0]].
      rewrite Hb. mred.
      erewrite (load_slot_eval _ _ (put_dq queue d1 st));
        [|rewrite tls_get_put_eq; exact Hq | exact H1].
      rewrite tls_get_put_eq. cbv beta iota. fold st1.
      replace (wrap (i + (2 + n))) with (wrap (wrap (wrap (i + 1) + 1) + n))
        by wrap_solve.
      exact Hrun.
    + change (call_events queue ((g, p) :: items))
        with ([EvCall queue g p] ++ call_events queue items).
      eapply queue_effect_trans; [apply (queue_effect_put queue st d1)|].
      fold st1. rewrite Hd1 in Heff. exact Heff.
  - destruct fuel as [|fuel]; [lia|].
    set (d1 := set_dq_last_fct_out g (tls_get queue st)).
    set (st1 := add_trace [EvCall queue g p] (put_dq queue d1 st)).
    assert (Hd1 : tls_get queue st1 = d1) by apply tls_get_put_eq.
    destruct (IH fuel queue st1) as (st' & Hrun & Heff);
      try apply wrap_word; try lia; try (rewrite Hd1; try reflexivity; exact Hq).
    exists st'. split.
    + cbn [barrier_queue_loop].
      rewrite (proj2 (Z.eqb_neq _ _)) by wrap_solve.
      erewrite bind_eval; [|eapply load_slot_eval; [exact Hq | exact H0]].
      rewrite mark_untagged, Z.eqb_refl.
      erewrite bind_eval;
        [|erewrite bind_eval; [|eapply load_slot_eval; [exact Hq | exact H1]];
          mred;
          erewrite (load_slot_eval _ _ (put_dq queue d1 st));
          [|rewrite tls_get_put_eq; exact Hq | exact H2]; reflexivity].
      mred. rewrite tls_get_put_eq. fold st1.
      replace (wrap (i + (3 + n)))
        with (wrap (wrap (wrap (wrap (i + 1) + 1) + 1) + n)) by wrap_solve.
      exact Hrun.
    + change (call_events queue ((g, p) :: items))
        with ([EvCall queue g p] ++ call_events queue items).
      eapply queue_effect_trans; [apply (queue_effect_put queue st d1)|].
      fold st1. rewrite Hd1 in Heff. exact Heff.
Qed.

(** ** Encoding one callback at the head of the queue *)

Lemma slot_at_insert_eq slots i v :
  length slots = Z.to_nat DEFER_QUEUE_SIZE →
  slot_at (<[slot_index i := v]> slots) i = Some v.
Proof.
  intros Hl. unfold slot_at. apply list_lookup_insert_eq.
  rewrite Hl. apply slot_index_lt.
Qed.

Lemma slot_index_succ_ne i a b :
  0 <= a < b → b < 4 → slot_index (i + a) ≠ slot_index (i + b).
Proof. intros. pose proof size_bounds. apply slot_index_ne; lia. Qed.

Lemma single_arg slots i f p :
  length slots = Z.to_nat DEFER_QUEUE_SIZE →
  DQ_IS_FCT_BIT p = false → p ≠ DQ_FCT_MARK →
  encodes (<[slot_index i := p]> slots) i f [(f, p)] 1 f.
Proof.
  intros Hl Hb Hm. change 1 with (1 + 0). econstructor; eauto using encodes.
  apply slot_at_insert_eq. exact Hl.
Qed.

Lemma single_fct slots i f s p :
  length slots = Z.to_nat DEFER_QUEUE_SIZE →
  DQ_IS_FCT_BIT s = true →
  encodes (<[slot_index (wrap (i + 1)) := p]> (<[slot_index i := s]> slots))
          i f [(DQ_CLEAR_FCT_BIT s, p)] 2 (DQ_CLEAR_FCT_BIT s).
Proof.
  intros Hl Hb. change 2 with (2 + 0). econstructor; eauto using encodes.
  - rewrite slot_at_insert_ne.
    + apply slot_at_insert_eq. exact Hl.
    + rewrite slot_index_wrap. rewrite <- (Z.add_0_r i) at 1.
      apply slot_index_succ_ne; lia.
  - apply slot_at_insert_eq. rewrite length_insert. exact Hl.
Qed.

Lemma single_mark slots i f g p :
  length slots = Z.to_nat DEFER_QUEUE_SIZE →
  encodes (<[slot_index (wrap (wrap (i + 1) + 1)) := p]>
             (<[slot_index (wrap (i + 1)) := g]>
                (<[slot_index i := DQ_FCT_MARK]> slots)))
          i f [(g, p)] 3 g.
Proof.
  intros Hl. change 3 with (3 + 0).
  assert (H01 : slot_index i ≠ slot_index (wrap (i + 1))).
  { rewrite slot_index_wrap. rewrite <- (Z.add_0_r i) at 1.
    apply slot_index_succ_ne; lia. }
  assert (H02 : slot_index i ≠ slot_index (wrap (wrap (i + 1) + 1))).
  { rewrite (slot_index_congr (wrap (wrap (i + 1) + 1)) (i + 2)) by wrap_solve.
    rewrite <- (Z.add_0_r i) at 1. apply slot_index_succ_ne; lia. }
  assert (H12 : slot_index (wrap (i + 1)) ≠ slot_index (wrap (wrap (i + 1) + 1))).
  { rewrite (slot_index_congr (wrap (wrap (i + 1) + 1)) (i + 2)) by wrap_solve.
    rewrite slot_index_wrap. apply slot_index_succ_ne; lia. }
  econstructor; eauto using encodes.
  - rewrite !slot_at_insert_ne by assumption.
    apply slot_at_insert_eq. exact Hl.
  - rewrite slot_at_insert_ne by assumption.
    apply slot_at_insert_eq. rewrite length_insert. exact Hl.
  - apply slot_at_insert_eq. rewrite !length_insert. exact Hl.
Qed.

(** Stores at the next three positions after the slots in use leave what
    is already encoded alone. *)
Lemma encodes_insert_ahead slots i f items n f' k v :
  encodes slots i f items n f' →
  0 <= k → n + k < DEFER_QUEUE_SIZE →
  ∀ j, wrap j = wrap (i + (n + k)) →
  encodes (<[slot_index j := v]> slots) i f items n f'.
Proof.
  intros H Hk Hn j Hj. apply encodes_insert; [exact H|].
  intros a Ha. rewrite (slot_index_congr j _ Hj).
  apply slot_index_ne; lia.
Qed.

(** ** The invariant of a queue *)

Lemma encodes_empty i f items n f' :
  encodes [] i f items n f' → items = [] ∧ n = 0 ∧ f' = f.
Proof. intros H. inversion H; subst; auto; discriminate. Qed.

Lemma encodes_zero slots i f items f' :
  encodes slots i f items 0 f' → items = [] ∧ f' = f.
Proof.
  intros H. inversion H as [| ? ? ? ? ? ? ? ? ? H3 | ? ? ? ? ? ? ? ? ? ? H3
                            | ? ? ? ? ? ? ? ? ? ? H3]; subst; auto;
    apply encodes_nonneg in H3; lia.
Qed.

Lemma encodes_pos slots i f items n f' :
  encodes slots i f items n f' → 0 < n → items ≠ [].
Proof. intros H Hn. inversion H; subst; [lia | discriminate ..]. Qed.

Lemma queue_inv_fill d items :
  queue_inv d items →
  0 <= fill d <= DEFER_QUEUE_SIZE ∧ is_word (dq_head d) ∧
  encodes (default [] (dq_q d)) (dq_tail d) (dq_last_fct_out d)
          items (fill d) (dq_last_fct_in d).
Proof.
  intros (Ht & n & Hn & Hh & Henc). pose proof size_bounds.
  destruct (encodes_nonneg _ _ _ _ _ _ Henc) as [Hn0 _].
  assert (fill d = n) as ->.
  { unfold fill. rewrite Hh. apply wrap_add_sub; [exact Ht | lia]. }
  split; [lia|]. split; [rewrite Hh; apply wrap_word | exact Henc].
Qed.

Lemma queue_inv_empty d items :
  queue_inv d items → fill d = 0 →
  items = [] ∧ dq_last_fct_out d = dq_last_fct_in d ∧ dq_head d = dq_tail d.
Proof.
  intros Hinv H0. destruct (queue_inv_fill _ _ Hinv) as (_ & Hw & Henc).
  rewrite H0 in Henc. apply encodes_zero in Henc as [-> ->].
  repeat split. apply wrap_sub_0; [exact Hw | apply Hinv | exact H0].
Qed.

(** ** The drain of one queue *)

Lemma rcu_defer_barrier_queue_spec queue h st items n f1 :
  let d := tls_get queue st in
  is_word (dq_tail d) →
  encodes (default [] (dq_q d)) (dq_tail d) (dq_last_fct_out d) items n f1 →
  n < word_modulus → h = wrap (dq_tail d + n) →
  ∃ st',
    rcu_defer_barrier_queue queue h st = Ok (tt, st') ∧
    queue_effect queue st st'
      (set_dq_tail h (set_dq_last_fct_out f1 d)) (call_events queue items).
Proof.
  intros d Ht Henc Hn ->. fold d.
  destruct (encodes_nonneg _ _ _ _ _ _ Henc) as [Hn0 _].
  assert (Hloop : ∃ st1,
    barrier_queue_loop (Z.to_nat (wrap (wrap (dq_tail d + n) - dq_tail d)))
      queue (dq_tail d) (wrap (dq_tail d + n)) st = Ok (wrap (dq_tail d + n), st1) ∧
    queue_effect queue st st1 (set_dq_last_fct_out f1 d) (call_events queue items)).
  { rewrite wrap_add_sub by (try assumption; lia).
    destruct (dq_q d) as [slots|] eqn:Hq; simpl in Henc.
    - eapply barrier_queue_loop_spec; eauto.
    - apply encodes_empty in Henc as (-> & -> & ->). exists st.
      rewrite Z.add_0_r, (wrap_id _ Ht). split.
      + simpl. rewrite Z.eqb_refl. reflexivity.
      + unfold set_dq_last_fct_out. rewrite dq_eta. apply queue_effect_refl. }
  destruct Hloop as (st1 & Hrun & Heff).
  exists (put_dq queue (set_dq_tail (wrap (dq_tail d + n)) (tls_get queue st1)) st1).
  split.
  - unfold rcu_defer_barrier_queue. mred. fold d. rewrite Hrun. reflexivity.
  - rewrite <- (app_nil_r (call_events queue items)).
    eapply queue_effect_trans; [exact Heff|].
    destruct Heff as (<- & _). apply queue_effect_put0.
Qed.

Lemma rcu_defer_barrier_thread_spec self st items :
  let d := tls_get self st in
  queue_inv d items →
  ∃ st',
    _rcu_defer_barrier_thread self st = Ok (tt, st') ∧
    queue_effect self st st'
      (set_dq_tail (dq_head d) (set_dq_last_fct_out (dq_last_fct_in d) d))
      (drain_events self d items).
Proof.
  intros d Hinv. pose proof size_bounds as Hsz.
  destruct (queue_inv_fill _ _ Hinv) as (Hfill & Hw & Henc).
  unfold _rcu_defer_barrier_thread, drain_events. mred. fold d. fold (fill d).
  destruct (fill d =? 0) eqn:Hz.
  - apply Z.eqb_eq in Hz. exists st. split; [reflexivity|].
    destruct (queue_inv_empty _ _ Hinv Hz) as (-> & Ho & Hh).
    rewrite Hh, <- Ho. unfold set_dq_tail, set_dq_last_fct_out; simpl.
    rewrite dq_eta. apply queue_effect_refl.
  - destruct (rcu_defer_barrier_queue_spec self (dq_head d)
                (add_trace [EvSynchronizeRcu] st) items (fill d) (dq_last_fct_in d))
      as (st' & Hrun & Heff); try (apply Hinv); try exact Henc; try lia.
    { destruct Hinv as (Ht & n & Hn & Hh & _). unfold fill.
      change (tls_get self (add_trace [EvSynchronizeRcu] st)) with d.
      rewrite Hh at 1. wrap_solve. }
    exists st'. split; [exact Hrun|].
    change (EvSynchronizeRcu :: call_events self items)
      with ([EvSynchronizeRcu] ++ call_events self items).
    eapply queue_effect_trans; [apply queue_effect_trace | exact Heff].
Qed.

(** ** Appending one callback to the slots in use *)

Section Append.

Variables (slots : list Z) (tl f f' : Z) (items : list (Z * Z)) (n : Z).
Hypothesis Hlen : length slots = Z.to_nat DEFER_QUEUE_SIZE.
Hypothesis Henc : encodes slots tl f items n f'.
Hypothesis Hroom : n + 3 <= DEFER_QUEUE_SIZE.

Local Abbreviation h := (wrap (tl + n)) (only parsing).

Lemma append_arg p :
  DQ_IS_FCT_BIT p = false → p ≠ DQ_FCT_MARK →
  encodes (<[slot_index h := p]> slots) tl f (items ++ [(f', p)]) (n + 1) f'.
Proof.
  intros Hb Hm. eapply encodes_app.
  - apply (encodes_insert_ahead _ _ _ _ _ _ 0);
      [exact Henc | lia | lia | wrap_solve].
  - apply single_arg; auto.
Qed.

Lemma append_fct fct p :
  DQ_IS_FCT_BIT fct = false →
  encodes (<[slot_index (wrap (h + 1)) := p]>
             (<[slot_index h := DQ_SET_FCT_BIT fct]> slots))
          tl f (items ++ [(fct, p)]) (n + 2) fct.
Proof.
  intros Hb. eapply encodes_app.
  - apply (encodes_insert_ahead _ _ _ _ _ _ 1);
      [| lia | lia | wrap_solve].
    apply (encodes_insert_ahead _ _ _ _ _ _ 0);
      [exact Henc | lia | lia | wrap_solve].
  - rewrite <- (clear_set_fct_bit fct Hb) at 2 3.
    apply single_fct; [exact Hlen | apply is_fct_bit_set].
Qed.

Lemma append_mark fct p :
  encodes (<[slot_index (wrap (wrap (h + 1) + 1)) := p]>
             (<[slot_index (wrap (h + 1)) := fct]>
                (<[slot_index h := DQ_FCT_MARK]> slots)))
          tl f (items ++ [(fct, p)]) (n + 3) fct.
Proof.
  eapply encodes_app.
  - apply (encodes_insert_ahead _ _ _ _ _ _ 2);
      [| lia | lia | wrap_solve].
    apply (encodes_insert_ahead _ _ _ _ _ _ 1);
      [| lia | lia | wrap_solve].
    apply (encodes_insert_ahead _ _ _ _ _ _ 0);
      [exact Henc | lia | lia | wrap_solve].
  - apply single_mark; auto.
Qed.

End Append.

(** ** The enqueue *)

Lemma put_put queue d1 d2 st :
  put_dq queue d2 (put_dq queue d1 st) = put_dq queue d2 st.
Proof. unfold set_tls. simpl. rewrite insert_insert_eq. reflexivity. Qed.

Lemma store_slot_put queue i v st d slots :
  dq_q d = Some slots →
  length slots = Z.to_nat DEFER_QUEUE_SIZE →
  store_slot queue (Z.land i DEFER_QUEUE_MASK) v (put_dq queue d st) =
    Ok (tt, put_dq queue (set_dq_q (Some (<[slot_index i := v]> slots)) d) st).
Proof.
  intros Hq Hl. erewrite store_slot_eval.
  - rewrite put_put, tls_get_put_eq. reflexivity.
  - rewrite tls_get_put_eq. exact Hq.
  - rewrite Hl. apply slot_index_lt.
Qed.

Lemma store_slot_first queue i v st slots :
  dq_q (tls_get queue st) = Some slots →
  length slots = Z.to_nat DEFER_QUEUE_SIZE →
  store_slot queue (Z.land i DEFER_QUEUE_MASK) v st =
    Ok (tt, put_dq queue
              (set_dq_q (Some (<[slot_index i := v]> slots)) (tls_get queue st)) st).
Proof.
  intros Hq Hl. erewrite store_slot_eval; [reflexivity | exact Hq |].
  rewrite Hl. apply slot_index_lt.
Qed.

Ltac store_step Hq Hlen :=
  first [ erewrite store_slot_put;
          [| first [reflexivity | exact Hq] | rewrite ?length_insert; exact Hlen]
        | erewrite store_slot_first; [| exact Hq | exact Hlen] ];
  cbv beta iota.

Lemma wake_up_defer_effect self st d :
  ∃ st', wake_up_defer (put_dq self d st) = Ok (tt, st') ∧
         defer_effect self st st' d [].
Proof.
  unfold wake_up_defer, defer_effect, wake_events, wake_futex, same_globals. mred.
  simpl. destruct (defer_thread_futex st =? -1) eqn:Hf.
  - eexists. split; [reflexivity|].
    split; [apply (tls_get_put_eq self d st)|].
    split; [intros t Ht; apply (tls_get_put_ne self t d st Ht)|].
    simpl. tauto.
  - eexists. split; [reflexivity|].
    split; [apply (tls_get_put_eq self d st)|].
    split; [intros t Ht; apply (tls_get_put_ne self t d st Ht)|].
    simpl. rewrite app_nil_r. tauto.
Qed.

Lemma rcu_defer_queue_fast_exact self fct p st items slots :
  let d := tls_get self st in
  let k := (enqueue_slots d fct p slots).1 in
  let slots' := (enqueue_slots d fct p slots).2 in
  queue_inv d items → dq_q d = Some slots →
  length slots = Z.to_nat DEFER_QUEUE_SIZE →
  fill d < DEFER_QUEUE_SIZE - 2 →
  ∃ st',
    _rcu_defer_queue self fct p st = Ok (tt, st') ∧
    defer_effect self st st'
      (mk_defer_queue (wrap (dq_tail d + (fill d + k))) fct (dq_tail d)
                      (dq_last_fct_out d) (Some slots')) [] ∧
    (k = 1 ∨ k = 2 ∨ k = 3) ∧
    length slots' = Z.to_nat DEFER_QUEUE_SIZE ∧
    encodes slots' (dq_tail d) (dq_last_fct_out d) (items ++ [(fct, p)]) (fill d + k) fct.
Proof.
  intros d k slots' Hinv Hq Hlen Hfast. pose proof size_bounds as Hsz.
  destruct (queue_inv_fill _ _ Hinv) as (Hfill & Hw & Henc).
  rewrite Hq in Henc. simpl in Henc.
  assert (Hh : dq_head d = wrap (dq_tail d + fill d)).
  { destruct Hinv as (Ht & _). unfold fill. wrap_solve. }
  assert (Ht : is_word (dq_tail d)) by apply Hinv.
  unfold _rcu_defer_queue.
  rewrite (bind_eval _ _ _ _ _ (load_dq_eval self st)). fold d. cbv zeta.
  fold (fill d). rewrite (wrap_id (DEFER_QUEUE_SIZE - 2)) by (unfold is_word; lia).
  rewrite (proj2 (Z.leb_gt _ _)) by lia.
  mred. fold d.
  set (n := fill d) in *.
  assert (Hfin : ∀ k0 s0,
    ∃ st',
      wake_up_defer
        (put_dq self (mk_defer_queue (wrap (dq_tail d + (n + k0))) fct (dq_tail d)
                        (dq_last_fct_out d) (Some s0)) st) = Ok (tt, st') ∧
      defer_effect self st st'
        (mk_defer_queue (wrap (dq_tail d + (n + k0))) fct (dq_tail d)
                        (dq_last_fct_out d) (Some s0)) []).
  { intros k0 s0. apply wake_up_defer_effect. }
  subst k slots'. unfold enqueue_slots.
  destruct (dq_last_fct_in d =? fct) eqn:Hlf; cbv [negb]; cbv beta iota zeta.
  - apply Z.eqb_eq in Hlf.
    destruct (DQ_IS_FCT_BIT p || (p =? DQ_FCT_MARK)) eqn:Hesc; cbv beta iota; simpl fst; simpl snd.
    + store_step Hq Hlen. store_step Hq Hlen. store_step Hq Hlen.
      rewrite tls_get_put_eq, put_put. fold d. unfold set_dq_head, set_dq_q; simpl.
      rewrite Hlf.
      replace (wrap (wrap (wrap (dq_head d + 1) + 1) + 1))
        with (wrap (dq_tail d + (n + 3))) by (rewrite Hh; wrap_solve).
      destruct (Hfin 3 (<[slot_index (wrap (wrap (dq_head d + 1) + 1)) := p]>
                          (<[slot_index (wrap (dq_head d + 1)) := fct]>
                             (<[slot_index (dq_head d) := DQ_FCT_MARK]> slots))))
        as (st' & Hrun & Heff).
      exists st'. split; [exact Hrun|]. split; [exact Heff|]. split; [lia|].
      split; [rewrite !length_insert; exact Hlen|].
      rewrite Hh. eapply append_mark; [exact Hlen | exact Henc | lia].
    + apply orb_false_iff in Hesc as [Hb Hm]. apply Z.eqb_neq in Hm.
      store_step Hq Hlen.
      rewrite tls_get_put_eq, put_put. fold d. unfold set_dq_head, set_dq_q; simpl.
      rewrite Hlf.
      replace (wrap (dq_head d + 1))
        with (wrap (dq_tail d + (n + 1))) by (rewrite Hh; wrap_solve).
      destruct (Hfin 1 (<[slot_index (dq_head d) := p]> slots)) as (st' & Hrun & Heff).
      exists st'. split; [exact Hrun|]. split; [exact Heff|]. split; [lia|].
      split; [rewrite !length_insert; exact Hlen|].
      rewrite Hh, <- Hlf.
      eapply append_arg; [exact Hlen | exact Henc | lia | exact Hb | exact Hm].
  - destruct (DQ_IS_FCT_BIT fct || (fct =? DQ_FCT_MARK)) eqn:Hesc; cbv beta iota; simpl fst; simpl snd.
    + store_step Hq Hlen. store_step Hq Hlen. store_step Hq Hlen.
      rewrite tls_get_put_eq, put_put. fold d.
      unfold set_dq_head, set_dq_q, set_dq_last_fct_in; simpl.
      replace (wrap (wrap (wrap (dq_head d + 1) + 1) + 1))
        with (wrap (dq_tail d + (n + 3))) by (rewrite Hh; wrap_solve).
      destruct (Hfin 3 (<[slot_index (wrap (wrap (dq_head d + 1) + 1)) := p]>
                          (<[slot_index (wrap (dq_head d + 1)) := fct]>
                             (<[slot_index (dq_head d) := DQ_FCT_MARK]> slots))))
        as (st' & Hrun & Heff).
      exists st'. split; [exact Hrun|]. split; [exact Heff|]. split; [lia|].
      split; [rewrite !length_insert; exact Hlen|].
      rewrite Hh. eapply append_mark; [exact Hlen | exact Henc | lia].
    + apply orb_false_iff in Hesc as [Hb Hm].
      store_step Hq Hlen. store_step Hq Hlen.
      rewrite tls_get_put_eq, put_put. fold d.
      unfold set_dq_head, set_dq_q, set_dq_last_fct_in; simpl.
      replace (wrap (wrap (dq_head d + 1) + 1))
        with (wrap (dq_tail d + (n + 2))) by (rewrite Hh; wrap_solve).
      destruct (Hfin 2 (<[slot_index (wrap (dq_head d + 1)) := p]>
                          (<[slot_index (dq_head d) := DQ_SET_FCT_BIT fct]> slots)))
        as (st' & Hrun & Heff).
      exists st'. split; [exact Hrun|]. split; [exact Heff|]. split; [lia|].
      split; [rewrite !length_insert; exact Hlen|].
      rewrite Hh. eapply append_fct; [exact Hlen | exact Henc | lia | exact Hb].
Qed.

Lemma rcu_defer_queue_fast self fct p st items :
  let d := tls_get self st in
  queue_inv d items → has_buffer d → fill d < DEFER_QUEUE_SIZE - 2 →
  ∃ st' d',
    _rcu_defer_queue self fct p st = Ok (tt, st') ∧
    defer_effect self st st' d' [] ∧
    queue_inv d' (items ++ [(fct, p)]) ∧ has_buffer d' ∧
    dq_tail d' = dq_tail d ∧ dq_last_fct_out d' = dq_last_fct_out d ∧
    dq_last_fct_in d' = fct ∧
    fill d < fill d' <= fill d + 3.
Proof.
  intros d Hinv (slots & Hq & Hlen) Hfast. pose proof size_bounds as Hsz.
  destruct (queue_inv_fill _ _ Hinv) as (Hfill & _ & _).
  assert (Ht : is_word (dq_tail d)) by apply Hinv.
  destruct (rcu_defer_queue_fast_exact self fct p st items slots Hinv Hq Hlen Hfast)
    as (st' & Hrun & Heff & Hk & Hlen' & Henc').
  fold d in Heff, Hk, Hlen', Henc'.
  set (k := (enqueue_slots d fct p slots).1) in *.
  set (slots' := (enqueue_slots d fct p slots).2) in *.
  exists st'. eexists. split; [exact Hrun|]. split; [exact Heff|].
  split; [|split; [|split; [|split; [|split]]]]; try reflexivity.
  - split; [exact Ht|]. exists (fill d + k). simpl. split; [lia|]. split; [reflexivity|].
    exact Henc'.
  - exists slots'. split; [reflexivity | exact Hlen'].
  - match goal with
    | |- _ < fill ?x <= _ => assert (Hf : fill x = fill d + k)
    end.
    { unfold fill at 1. simpl. apply wrap_add_sub; [exact Ht | lia]. }
    rewrite Hf. lia.
Qed.

Lemma queue_inv_drained d items :
  queue_inv d items →
  queue_inv (set_dq_tail (dq_head d) (set_dq_last_fct_out (dq_last_fct_in d) d)) [].
Proof.
  intros Hinv. destruct (queue_inv_fill _ _ Hinv) as (_ & Hw & _).
  pose proof size_bounds. split; [exact Hw|]. exists 0. simpl.
  split; [lia|]. split; [|constructor].
  rewrite Z.add_0_r, wrap_id; auto.
Qed.

(** On the backpressure path both assertions hold, and the enqueue goes on
    as on an empty queue. *)
Lemma rcu_defer_queue_slow self fct p st items :
  let d := tls_get self st in
  queue_inv d items → DEFER_QUEUE_SIZE - 2 <= fill d →
  ∃ st1,
    _rcu_defer_barrier_thread self st = Ok (tt, st1) ∧
    queue_effect self st st1
      (set_dq_tail (dq_head d) (set_dq_last_fct_out (dq_last_fct_in d) d))
      (EvSynchronizeRcu :: call_events self items) ∧
    _rcu_defer_queue self fct p st = _rcu_defer_queue self fct p st1.
Proof.
  intros d Hinv Hslow. pose proof size_bounds as Hsz.
  destruct (queue_inv_fill _ _ Hinv) as (Hfill & Hw & _).
  destruct (rcu_defer_barrier_thread_spec self st items Hinv) as (st1 & Hrun & Heff).
  fold d in Heff. unfold drain_events in Heff.
  rewrite (proj2 (Z.eqb_neq _ _)) in Heff by lia.
  exists st1. split; [exact Hrun|]. split; [exact Heff|].
  destruct Heff as (Hd1 & _).
  assert (Hhead1 : dq_head (tls_get self st1) = dq_head d) by (rewrite Hd1; reflexivity).
  assert (Htail1 : dq_tail (tls_get self st1) = dq_head d) by (rewrite Hd1; reflexivity).
  symmetry. unfold _rcu_defer_queue at 1.
  rewrite (bind_eval _ _ _ _ _ (load_dq_eval self st1)). cbv zeta.
  rewrite Hhead1, Htail1, wrap_sub_self.
  rewrite (wrap_id (DEFER_QUEUE_SIZE - 2)) by (unfold is_word; lia).
  rewrite (proj2 (Z.leb_gt _ _)) by lia.
  erewrite (bind_eval (mret tt)) by reflexivity.
  symmetry. unfold _rcu_defer_queue at 1.
  rewrite (bind_eval _ _ _ _ _ (load_dq_eval self st)). fold d. cbv zeta.
  fold (fill d). rewrite (wrap_id (DEFER_QUEUE_SIZE - 2)) by (unfold is_word; lia).
  rewrite (wrap_id DEFER_QUEUE_SIZE) by (unfold is_word; lia).
  rewrite (proj2 (Z.leb_le _ _)) by lia.
  rewrite (proj2 (Z.leb_le (fill d) _)) by lia.
  unfold rcu_defer_barrier_thread, assert.
  erewrite (bind_eval (_ ≫= _)); [reflexivity|].
  erewrite bind_eval; [|reflexivity].
  erewrite bind_eval; [|exact Hrun].
  erewrite bind_eval; [|apply load_dq_eval].
  rewrite Htail1, wrap_sub_self. reflexivity.
Qed.

Lemma defer_effect_after self st st1 st' d1 d' evs :
  queue_effect self st st1 d1 evs →
  defer_effect self st1 st' d' [] →
  defer_effect self st st' d' evs.
Proof.
  unfold queue_effect, defer_effect, same_globals, wake_futex, wake_events.
  intros (H1 & H2 & (H3 & H4 & H5 & H6) & H7 & H8) (K1 & K2 & (K3 & K4 & K5 & K6) & K7 & K8).
  split; [exact K1|]. split.
  { intros t Ht. rewrite K2, H2 by exact Ht. reflexivity. }
  rewrite K3, K4, K5, K6, K7, K8, H7, H8, <- !app_assoc. simpl. tauto.
Qed.

(** [_rcu_defer_queue] on a queue that satisfies the invariant. *)
Lemma rcu_defer_queue_spec self fct p st items :
  let d := tls_get self st in
  let slow := DEFER_QUEUE_SIZE - 2 <=? fill d in
  queue_inv d items → has_buffer d →
  ∃ st' d',
    _rcu_defer_queue self fct p st = Ok (tt, st') ∧
    defer_effect self st st' d'
      (if slow then EvSynchronizeRcu :: call_events self items else []) ∧
    queue_inv d' ((if slow then [] else items) ++ [(fct, p)]) ∧
    has_buffer d' ∧
    dq_tail d' = (if slow then dq_head d else dq_tail d) ∧
    dq_last_fct_in d' = fct ∧
    (if slow then 0 else fill d) < fill d' <= (if slow then 0 else fill d) + 3.
Proof.
  intros d slow Hinv Hbuf. pose proof size_bounds as Hsz. subst slow.
  destruct (DEFER_QUEUE_SIZE - 2 <=? fill d) eqn:Hc.
  - apply Z.leb_le in Hc.
    destruct (rcu_defer_queue_slow self fct p st items Hinv Hc)
      as (st1 & _ & Heff & ->).
    fold d in Heff. pose proof Heff as (Hd1 & _).
    destruct (rcu_defer_queue_fast self fct p st1 []) as (st' & d' & Hrun & He & Hi & Hb & Ht & _ & Hl & Hf).
    + rewrite Hd1. apply (queue_inv_drained _ _ Hinv).
    + rewrite Hd1. exact Hbuf.
    + rewrite Hd1. unfold fill. simpl. rewrite wrap_sub_self. lia.
    + rewrite Hd1 in Ht, Hf.
      assert (Hz : fill (set_dq_tail (dq_head d)
                           (set_dq_last_fct_out (dq_last_fct_in d) d)) = 0)
        by (unfold fill; simpl; apply wrap_sub_self).
      rewrite Hz in Hf. simpl in Ht.
      exists st', d'. split; [exact Hrun|]. split; [|tauto].
      eapply defer_effect_after; eauto.
  - apply Z.leb_gt in Hc.
    destruct (rcu_defer_queue_fast self fct p st items Hinv Hbuf Hc)
      as (st' & d' & Hrun & He & Hi & Hb & Ht & _ & Hl & Hf).
    exists st', d'. tauto.
Qed.

(** ** The registry *)

Lemma load_entry_eval k st arr e :
  registry st = Some arr → arr !! k = Some e → load_entry k st = Ok (e, st).
Proof. intros Hr He. unfold load_entry. mred. rewrite Hr, He. reflexivity. Qed.

Lemma store_entry_eval k e st arr :
  registry st = Some arr → (k < length arr)%nat →
  store_entry k e st = Ok (tt, set_registry (Some (<[k := e]> arr)) st).
Proof.
  intros Hr Hk. unfold store_entry. mred. rewrite Hr.
  destruct (decide _); [reflexivity | contradiction].
Qed.

(** The rule of the loop over the entries in use. *)
Lemma fold_index_seq {A} (I : nat → A → state → Prop) (body : nat → A → M A) n :
  ∀ i acc st,
    I i acc st →
    (∀ k a s, (i ≤ k < i + n)%nat → I k a s →
              ∃ a' s', body k a s = Ok (a', s') ∧ I (S k) a' s') →
    ∃ a' s', fold_index (seq i n) body acc st = Ok (a', s') ∧ I (i + n)%nat a' s'.
Proof.
  induction n as [|n IH]; intros i acc st Hi Hbody; simpl.
  - exists acc, st. rewrite Nat.add_0_r. split; [reflexivity | exact Hi].
  - destruct (Hbody i acc st ltac:(lia) Hi) as (a1 & s1 & Hrun & Hi1).
    destruct (IH (S i) a1 s1 Hi1) as (a' & s' & Hrun' & Hi').
    { intros k a s Hk. apply Hbody. lia. }
    exists a', s'. split.
    + erewrite bind_eval; [exact Hrun' | exact Hrun].
    + replace (i + S n)%nat with (S i + n)%nat by lia. exact Hi'.
Qed.

Lemma for_each_deferer_eval {A} (body : nat → A → M A) acc st :
  for_each_deferer body acc st =
  fold_index (seq 0 (Z.to_nat (num_deferers st))) body acc st.
Proof. reflexivity. Qed.

Lemma total_fill_app st es1 es2 :
  total_fill st (es1 ++ es2) = total_fill st es1 + total_fill st es2.
Proof. unfold total_fill. induction es1; simpl; lia. Qed.

Lemma total_fill_bounds st es :
  (∀ t, 0 <= fill (tls_get t st) <= DEFER_QUEUE_SIZE) →
  0 <= total_fill st es <= DEFER_QUEUE_SIZE * Z.of_nat (length es).
Proof.
  intros Hf. induction es as [|e es IH]; simpl; [lia|].
  specialize (Hf (tid e)). nia.
Qed.

Lemma total_fill_zero st es :
  (∀ t, 0 <= fill (tls_get t st)) →
  total_fill st es = 0 → ∀ e, e ∈ es → fill (tls_get (tid e) st) = 0.
Proof.
  intros Hf. induction es as [|e0 es IH]; simpl; intros H0 e He.
  - inversion He.
  - assert (0 <= total_fill st es).
    { clear -Hf. induction es; simpl; [lia|]. specialize (Hf (tid a)). lia. }
    pose proof (Hf (tid e0)).
    apply elem_of_cons in He as [-> | He]; [lia|]. apply IH; [lia | exact He].
Qed.

Lemma live_entries_lookup st arr k e :
  registry st = Some arr → (k < Z.to_nat (num_deferers st))%nat →
  arr !! k = Some e → live_entries st !! k = Some e.
Proof.
  intros Hr Hk He. unfold live_entries. rewrite Hr. simpl.
  rewrite lookup_take_lt by exact Hk. exact He.
Qed.

Lemma live_entries_length st :
  registry_ok st → length (live_entries st) = Z.to_nat (num_deferers st).
Proof.
  intros (Hr & _). unfold live_entries. rewrite length_take.
  destruct (registry st) as [arr|]; simpl in *; lia.
Qed.

Lemma set_registry_same st arr : registry st = Some arr → set_registry (Some arr) st = st.
Proof. destruct st; simpl; intros ->; reflexivity. Qed.

Lemma snapshot_array_step st k arr e :
  arr !! k = Some e →
  <[k := snapshot st e]> (snapshot_array st k arr) = snapshot_array st (S k) arr.
Proof.
  intros He. unfold snapshot_array.
  pose proof (lookup_lt_Some _ _ _ He) as Hk.
  rewrite (take_S_r _ _ _ He), fmap_app, <- app_assoc. simpl.
  rewrite (drop_S _ _ _ He).
  rewrite insert_app_r_alt by (rewrite length_fmap, length_take; lia).
  rewrite length_fmap, length_take.
  replace (k - k `min` length arr)%nat with 0%nat by lia. reflexivity.
Qed.

Lemma snapshot_array_lookup st k arr :
  snapshot_array st k arr !! k = arr !! k.
Proof.
  unfold snapshot_array. destruct (decide (k < length arr)%nat).
  - rewrite lookup_app_r by (rewrite length_fmap, length_take; lia).
    rewrite length_fmap, length_take, lookup_drop. f_equal. lia.
  - rewrite !lookup_ge_None_2; auto; try lia.
    rewrite length_app, length_fmap, length_take, length_drop. lia.
Qed.

Lemma snapshot_array_length st k arr : length (snapshot_array st k arr) = length arr.
Proof.
  unfold snapshot_array.
  rewrite length_app, length_fmap, length_take, length_drop. lia.
Qed.

Lemma registry_ok_entry st arr k e :
  registry_ok st → registry st = Some arr →
  (k < Z.to_nat (num_deferers st))%nat → arr !! k = Some e →
  dr_defer_queue e = Some (tid e).
Proof.
  intros (_ & _ & Hf) Hr Hk He.
  rewrite Forall_lookup in Hf. apply (Hf k).
  eapply live_entries_lookup; eauto.
Qed.

Lemma registry_ok_lookup st arr k :
  registry_ok st → registry st = Some arr →
  (k < Z.to_nat (num_deferers st))%nat → ∃ e, arr !! k = Some e.
Proof.
  intros (Hr & _) Harr Hk. rewrite Harr in Hr.
  apply lookup_lt_is_Some. lia.
Qed.

(** The first pass of [rcu_defer_barrier]: it records the heads and adds
    up the fills. *)
Lemma snapshot_pass st arr :
  registry_ok st → registry st = Some arr →
  for_each_deferer (λ index num_items,
      e ← load_entry index;
      queue ← deref_queue e;
      d ← load_dq queue;
      let e := set_last_head (dq_head d) e in
      store_entry index e;;
      mret (wrap (num_items + wrap (last_head e - dq_tail d)))) 0 st =
  Ok (wrap (total_fill st (live_entries st)),
      set_registry (Some (snapshot_array st (Z.to_nat (num_deferers st)) arr)) st).
Proof.
  intros Hok Hr. rewrite for_each_deferer_eval.
  set (n := Z.to_nat (num_deferers st)).
  match goal with
  | |- fold_index _ ?body _ _ = _ =>
      destruct (fold_index_seq
        (λ k acc s, s = set_registry (Some (snapshot_array st k arr)) st ∧
                    acc = wrap (total_fill st (take k arr))) body n 0%nat 0 st)
        as (a' & s' & Hrun & -> & ->)
  end.
  - split; [|reflexivity]. unfold snapshot_array. rewrite take_0, drop_0. simpl.
    symmetry. apply set_registry_same. exact Hr.
  - intros k a s Hk (-> & ->).
    destruct (registry_ok_lookup st arr k Hok Hr ltac:(lia)) as (e & He).
    pose proof (registry_ok_entry st arr k e Hok Hr ltac:(lia) He) as Hq.
    eexists _, _. split.
    + erewrite bind_eval;
        [|eapply load_entry_eval; [reflexivity | rewrite snapshot_array_lookup; exact He]].
      unfold deref_queue. rewrite Hq.
      mred. erewrite store_entry_eval;
        [|reflexivity | rewrite snapshot_array_length; apply (lookup_lt_Some _ _ _ He)].
      reflexivity.
    + split.
      * simpl. unfold set_registry. simpl. do 2 f_equal.
        apply (snapshot_array_step st k arr e He).
      * rewrite (take_S_r _ _ _ He), total_fill_app. simpl. unfold fill.
        change (tls_get (tid e) (set_registry (Some (snapshot_array st k arr)) st))
          with (tls_get (tid e) st).
        wrap_solve.
  - fold n. rewrite Hrun. unfold live_entries. rewrite Hr. reflexivity.
Qed.

Lemma grace_periods_app tr1 tr2 :
  grace_periods (tr1 ++ tr2) = (grace_periods tr1 + grace_periods tr2)%nat.
Proof. unfold grace_periods. rewrite filter_app, length_app. reflexivity. Qed.

Lemma grace_periods_call_events queue items :
  grace_periods (call_events queue items) = 0%nat.
Proof.
  unfold grace_periods, call_events. induction items as [|c items IH]; simpl; [reflexivity|].
  rewrite filter_cons_False by discriminate. exact IH.
Qed.

Lemma live_entries_same st st' :
  registry st' = registry st → num_deferers st' = num_deferers st →
  live_entries st' = live_entries st.
Proof. intros Hr Hn. unfold live_entries. rewrite Hr, Hn. reflexivity. Qed.

Lemma registered_same st st' t :
  live_entries st' = live_entries st → registered t st' ↔ registered t st.
Proof. intros H. unfold registered. rewrite H. reflexivity. Qed.

Lemma live_tid_inj st j k e e' :
  registry_ok st →
  live_entries st !! j = Some e → live_entries st !! k = Some e' →
  tid e = tid e' → j = k.
Proof.
  intros (_ & Hnd & _) Hj Hk Heq.
  eapply (NoDup_lookup _ j k (tid e) Hnd).
  - rewrite list_lookup_fmap, Hj. reflexivity.
  - rewrite list_lookup_fmap, Hk. simpl. congruence.
Qed.

(** The drain of one queue up to its head keeps the invariant of the
    queues and empties that queue. *)
Lemma drain_queue_ok cs st queue :
  queues_ok cs st →
  ∃ st',
    rcu_defer_barrier_queue queue (dq_head (tls_get queue st)) st = Ok (tt, st') ∧
    same_globals st st' ∧
    defer_thread_futex st' = defer_thread_futex st ∧
    queues_ok cs st' ∧
    fill (tls_get queue st') = 0 ∧
    (∀ t, dq_head (tls_get t st') = dq_head (tls_get t st)) ∧
    (∀ t, t ≠ queue → tls_get t st' = tls_get t st) ∧
    ∃ evs, trace st' = trace st ++ evs ∧ grace_periods evs = 0%nat.
Proof.
  intros Hq. set (d := tls_get queue st).
  destruct (Hq queue) as (items & Hinv & Hcalls & Hbuf & Hnone). fold d in Hinv, Hbuf, Hnone.
  destruct (queue_inv_fill _ _ Hinv) as (Hfill & Hw & Henc).
  pose proof size_bounds as Hsz.
  destruct (rcu_defer_barrier_queue_spec queue (dq_head d) st items
              (fill d) (dq_last_fct_in d)) as (st' & Hrun & Heff);
    try (apply Hinv); try exact Henc; try lia.
  { destruct Hinv as (Ht & _). fold d. unfold fill. wrap_solve. }
  fold d in Heff. destruct Heff as (Hd' & Hoth & Hglob & Hfut & Htr).
  pose proof Hglob as (Hreg & Hnum & _).
  pose proof (live_entries_same st st' Hreg Hnum) as Hlive.
  exists st'. split; [exact Hrun|]. split; [exact Hglob|]. split; [exact Hfut|].
  split; [|split; [|split; [|split]]].
  - intros t. destruct (decide (t = queue)) as [-> | Hne].
    + exists []. rewrite Hd', (registered_same _ _ _ Hlive). split; [|split; [|split]].
      * apply (queue_inv_drained _ _ Hinv).
      * rewrite Htr, calls_app, calls_call_events, app_nil_r. exact Hcalls.
      * exact Hbuf.
      * exact Hnone.
    + destruct (Hq t) as (its & Hi & Hc & Hb & Hn).
      exists its. rewrite (Hoth t Hne), (registered_same _ _ _ Hlive).
      split; [exact Hi|]. split; [|split; assumption].
      rewrite Htr, calls_app, calls_call_events_ne, app_nil_r by congruence. exact Hc.
  - rewrite Hd'. unfold fill. simpl. apply wrap_sub_self.
  - intros t. destruct (decide (t = queue)) as [-> | Hne].
    + rewrite Hd'. reflexivity.
    + rewrite (Hoth t Hne). reflexivity.
  - exact Hoth.
  - exists (call_events queue items). split; [exact Htr|].
    apply grace_periods_call_events.
Qed.

(** The second pass of [rcu_defer_barrier]. *)
Lemma drain_pass cs st arr :
  registry_ok st → registry st = Some arr → queues_ok cs st →
  (∀ e, e ∈ live_entries st → last_head e = dq_head (tls_get (tid e) st)) →
  ∃ st',
    for_each_deferer (λ index _,
        e ← load_entry index;
        queue ← deref_queue e;
        rcu_defer_barrier_queue queue (last_head e)) tt st = Ok (tt, st') ∧
    same_globals st st' ∧
    defer_thread_futex st' = defer_thread_futex st ∧
    queues_ok cs st' ∧
    (∀ e, e ∈ live_entries st → fill (tls_get (tid e) st') = 0) ∧
    (∀ t, dq_head (tls_get t st') = dq_head (tls_get t st)) ∧
    ∃ evs, trace st' = trace st ++ evs ∧ grace_periods evs = 0%nat.
Proof.
  intros Hok Hr Hq Hsnap. rewrite for_each_deferer_eval.
  set (n := Z.to_nat (num_deferers st)). set (live := live_entries st).
  match goal with
  | |- ∃ st', fold_index _ ?body _ _ = _ ∧ _ =>
      destruct (fold_index_seq
        (λ k (_ : unit) s,
           same_globals st s ∧
           defer_thread_futex s = defer_thread_futex st ∧
           queues_ok cs s ∧
           (∀ j e, (j < k)%nat → live !! j = Some e → fill (tls_get (tid e) s) = 0) ∧
           (∀ j e, (k ≤ j)%nat → live !! j = Some e →
                   tls_get (tid e) s = tls_get (tid e) st) ∧
           (∀ t, dq_head (tls_get t s) = dq_head (tls_get t st)) ∧
           ∃ evs, trace s = trace st ++ evs ∧ grace_periods evs = 0%nat)
        body n 0%nat tt st)
        as ([] & st' & Hrun & Hglob & Hfut & Hq' & Hdone & _ & Hheads & Hevs)
  end.
  - split; [unfold same_globals; tauto|]. split; [reflexivity|]. split; [exact Hq|].
    split; [intros; lia|]. split; [reflexivity|]. split; [reflexivity|].
    exists []. rewrite app_nil_r. split; reflexivity.
  - intros k [] s Hk ((Hreg & Hnum & Hall & Hwk) & Hfut & Hqs & Hdone & Hrest & Hhd & evs & Htr & Hgp).
    destruct (registry_ok_lookup st arr k Hok Hr ltac:(lia)) as (e & He).
    pose proof (registry_ok_entry st arr k e Hok Hr ltac:(lia) He) as Hptr.
    pose proof (live_entries_lookup st arr k e Hr ltac:(lia) He) as Hlk. fold live in Hlk.
    assert (Hhead : last_head e = dq_head (tls_get (tid e) s)).
    { rewrite (Hrest k e (le_n _) Hlk). apply Hsnap. eapply list_elem_of_lookup_2. exact Hlk. }
    destruct (drain_queue_ok cs s (tid e) Hqs)
      as (s' & Hrun & (Hreg' & Hnum' & Hall' & Hwk') & Hfut' & Hqs' & Hz & Hhd' & Hoth & evs' & Htr' & Hgp').
    exists tt, s'. split.
    + erewrite bind_eval; [|eapply load_entry_eval; [rewrite Hreg; exact Hr | exact He]].
      unfold deref_queue. rewrite Hptr. erewrite bind_eval; [|reflexivity].
      rewrite Hhead. exact Hrun.
    + split; [unfold same_globals; intuition congruence|].
      split; [congruence|]. split; [exact Hqs'|].
      split; [|split; [|split]].
      * intros j e' Hj Hlj. destruct (decide (j = k)) as [-> | Hne].
        { assert (e' = e) as -> by congruence. exact Hz. }
        rewrite Hoth; [apply (Hdone j); [lia | exact Hlj]|].
        intros Heq. apply Hne. eapply (live_tid_inj st); eauto.
      * intros j e' Hj Hlj. rewrite Hoth; [apply (Hrest j); [lia | exact Hlj]|].
        intros Heq. assert (j = k) by (eapply (live_tid_inj st); eauto). lia.
      * intros t. rewrite Hhd'. apply Hhd.
      * exists (evs ++ evs'). rewrite Htr', Htr, app_assoc. split; [reflexivity|].
        rewrite grace_periods_app, Hgp, Hgp'. reflexivity.
  - exists st'. split; [exact Hrun|]. split; [exact Hglob|]. split; [exact Hfut|].
    split; [exact Hq'|]. split; [|split; [exact Hheads | exact Hevs]].
    intros e He. apply list_elem_of_lookup in He as (j & Hj).
    apply (Hdone j); [|exact Hj].
    apply lookup_lt_Some in Hj. fold live in Hj.
    unfold live in Hj. rewrite (live_entries_length st Hok) in Hj. simpl. exact Hj.
Qed.

Lemma queues_ok_transfer cs st st' :
  (∀ t, tls_get t st' = tls_get t st) →
  (∀ t, calls t (trace st') = calls t (trace st)) →
  (∀ t, registered t st' ↔ registered t st) →
  queues_ok cs st → queues_ok cs st'.
Proof.
  intros Htls Htr Hreg Hq t. destruct (Hq t) as (items & Hi & Hc & Hb & Hn).
  exists items. rewrite Htls, Htr, Hreg. tauto.
Qed.

Lemma registered_tids st st' t :
  tid <$> live_entries st' = tid <$> live_entries st →
  registered t st' ↔ registered t st.
Proof. intros H. unfold registered. rewrite H. reflexivity. Qed.

Lemma live_snapshot st arr :
  registry_ok st → registry st = Some arr →
  live_entries (set_registry (Some (snapshot_array st (Z.to_nat (num_deferers st)) arr)) st)
  = snapshot st <$> live_entries st.
Proof.
  intros (Hok & _) Hr. rewrite Hr in Hok. unfold live_entries. rewrite Hr. simpl.
  unfold snapshot_array. apply take_app_length'.
  rewrite length_fmap, length_take. lia.
Qed.

Lemma snapshot_registry_ok st arr :
  registry_ok st → registry st = Some arr →
  registry_ok (set_registry (Some (snapshot_array st (Z.to_nat (num_deferers st)) arr)) st).
Proof.
  intros Hok Hr. pose proof (live_snapshot st arr Hok Hr) as Hlive.
  destruct Hok as (Hshape & Hnd & Hptr). rewrite Hr in Hshape.
  unfold registry_ok. rewrite Hlive. split; [|split].
  - simpl. rewrite snapshot_array_length. exact Hshape.
  - rewrite <- list_fmap_compose. exact Hnd.
  - apply Forall_fmap. eapply Forall_impl; [exact Hptr|]. intros e He. exact He.
Qed.

Lemma queues_ok_fill cs st t :
  queues_ok cs st → 0 <= fill (tls_get t st) <= DEFER_QUEUE_SIZE.
Proof.
  intros Hq. destruct (Hq t) as (items & Hi & _).
  apply (queue_inv_fill _ _ Hi).
Qed.

(** With at most [INT_MAX] queues of at most [2^32] slots the sum of the
    fills does not wrap. *)
Lemma total_fill_word cs st :
  registry_ok st → queues_ok cs st →
  wrap (total_fill st (live_entries st)) = total_fill st (live_entries st).
Proof.
  intros Hok Hq. apply wrap_id.
  pose proof (total_fill_bounds st (live_entries st) (λ t, queues_ok_fill cs st t Hq)) as Hb.
  rewrite (live_entries_length st Hok) in Hb.
  destruct Hok as (Hshape & _). unfold is_word, word_modulus, word_bits.
  assert (0 <= num_deferers st <= INT_MAX).
  { destruct (registry st); [lia | rewrite Hshape; unfold INT_MAX; lia]. }
  unfold INT_MAX in *. pose proof size_bounds. nia.
Qed.

(** [rcu_defer_barrier]: every registered queue is drained up to the head
    it had at the call, after one grace period; nothing is done, and no
    grace period is waited for, when all the queues are empty. *)
Lemma rcu_defer_barrier_spec cs st :
  registry_ok st → queues_ok cs st →
  ∃ st',
    rcu_defer_barrier st = Ok (tt, st') ∧
    registry_ok st' ∧ queues_ok cs st' ∧
    tid <$> live_entries st' = tid <$> live_entries st ∧
    num_deferers st' = num_deferers st ∧
    alloc_deferers st' = alloc_deferers st ∧
    workers st' = workers st ∧
    defer_thread_futex st' = defer_thread_futex st ∧
    (∀ t, registered t st → fill (tls_get t st') = 0) ∧
    (∀ t, dq_head (tls_get t st') = dq_head (tls_get t st)) ∧
    ∃ evs, trace st' = trace st ++ evs ∧
           (total_fill st (live_entries st) = 0 → evs = []) ∧
           (total_fill st (live_entries st) ≠ 0 → grace_periods evs = 1%nat).
Proof.
  intros Hok Hq. unfold rcu_defer_barrier.
  erewrite bind_eval; [|reflexivity].
  destruct (registry st) as [arr|] eqn:Hr.
  - set (s1 := set_registry (Some (snapshot_array st (Z.to_nat (num_deferers st)) arr)) st).
    pose proof (snapshot_registry_ok st arr Hok Hr) as Hok1. fold s1 in Hok1.
    pose proof (live_snapshot st arr Hok Hr) as Hlive1. fold s1 in Hlive1.
    assert (Htids : tid <$> live_entries s1 = tid <$> live_entries st).
    { rewrite Hlive1, <- list_fmap_compose. reflexivity. }
    assert (Hq1 : queues_ok cs s1).
    { eapply queues_ok_transfer; [| | |exact Hq]; try reflexivity.
      intros t. apply registered_tids. exact Htids. }
    erewrite bind_eval; [|apply snapshot_pass; [exact Hok | exact Hr]].
    fold s1. rewrite (total_fill_word cs st Hok Hq).
    destruct (total_fill st (live_entries st) =? 0) eqn:Hz.
    + apply Z.eqb_eq in Hz. exists s1. split; [reflexivity|].
      split; [exact Hok1|]. split; [exact Hq1|]. split; [exact Htids|].
      do 4 (split; [reflexivity|]). split; [|split].
      * intros t Ht. unfold registered in Ht.
        apply list_elem_of_fmap in Ht as (e & -> & He).
        apply (total_fill_zero st (live_entries st)); try assumption.
        intros t. apply (queues_ok_fill cs st t Hq).
      * reflexivity.
      * exists []. simpl. rewrite app_nil_r. split; [reflexivity|]. split; [reflexivity|].
        intros Hne. contradiction.
    + apply Z.eqb_neq in Hz.
      set (s2 := add_trace [EvSynchronizeRcu] s1).
      assert (Hok2 : registry_ok s2) by exact Hok1.
      assert (Hq2 : queues_ok cs s2).
      { eapply queues_ok_transfer; [| | |exact Hq1]; try reflexivity.
        intros t. simpl. rewrite calls_app. simpl. rewrite app_nil_r. reflexivity. }
      destruct (drain_pass cs s2 _ Hok2 eq_refl Hq2)
        as (st' & Hrun & (Hreg' & Hnum' & Hall' & Hwk') & Hfut' & Hq' & Hdone & Hheads & evs & Htr & Hgp).
      { intros e He. change (live_entries s2) with (live_entries s1) in He.
        rewrite Hlive1 in He. apply list_elem_of_fmap in He as (e0 & -> & He0).
        reflexivity. }
      pose proof (live_entries_same s2 st' Hreg' Hnum') as Hlive'.
      change (live_entries s2) with (live_entries s1) in Hlive'.
      exists st'. split.
      { erewrite bind_eval; [|reflexivity]. exact Hrun. }
      split.
      { unfold registry_ok. rewrite Hlive'. unfold registry_ok in Hok1.
        rewrite Hreg', Hnum', Hall'. exact Hok1. }
      split; [exact Hq'|]. split; [rewrite Hlive'; exact Htids|].
      split; [exact Hnum'|]. split; [exact Hall'|]. split; [exact Hwk'|].
      split; [exact Hfut'|]. split; [|split].
      * intros t Ht. unfold registered in Ht. rewrite <- Htids in Ht.
        apply list_elem_of_fmap in Ht as (e & -> & He). apply Hdone. exact He.
      * exact Hheads.
      * exists (EvSynchronizeRcu :: evs). split.
        { rewrite Htr. simpl. rewrite <- app_assoc. reflexivity. }
        split; [intros; contradiction|]. intros _.
        change (EvSynchronizeRcu :: evs) with ([EvSynchronizeRcu] ++ evs).
        rewrite grace_periods_app, Hgp. reflexivity.
  - exists st. split; [reflexivity|]. split; [exact Hok|]. split; [exact Hq|].
    do 5 (split; [reflexivity|]). split; [|split].
    + intros t Ht. unfold registered, live_entries in Ht. rewrite Hr in Ht.
      simpl in Ht. rewrite take_nil in Ht. inversion Ht.
    + reflexivity.
    + exists []. rewrite app_nil_r. split; [reflexivity|]. split; [reflexivity|].
      intros Hne. exfalso. apply Hne. unfold live_entries. rewrite Hr. simpl.
      rewrite take_nil. reflexivity.
Qed.

(** ** Adding and removing a deferer *)

Lemma take_insert_snoc {A} (l : list A) n x :
  (n < length l)%nat → take (S n) (<[n := x]> l) = take n l ++ [x].
Proof.
  intros Hn. rewrite (take_S_r _ _ x) by (apply list_lookup_insert_eq; exact Hn).
  rewrite take_insert_ge by lia. reflexivity.
Qed.

Lemma rcu_add_deferer_spec self id st g :
  registry_ok st → num_deferers st < 2 ^ 30 →
  ∃ st' arr',
    rcu_add_deferer self id (Some g) st = Ok (tt, st') ∧
    registry st' = Some arr' ∧
    length arr' = Z.to_nat (alloc_deferers st') ∧
    alloc_deferers st' = grown_capacity st ∧
    INIT_NUM_THREADS <= alloc_deferers st' <= INT_MAX ∧
    num_deferers st' = num_deferers st + 1 ∧
    num_deferers st' <= alloc_deferers st' ∧
    live_entries st' = live_entries st ++ [new_entry self id] ∧
    tls st' = tls st ∧ workers st' = workers st ∧
    defer_thread_futex st' = defer_thread_futex st ∧
    trace st' = trace st ++ [EvRegistryAdd id].
Proof.
  intros (Hshape & _ & _) Hnum. unfold rcu_add_deferer, grown_capacity, live_entries.
  mred. unfold INT_MAX, INIT_NUM_THREADS in *.
  destruct (registry st) as [arr|] eqn:Hr.
  - destruct Hshape as (Hn & Ha & Hl).
    rewrite (proj2 (Z.ltb_ge _ _)) by lia.
    destruct (alloc_deferers st <? num_deferers st + 1) eqn:Hgrow.
    + apply Z.ltb_lt in Hgrow.
      rewrite (proj2 (Z.ltb_ge _ _)) by lia.
      unfold malloc. rewrite Hr.
      set (new := resize (Z.to_nat (alloc_deferers st * 2)) zero_entry g).
      change (resize (Z.to_nat (alloc_deferers st * 2)) zero_entry <$> Some g)
        with (Some new). cbv beta iota.
      assert (Hlen : length (take (Z.to_nat (alloc_deferers st)) arr ++
                             drop (Z.to_nat (alloc_deferers st)) new)
                     = Z.to_nat (alloc_deferers st * 2)).
      { rewrite length_app, length_take, length_drop. unfold new.
        rewrite length_resize. lia. }
      erewrite store_entry_eval; [|reflexivity|simpl; rewrite Hlen; lia].
      eexists _, _. split; [reflexivity|]. simpl.
      split; [reflexivity|]. split; [rewrite length_insert; exact Hlen|].
      split; [reflexivity|]. split; [lia|]. split; [reflexivity|]. split; [lia|].
      split; [|repeat split].
      replace (Z.to_nat (num_deferers st + 1)) with (S (Z.to_nat (num_deferers st))) by lia.
      rewrite take_insert_snoc by (rewrite Hlen; lia).
      rewrite take_app_le by (rewrite length_take; lia).
      rewrite take_take. f_equal. f_equal. lia.
    + apply Z.ltb_ge in Hgrow.
      erewrite store_entry_eval; [|exact Hr|lia].
      eexists _, _. split; [reflexivity|]. simpl.
      split; [reflexivity|]. split; [rewrite length_insert; exact Hl|].
      split; [reflexivity|]. split; [lia|]. split; [reflexivity|]. split; [lia|].
      split; [|repeat split].
      replace (Z.to_nat (num_deferers st + 1)) with (S (Z.to_nat (num_deferers st))) by lia.
      rewrite take_insert_snoc by lia. reflexivity.
  - unfold malloc.
    change (resize (Z.to_nat 4) zero_entry <$> Some g)
      with (Some (resize (Z.to_nat 4) zero_entry g)). cbv beta iota.
    cbn [num_deferers alloc_deferers set_registry set_num_deferers set_alloc_deferers].
    rewrite (proj2 (Z.ltb_ge _ _)) by lia.
    rewrite (proj2 (Z.ltb_ge _ _)) by lia.
    erewrite store_entry_eval; [|reflexivity|simpl; rewrite length_resize; lia].
    eexists _, _. split; [reflexivity|]. simpl.
    split; [reflexivity|]. split; [rewrite length_insert, length_resize; reflexivity|].
    split; [reflexivity|]. split; [lia|]. split; [lia|]. split; [lia|].
    split; [|repeat split].
    rewrite take_nil. change (Z.to_nat (0 + 1)) with (S (Z.to_nat 0)).
    rewrite take_insert_snoc by (rewrite length_resize; simpl; lia).
    reflexivity.
Qed.

Lemma swap_remove_perm {A} (l : list A) lst k e :
  l !! k = Some e → last l = Some lst →
  take (length l - 1) (<[k := lst]> l) ≡ₚ delete k l.
Proof.
  intros Hk Hl. apply last_Some in Hl as (l' & ->).
  pose proof (lookup_lt_Some _ _ _ Hk) as Hlt. rewrite length_app in Hlt. simpl in Hlt.
  rewrite length_app. simpl. replace (length l' + 1 - 1)%nat with (length l') by lia.
  rewrite delete_take_drop.
  destruct (decide (k = length l')) as [-> | Hne].
  - rewrite insert_app_r_alt by lia. rewrite take_app_length.
    rewrite drop_ge by (rewrite length_app; simpl; lia).
    rewrite take_app_length, app_nil_r. reflexivity.
  - rewrite insert_app_l by lia.
    rewrite take_app_length' by (rewrite length_insert; reflexivity).
    rewrite insert_take_drop by lia.
    rewrite take_app_le, drop_app_le by lia.
    apply Permutation_app_head. apply Permutation_cons_append.
Qed.

Lemma swap_remove_tids k live e :
  live !! k = Some e →
  tid <$> swap_remove k live ≡ₚ delete k (tid <$> live).
Proof.
  intros Hk. pose proof (lookup_lt_Some _ _ _ Hk) as Hlt.
  destruct (last live) as [lst|] eqn:Hlast.
  - unfold swap_remove. rewrite Hlast. simpl.
    rewrite fmap_take, list_fmap_insert.
    rewrite <- (length_fmap tid live).
    eapply swap_remove_perm.
    + rewrite list_lookup_fmap, Hk. reflexivity.
    + rewrite fmap_last, Hlast. reflexivity.
  - apply last_None in Hlast. subst live. inversion Hk.
Qed.

Lemma swap_remove_elem k live e x :
  live !! k = Some e → x ∈ swap_remove k live → x ∈ live.
Proof.
  intros Hk Hx. unfold swap_remove in Hx.
  apply elem_of_take in Hx as (j & Hj & _).
  destruct (decide (j = k)) as [-> | Hne].
  - rewrite list_lookup_insert_eq in Hj by (eapply lookup_lt_Some; eauto).
    inversion Hj; subst. destruct (last live) eqn:Hl; simpl.
    + apply last_Some_elem_of. exact Hl.
    + apply last_None in Hl. subst. inversion Hk.
  - rewrite list_lookup_insert_ne in Hj by congruence.
    eapply list_elem_of_lookup_2; eauto.
Qed.

Lemma remove_deferer_loop_found id st arr k e lst m :
  registry st = Some arr →
  arr !! k = Some e → tid e = id →
  arr !! Z.to_nat (num_deferers st - 1) = Some lst →
  ∀ i, (i ≤ k < i + m)%nat →
  (∀ j ej, (i ≤ j < k)%nat → arr !! j = Some ej → tid ej ≠ id) →
  remove_deferer_loop (seq i m) id st =
    Ok (tt, set_num_deferers (num_deferers st - 1)
              (add_trace [EvRegistryRemove id]
                 (set_registry
                    (Some (<[Z.to_nat (num_deferers st - 1) := zero_entry]>
                             (<[k := lst]> arr))) st))).
Proof.
  intros Hr Hk Hid Hlst. induction m as [|m IH]; intros i Hi Hbefore; [lia|].
  simpl. destruct (decide (i = k)) as [-> | Hne].
  - erewrite bind_eval; [|eapply load_entry_eval; eauto].
    rewrite Hid, Z.eqb_refl. mred.
    erewrite (load_entry_eval _ st); [|exact Hr | exact Hlst].
    erewrite (store_entry_eval _ _ st); [|exact Hr | eapply lookup_lt_Some; eauto].
    erewrite store_entry_eval; [reflexivity | reflexivity |].
    rewrite length_insert. eapply lookup_lt_Some; eauto.
  - assert (Hi' : (i < k)%nat) by lia.
    destruct (lookup_lt_is_Some_2 arr i) as (ei & Hei).
    { apply lookup_lt_Some in Hk. lia. }
    erewrite bind_eval; [|eapply load_entry_eval; eauto].
    rewrite (proj2 (Z.eqb_neq _ _)) by (eapply Hbefore; eauto; lia).
    apply IH; [lia|]. intros j ej Hj. apply Hbefore. lia.
Qed.

Lemma remove_deferer_loop_not_found id st arr m :
  registry st = Some arr →
  ∀ i, (∀ j, (i ≤ j < i + m)%nat → ∃ e, arr !! j = Some e ∧ tid e ≠ id) →
  remove_deferer_loop (seq i m) id st = Fail AssertFailed.
Proof.
  intros Hr. induction m as [|m IH]; intros i Hall; [reflexivity|].
  simpl. destruct (Hall i ltac:(lia)) as (e & He & Hne).
  erewrite bind_eval; [|eapply load_entry_eval; eauto].
  rewrite (proj2 (Z.eqb_neq _ _)) by exact Hne.
  apply IH. intros j Hj. apply Hall. lia.
Qed.

Lemma take_insert_take {A} (l : list A) m n k x :
  (m ≤ n)%nat → take m (<[k := x]> l) = take m (<[k := x]> (take n l)).
Proof.
  intros Hmn. destruct (decide (k < m)%nat).
  - rewrite !take_insert_lt by lia. rewrite take_take.
    replace (m `min` n)%nat with m by lia. reflexivity.
  - rewrite !take_insert_ge by lia. rewrite take_take.
    replace (m `min` n)%nat with m by lia. reflexivity.
Qed.

Lemma registered_lookup id st :
  registered id st → ∃ k e, live_entries st !! k = Some e ∧ tid e = id.
Proof.
  unfold registered. intros H. apply list_elem_of_fmap in H as (e & -> & He).
  apply list_elem_of_lookup in He as (k & Hk). eauto.
Qed.

Lemma live_entries_lookup_inv st k e :
  live_entries st !! k = Some e →
  ∃ arr, registry st = Some arr ∧ arr !! k = Some e ∧
         (k < Z.to_nat (num_deferers st))%nat.
Proof.
  unfold live_entries. intros H. destruct (registry st) as [arr|]; simpl in H.
  - apply lookup_take_Some in H as (Hk & Hlt). eauto.
  - rewrite take_nil in H. inversion H.
Qed.

Lemma rcu_remove_deferer_spec id st :
  registry_ok st → registered id st →
  ∃ st' k e arr',
    live_entries st !! k = Some e ∧ tid e = id ∧
    rcu_remove_deferer id st = Ok (tt, st') ∧
    registry st' = Some arr' ∧
    length arr' = Z.to_nat (alloc_deferers st) ∧
    live_entries st' = swap_remove k (live_entries st) ∧
    num_deferers st' = num_deferers st - 1 ∧
    alloc_deferers st' = alloc_deferers st ∧
    tls st' = tls st ∧ workers st' = workers st ∧
    defer_thread_futex st' = defer_thread_futex st ∧
    trace st' = trace st ++ [EvRegistryRemove id].
Proof.
  intros Hok Hreg. destruct (registered_lookup id st Hreg) as (k & e & Hk & Hid).
  destruct (live_entries_lookup_inv st k e Hk) as (arr & Hr & Hak & Hlt).
  pose proof Hok as (Hshape & _). rewrite Hr in Hshape.
  destruct Hshape as (Hn & Ha & Hl).
  set (n := Z.to_nat (num_deferers st)) in *.
  assert (Hn1 : Z.to_nat (num_deferers st - 1) = (n - 1)%nat) by lia.
  destruct (lookup_lt_is_Some_2 arr (n - 1)%nat) as (lst & Hlst); [lia|].
  assert (Hlast : last (live_entries st) = Some lst).
  { rewrite last_lookup, (live_entries_length st Hok). fold n.
    replace (pred n) with (n - 1)%nat by lia.
    eapply live_entries_lookup; eauto. lia. }
  eexists _, k, e, _. split; [exact Hk|]. split; [exact Hid|]. split.
  { unfold rcu_remove_deferer. mred. rewrite Hr.
    rewrite bool_decide_eq_true_2 by discriminate. simpl assert. cbv beta iota.
    unfold assert. mred. fold n.
    apply (remove_deferer_loop_found id st arr k e lst n Hr Hak Hid);
      [rewrite Hn1; exact Hlst | lia |].
    intros j ej Hj Hej Heq.
    assert (j = k); [|lia].
    eapply (live_tid_inj st j k ej e Hok); eauto; [|congruence].
    eapply live_entries_lookup; eauto. lia. }
  simpl. split; [reflexivity|].
  split; [rewrite !length_insert; exact Hl|].
  split; [|repeat split].
  unfold live_entries at 1. simpl. rewrite Hn1.
  rewrite take_insert_ge by lia.
  unfold swap_remove. rewrite Hlast. simpl.
  rewrite (live_entries_length st Hok). fold n.
  unfold live_entries. rewrite Hr. simpl. fold n.
  apply take_insert_take. lia.
Qed.

Lemma rcu_remove_deferer_not_found id st :
  registry_ok st → ¬ registered id st →
  rcu_remove_deferer id st = Fail AssertFailed.
Proof.
  intros Hok Hnot. unfold rcu_remove_deferer. mred.
  destruct (registry st) as [arr|] eqn:Hr.
  - rewrite bool_decide_eq_true_2 by discriminate. unfold assert. mred.
    apply (remove_deferer_loop_not_found id st arr _ Hr). intros j Hj.
    destruct (registry_ok_lookup st arr j Hok Hr ltac:(lia)) as (e & He).
    exists e. split; [exact He|]. intros Heq. apply Hnot.
    unfold registered. apply list_elem_of_fmap. exists e. split; [congruence|].
    eapply list_elem_of_lookup_2. eapply live_entries_lookup; eauto. lia.
  - rewrite bool_decide_eq_false_2 by (intros H; apply H; reflexivity). reflexivity.
Qed.

(** ** The reclamation thread's wait *)

Lemma rcu_defer_num_callbacks_spec st :
  registry_ok st →
  rcu_defer_num_callbacks st = Ok (wrap (total_fill st (live_entries st)), st).
Proof.
  intros Hok. unfold rcu_defer_num_callbacks. rewrite for_each_deferer_eval.
  set (n := Z.to_nat (num_deferers st)).
  destruct (registry st) as [arr|] eqn:Hr.
  - match goal with
    | |- fold_index _ ?body _ _ = _ =>
        destruct (fold_index_seq
          (λ k acc s, s = st ∧ acc = wrap (total_fill st (take k arr)))
          body n 0%nat 0 st) as (a' & s' & Hrun & -> & ->)
    end.
    + split; reflexivity.
    + intros k a s Hk (-> & ->).
      destruct (registry_ok_lookup st arr k Hok Hr ltac:(lia)) as (e & He).
      pose proof (registry_ok_entry st arr k e Hok Hr ltac:(lia) He) as Hq.
      eexists _, _. split.
      * erewrite bind_eval; [|eapply load_entry_eval; eauto].
        unfold deref_queue. rewrite Hq. mred. reflexivity.
      * split; [reflexivity|].
        rewrite (take_S_r _ _ _ He), total_fill_app. simpl. unfold fill. wrap_solve.
    + rewrite Hrun. unfold live_entries. rewrite Hr. reflexivity.
  - destruct Hok as (Hz & _). rewrite Hr in Hz. subst n. rewrite Hz. simpl.
    unfold live_entries. rewrite Hr. simpl. rewrite take_nil. reflexivity.
Qed.

Lemma wait_defer_spec st :
  registry_ok st →
  ∃ st' evs,
    wait_defer st = Ok (tt, st') ∧
    tls st' = tls st ∧ registry st' = registry st ∧
    num_deferers st' = num_deferers st ∧ alloc_deferers st' = alloc_deferers st ∧
    workers st' = workers st ∧
    trace st' = trace st ++ evs ∧ (evs = [] ∨ evs = [EvFutexWait]).
Proof.
  intros Hok. unfold wait_defer. mred.
  rewrite (rcu_defer_num_callbacks_spec (set_futex (defer_thread_futex st - 1) st))
    by exact Hok.
  cbv beta iota.
  destruct (negb _).
  - eexists _, []. split; [reflexivity|]. simpl. rewrite app_nil_r. tauto.
  - simpl. destruct (defer_thread_futex st - 1 =? -1).
    + eexists _, [EvFutexWait]. split; [reflexivity|]. simpl. tauto.
    + eexists _, []. split; [reflexivity|]. simpl. rewrite app_nil_r. tauto.
Qed.

(** ** Registration and unregistration *)

Lemma wake_up_defer_eval st :
  ∃ st',
    wake_up_defer st = Ok (tt, st') ∧
    tls st' = tls st ∧ registry st' = registry st ∧
    num_deferers st' = num_deferers st ∧ alloc_deferers st' = alloc_deferers st ∧
    workers st' = workers st ∧
    defer_thread_futex st' = wake_futex st ∧
    trace st' = trace st ++ wake_events st.
Proof.
  unfold wake_up_defer, wake_futex, wake_events. mred.
  destruct (defer_thread_futex st =? -1).
  - eexists. split; [reflexivity|]. simpl. tauto.
  - eexists. split; [reflexivity|]. simpl. rewrite app_nil_r. tauto.
Qed.

Lemma stop_defer_thread_spec st w :
  workers st = S w →
  ∃ st',
    stop_defer_thread st = Ok (tt, st') ∧
    tls st' = tls st ∧ registry st' = registry st ∧
    num_deferers st' = num_deferers st ∧ alloc_deferers st' = alloc_deferers st ∧
    workers st' = w ∧
    defer_thread_futex st' = wake_futex st ∧
    trace st' = trace st ++ stop_events st.
Proof.
  intros Hw. unfold stop_defer_thread, stop_events.
  destruct (wake_up_defer_eval (add_trace [EvPthreadCancel] st))
    as (s1 & Hrun & Htls & Hreg & Hnum & Hall & Hwk & Hfut & Htr).
  unfold wake_futex, wake_events in *. simpl in Htls, Hreg, Hnum, Hall, Hwk, Hfut, Htr.
  erewrite bind_eval; [|reflexivity].
  erewrite bind_eval; [|exact Hrun].
  mred. rewrite Hwk, Hw.
  eexists. split; [reflexivity|]. simpl.
  rewrite Htls, Hreg, Hnum, Hall, Hfut, Htr. simpl. rewrite <- !app_assoc.
  repeat split.
Qed.

(** [rcu_defer_register_thread] when the registry allocation, if any,
    succeeds; the queue buffer is whatever its allocation returns. *)
Lemma rcu_defer_register_thread_spec self qmem rg st :
  registry_ok st → num_deferers st < 2 ^ 30 →
  ∃ st' arr',
    rcu_defer_register_thread self qmem (Some rg) st = Ok (tt, st') ∧
    registry st' = Some arr' ∧
    length arr' = Z.to_nat (alloc_deferers st') ∧
    alloc_deferers st' = grown_capacity st ∧
    INIT_NUM_THREADS <= alloc_deferers st' <= INT_MAX ∧
    num_deferers st' = num_deferers st + 1 ∧
    num_deferers st' <= alloc_deferers st' ∧
    live_entries st' = live_entries st ++ [new_entry self self] ∧
    tls_get self st' =
      set_dq_q (malloc (Z.to_nat DEFER_QUEUE_SIZE) 0 qmem) (tls_get self st) ∧
    (∀ t, t ≠ self → tls_get t st' = tls_get t st) ∧
    workers st' = (if num_deferers st =? 0 then S (workers st) else workers st) ∧
    defer_thread_futex st' = defer_thread_futex st ∧
    trace st' = trace st ++ [EvRegistryAdd self] ++
                (if num_deferers st =? 0 then [EvPthreadCreate] else []).
Proof.
  intros Hok Hnum. unfold rcu_defer_register_thread.
  set (d' := set_dq_q (malloc (Z.to_nat DEFER_QUEUE_SIZE) 0 qmem) (tls_get self st)).
  set (s1 := put_dq self d' st).
  destruct (rcu_add_deferer_spec self self s1 rg Hok Hnum)
    as (s2 & arr' & Hrun & Hreg & Hlen & Hcap & Hcapb & Hn & Hna & Hlive & Htls & Hwk & Hfut & Htr).
  erewrite bind_eval; [|apply update_dq_eval]. fold d' s1.
  erewrite bind_eval; [|exact Hrun].
  mred. rewrite Hn. change (num_deferers s1) with (num_deferers st) in *.
  assert (Hget : ∀ t, tls_get t s2 = tls_get t s1).
  { intros t. unfold tls_get. rewrite Htls. reflexivity. }
  replace (num_deferers st + 1 =? 1) with (num_deferers st =? 0)
    by (destruct (Z.eqb_spec (num_deferers st) 0), (Z.eqb_spec (num_deferers st + 1) 1);
        try reflexivity; lia).
  assert (Hself : tls_get self s2 = d').
  { rewrite Hget. apply tls_get_put_eq. }
  assert (Hoth : ∀ t, t ≠ self → tls_get t s2 = tls_get t st).
  { intros t Ht. rewrite Hget. apply (tls_get_put_ne self t d' st Ht). }
  destruct (num_deferers st =? 0) eqn:Hz.
  - unfold start_defer_thread. mred.
    eexists _, arr'. split; [reflexivity|].
    split; [exact Hreg|]. split; [exact Hlen|]. split; [exact Hcap|].
    split; [exact Hcapb|]. split; [exact Hn|]. split; [exact Hna|].
    split; [exact Hlive|]. split; [exact Hself|]. split; [exact Hoth|].
    split; [simpl; rewrite Hwk; reflexivity|]. split; [exact Hfut|].
    simpl. rewrite Htr, <- app_assoc. reflexivity.
  - cbv beta iota. exists s2, arr'. split; [reflexivity|].
    split; [exact Hreg|]. split; [exact Hlen|]. split; [exact Hcap|].
    split; [exact Hcapb|]. split; [exact Hn|]. split; [exact Hna|].
    split; [exact Hlive|]. split; [exact Hself|]. split; [exact Hoth|].
    split; [exact Hwk|]. split; [exact Hfut|].
    rewrite Htr. reflexivity.
Qed.

Lemma rcu_defer_unregister_thread_spec self st items w :
  registry_ok st → registered self st →
  queue_inv (tls_get self st) items → workers st = S w →
  ∃ st' k e arr',
    live_entries st !! k = Some e ∧ tid e = self ∧
    rcu_defer_unregister_thread self st = Ok (tt, st') ∧
    registry st' = Some arr' ∧
    length arr' = Z.to_nat (alloc_deferers st) ∧
    live_entries st' = swap_remove k (live_entries st) ∧
    num_deferers st' = num_deferers st - 1 ∧
    alloc_deferers st' = alloc_deferers st ∧
    tls_get self st' = unregistered_queue (tls_get self st) ∧
    (∀ t, t ≠ self → tls_get t st' = tls_get t st) ∧
    workers st' = (if num_deferers st =? 1 then w else S w) ∧
    defer_thread_futex st' =
      (if num_deferers st =? 1 then wake_futex st else defer_thread_futex st) ∧
    trace st' = trace st ++ [EvRegistryRemove self] ++
                drain_events self (tls_get self st) items ++ [EvFreeQueue self] ++
                (if num_deferers st =? 1 then stop_events st else []).
Proof.
  intros Hok Hreg Hinv Hw. set (d := tls_get self st) in *.
  destruct (rcu_remove_deferer_spec self st Hok Hreg)
    as (s1 & k & e & arr' & Hk & Hid & Hrun1 & Hreg1 & Hlen1 & Hlive1 & Hnum1 & Hall1
        & Htls1 & Hwk1 & Hfut1 & Htr1).
  assert (Hget1 : ∀ t, tls_get t s1 = tls_get t st).
  { intros t. unfold tls_get. rewrite Htls1. reflexivity. }
  destruct (rcu_defer_barrier_thread_spec self s1 items) as (s2 & Hrun2 & Heff2).
  { rewrite Hget1. exact Hinv. }
  rewrite Hget1 in Heff2. fold d in Heff2.
  destruct Heff2 as (Hd2 & Hoth2 & (Hreg2 & Hnum2 & Hall2 & Hwk2) & Hfut2 & Htr2).
  set (s3 := put_dq self (set_dq_q None (tls_get self s2)) (add_trace [EvFreeQueue self] s2)).
  assert (Hself3 : tls_get self s3 = unregistered_queue d).
  { unfold s3. rewrite tls_get_put_eq, Hd2. reflexivity. }
  assert (Hoth3 : ∀ t, t ≠ self → tls_get t s3 = tls_get t st).
  { intros t Ht. unfold s3.
    rewrite (tls_get_put_ne self t _ (add_trace [EvFreeQueue self] s2) Ht).
    change (tls_get t (add_trace [EvFreeQueue self] s2)) with (tls_get t s2).
    rewrite Hoth2, Hget1 by exact Ht. reflexivity. }
  assert (Htr3 : trace s3 = trace st ++ [EvRegistryRemove self] ++
                              drain_events self d items ++ [EvFreeQueue self]).
  { simpl. rewrite Htr2, Htr1, <- !app_assoc. reflexivity. }
  assert (Hlive3 : live_entries s3 = swap_remove k (live_entries st)).
  { rewrite <- Hlive1. apply live_entries_same; simpl; congruence. }
  unfold rcu_defer_unregister_thread.
  assert (Hsplit : ∀ k : Z → M unit,
    (rcu_remove_deferer self;; _rcu_defer_barrier_thread self;;
     emit (EvFreeQueue self);; update_dq self (set_dq_q None);;
     deferers ← gets num_deferers; k deferers) st = k (num_deferers st - 1) s3).
  { intros k0. erewrite bind_eval; [|exact Hrun1]. erewrite bind_eval; [|exact Hrun2].
    mred. simpl. rewrite Hnum2, Hnum1. reflexivity. }
  rewrite Hsplit.
  replace (num_deferers st - 1 =? 0) with (num_deferers st =? 1)
    by (destruct (Z.eqb_spec (num_deferers st) 1), (Z.eqb_spec (num_deferers st - 1) 0);
        try reflexivity; lia).
  destruct (num_deferers st =? 1) eqn:Hone.
  - destruct (stop_defer_thread_spec s3 w) as (s4 & Hrun4 & Htls4 & Hreg4 & Hnum4 & Hall4
                                                & Hwk4 & Hfut4 & Htr4).
    { simpl. congruence. }
    assert (Hget4 : ∀ t, tls_get t s4 = tls_get t s3).
    { intros t. unfold tls_get. rewrite Htls4. reflexivity. }
    exists s4, k, e, arr'. split; [exact Hk|]. split; [exact Hid|].
    split; [exact Hrun4|].
    split; [rewrite Hreg4; simpl; congruence|]. split; [exact Hlen1|].
    split; [rewrite <- Hlive3; apply live_entries_same; assumption|].
    split; [rewrite Hnum4; simpl; congruence|].
    split; [rewrite Hall4; simpl; congruence|].
    split; [rewrite Hget4; exact Hself3|].
    split; [intros t Ht; rewrite Hget4; apply Hoth3; exact Ht|].
    split; [exact Hwk4|].
    split.
    { rewrite Hfut4. unfold wake_futex. simpl. rewrite Hfut2, Hfut1. reflexivity. }
    rewrite Htr4, Htr3. unfold stop_events, wake_events. simpl defer_thread_futex.
    rewrite Hfut2, Hfut1, <- !app_assoc. reflexivity.
  - exists s3, k, e, arr'. split; [exact Hk|]. split; [exact Hid|].
    split; [reflexivity|].
    split; [simpl; congruence|]. split; [exact Hlen1|]. split; [exact Hlive3|].
    split; [simpl; congruence|]. split; [simpl; congruence|].
    split; [exact Hself3|]. split; [exact Hoth3|].
    split; [simpl; congruence|]. split; [simpl; congruence|].
    rewrite Htr3, app_nil_r. reflexivity.
Qed.

(** ** The invariant of the system along a schedule *)

Lemma deferred_snoc t cs c : deferred t (cs ++ [c]) = deferred t cs ++ deferred_by t c.
Proof.
  unfold deferred. rewrite omap_app. f_equal. simpl.
  destruct c; simpl; try reflexivity. destruct (decide _); reflexivity.
Qed.

Lemma queues_ok_step cs c st st' t items' :
  queues_ok cs st →
  (∀ t', t' ≠ t → tls_get t' st' = tls_get t' st) →
  (∀ t', t' ≠ t → registered t' st' ↔ registered t' st) →
  (∀ t', t' ≠ t → calls t' (trace st') = calls t' (trace st)) →
  (∀ t', t' ≠ t → deferred_by t' c = []) →
  queue_inv (tls_get t st') items' →
  calls t (trace st') ++ items' = deferred t (cs ++ [c]) →
  (registered t st' → has_buffer (tls_get t st')) →
  (¬ registered t st' → dq_q (tls_get t st') = None) →
  queues_ok (cs ++ [c]) st'.
Proof.
  intros Hq Htls Hreg Hcalls Hdef Hinv Hhist Hbuf Hnone t'.
  destruct (decide (t' = t)) as [-> | Hne].
  - exists items'. tauto.
  - destruct (Hq t') as (items & Hi & Hc & Hb & Hn). exists items.
    rewrite (Htls t' Hne), (Hreg t' Hne), (Hcalls t' Hne), deferred_snoc,
      (Hdef t' Hne), app_nil_r. tauto.
Qed.

Lemma registry_ok_same st st' :
  same_globals st st' → registry_ok st → registry_ok st'.
Proof.
  intros (Hr & Hn & Ha & _) Hok. unfold registry_ok.
  rewrite (live_entries_same st st' Hr Hn), Hr, Hn, Ha. exact Hok.
Qed.

Lemma worker_ok_same st st' :
  same_globals st st' → worker_ok st → worker_ok st'.
Proof. intros (_ & Hn & _ & Hw) Hok. unfold worker_ok. rewrite Hn, Hw. exact Hok. Qed.

Lemma calls_sync t tr : calls t (EvSynchronizeRcu :: tr) = calls t tr.
Proof. reflexivity. Qed.

Lemma calls_wake_events t st : calls t (wake_events st) = [].
Proof. unfold wake_events. destruct (_ =? _); reflexivity. Qed.

Lemma calls_drain_events t self d items :
  calls t (drain_events self d items) =
  if decide (self = t) then (if fill d =? 0 then [] else items) else [].
Proof.
  unfold drain_events. destruct (fill d =? 0).
  - destruct (decide _); reflexivity.
  - change (EvSynchronizeRcu :: call_events self items)
      with ([EvSynchronizeRcu] ++ call_events self items).
    rewrite calls_app. simpl. destruct (decide (self = t)) as [-> | Hne].
    + apply calls_call_events.
    + apply calls_call_events_ne. exact Hne.
Qed.

Lemma step_defer cs st t fct p :
  sys_inv cs st → registered t st →
  ∃ st', _rcu_defer_queue t fct p st = Ok (tt, st') ∧
         sys_inv (cs ++ [Defer t fct p]) st'.
Proof.
  intros (Hok & Hq & Hw) Hreg.
  destruct (Hq t) as (items & Hinv & Hhist & Hbuf & _).
  destruct (rcu_defer_queue_spec t fct p st items Hinv (Hbuf Hreg))
    as (st' & d' & Hrun & (Hd' & Hoth & Hglob & Hfut & Htr) & Hinv' & Hbuf' & _).
  pose proof Hglob as (Hr & Hn & _).
  pose proof (live_entries_same st st' Hr Hn) as Hlive.
  exists st'. split; [exact Hrun|]. split; [|split].
  - eapply registry_ok_same; eauto.
  - eapply (queues_ok_step cs _ st st' t); try exact Hq; try exact Hoth.
    + intros t' _. apply registered_same. exact Hlive.
    + intros t' Hne. rewrite Htr, !calls_app, calls_wake_events, app_nil_r.
      destruct (_ <=? _); [|apply app_nil_r].
      rewrite calls_sync, calls_call_events_ne by congruence. apply app_nil_r.
    + intros t' Hne. simpl. destruct (decide (t = t')); [congruence | reflexivity].
    + rewrite Hd'. exact Hinv'.
    + rewrite Htr, !calls_app, calls_wake_events, app_nil_r, deferred_snoc. simpl.
      destruct (decide (t = t)); [|congruence]. rewrite <- Hhist.
      destruct (_ <=? _).
      * rewrite calls_sync, calls_call_events. simpl. rewrite <- ?app_assoc. reflexivity.
      * rewrite ?app_nil_r. simpl. rewrite <- ?app_assoc. reflexivity.
    + intros _. rewrite Hd'. exact Hbuf'.
    + intros Hnot. exfalso. apply Hnot. apply (registered_same _ _ _ Hlive). exact Hreg.
  - eapply worker_ok_same; eauto.
Qed.

Lemma step_barrier_thread cs st t :
  sys_inv cs st →
  ∃ st', rcu_defer_barrier_thread t st = Ok (tt, st') ∧
         sys_inv (cs ++ [BarrierThread t]) st'.
Proof.
  intros (Hok & Hq & Hw).
  destruct (Hq t) as (items & Hinv & Hhist & Hbuf & Hnone).
  destruct (rcu_defer_barrier_thread_spec t st items Hinv)
    as (st' & Hrun & (Hd' & Hoth & Hglob & Hfut & Htr)).
  pose proof Hglob as (Hr & Hn & _).
  pose proof (live_entries_same st st' Hr Hn) as Hlive.
  exists st'. split; [exact Hrun|]. split; [|split].
  - eapply registry_ok_same; eauto.
  - eapply (queues_ok_step cs _ st st' t _ Hq Hoth).
    + intros t' _. apply registered_same. exact Hlive.
    + intros t' Hne. rewrite Htr, calls_app, calls_drain_events.
      destruct (decide (t = t')); [congruence|]. apply app_nil_r.
    + intros t' Hne. reflexivity.
    + rewrite Hd'. apply (queue_inv_drained _ _ Hinv).
    + rewrite Htr, calls_app, calls_drain_events, deferred_snoc. simpl.
      destruct (decide (t = t)); [|congruence]. rewrite !app_nil_r, <- Hhist.
      destruct (fill (tls_get t st) =? 0) eqn:Hz; [|reflexivity].
      apply Z.eqb_eq in Hz. destruct (queue_inv_empty _ _ Hinv Hz) as (-> & _).
      reflexivity.
    + rewrite Hd', (registered_same _ _ _ Hlive). exact Hbuf.
    + rewrite Hd', (registered_same _ _ _ Hlive). exact Hnone.
  - eapply worker_ok_same; eauto.
Qed.

Lemma queues_ok_snoc_other cs c st :
  (∀ t, deferred_by t c = []) → queues_ok cs st → queues_ok (cs ++ [c]) st.
Proof.
  intros Hdef Hq t. destruct (Hq t) as (items & Hi & Hc & Hb & Hn).
  exists items. rewrite deferred_snoc, Hdef, app_nil_r. tauto.
Qed.

Lemma step_barrier cs st :
  sys_inv cs st →
  ∃ st', rcu_defer_barrier st = Ok (tt, st') ∧ sys_inv (cs ++ [Barrier]) st'.
Proof.
  intros (Hok & Hq & Hw).
  destruct (rcu_defer_barrier_spec cs st Hok Hq)
    as (st' & Hrun & Hok' & Hq' & _ & Hn & _ & Hwk & _).
  exists st'. split; [exact Hrun|]. split; [exact Hok'|]. split.
  - apply queues_ok_snoc_other; [reflexivity | exact Hq'].
  - unfold worker_ok. rewrite Hn, Hwk. exact Hw.
Qed.

Lemma step_wait_defer cs st :
  sys_inv cs st →
  ∃ st', wait_defer st = Ok (tt, st') ∧ sys_inv (cs ++ [WaitDefer]) st'.
Proof.
  intros (Hok & Hq & Hw).
  destruct (wait_defer_spec st Hok) as (st' & evs & Hrun & Htls & Hr & Hn & Ha & Hwk & Htr & Hevs).
  pose proof (live_entries_same st st' Hr Hn) as Hlive.
  exists st'. split; [exact Hrun|]. split; [|split].
  - unfold registry_ok. rewrite Hlive, Hr, Hn, Ha. exact Hok.
  - apply queues_ok_snoc_other; [reflexivity|].
    eapply queues_ok_transfer; [| | |exact Hq].
    + intros t. unfold tls_get. rewrite Htls. reflexivity.
    + intros t. rewrite Htr, calls_app.
      destruct Hevs as [-> | ->]; simpl; apply app_nil_r.
    + intros t. apply registered_same. exact Hlive.
  - unfold worker_ok. rewrite Hn, Hwk. exact Hw.
Qed.

Lemma registry_ok_num st : registry_ok st → 0 <= num_deferers st.
Proof. intros (Hs & _). destruct (registry st); lia. Qed.

Lemma registered_num st t : registry_ok st → registered t st → 1 <= num_deferers st.
Proof.
  intros Hok Hr. destruct (registered_lookup t st Hr) as (k & e & Hk & _).
  apply lookup_lt_Some in Hk. rewrite (live_entries_length st Hok) in Hk. lia.
Qed.

Lemma queue_inv_no_buffer d items :
  queue_inv d items → dq_q d = None →
  items = [] ∧ dq_head d = dq_tail d ∧ dq_last_fct_in d = dq_last_fct_out d.
Proof.
  intros (Ht & n & Hn & Hh & Henc) Hq. rewrite Hq in Henc. simpl in Henc.
  apply encodes_empty in Henc as (-> & -> & ->).
  rewrite Z.add_0_r, wrap_id in Hh by exact Ht. auto.
Qed.

Lemma queue_inv_nil d :
  is_word (dq_tail d) → dq_head d = dq_tail d →
  dq_last_fct_in d = dq_last_fct_out d → queue_inv d [].
Proof.
  intros Ht Hh Hl. pose proof size_bounds. split; [exact Ht|]. exists 0.
  split; [lia|]. split; [rewrite Z.add_0_r, wrap_id; auto|].
  rewrite Hl. constructor.
Qed.

Lemma step_register cs st t qg rg :
  sys_inv cs st → ¬ registered t st → num_deferers st < 2 ^ 30 →
  ∃ st', rcu_defer_register_thread t (Some qg) (Some rg) st = Ok (tt, st') ∧
         sys_inv (cs ++ [Register t (Some qg) (Some rg)]) st'.
Proof.
  intros (Hok & Hq & Hw) Hnot Hnum.
  destruct (rcu_defer_register_thread_spec t (Some qg) rg st Hok Hnum)
    as (st' & arr' & Hrun & Hreg & Hlen & Hcap & Hcapb & Hn & Hna & Hlive & Hself & Hoth
        & Hwk & Hfut & Htr).
  pose proof (registry_ok_num st Hok) as Hn0.
  destruct Hok as (Hshape & Hnd & Hptr).
  assert (Hcalls : ∀ t', calls t' (trace st') = calls t' (trace st)).
  { intros t'. rewrite Htr, !calls_app. destruct (_ =? _); simpl; apply app_nil_r. }
  assert (Hregd : ∀ t', registered t' st' ↔ registered t' st ∨ t' = t).
  { intros t'. unfold registered. rewrite Hlive, fmap_app, elem_of_app. simpl.
    rewrite list_elem_of_singleton. reflexivity. }
  exists st'. split; [exact Hrun|]. split; [|split].
  - unfold registry_ok. rewrite Hreg, Hlive, fmap_app. split; [|split].
    + split; [lia|]. split; [exact Hcapb | exact Hlen].
    + apply NoDup_app. split; [exact Hnd|]. split; [|apply NoDup_singleton].
      intros x Hx Hx'. simpl in Hx'. apply list_elem_of_singleton in Hx'. subst x.
      apply Hnot. exact Hx.
    + apply Forall_app. split; [exact Hptr|]. apply Forall_singleton. reflexivity.
  - destruct (Hq t) as (items & Hinv & Hhist & _ & Hnone).
    destruct (queue_inv_no_buffer _ _ Hinv (Hnone Hnot)) as (-> & Hh & Hl).
    eapply (queues_ok_step cs _ st st' t [] Hq Hoth).
    + intros t' Hne. rewrite Hregd. intuition congruence.
    + intros t' _. apply Hcalls.
    + intros t' _. reflexivity.
    + rewrite Hself. apply queue_inv_nil; [apply Hinv | exact Hh | exact Hl].
    + rewrite Hcalls, deferred_snoc. simpl deferred_by. rewrite (app_nil_r (deferred t cs)).
      exact Hhist.
    + intros _. rewrite Hself. eexists. split; [reflexivity|]. apply length_resize.
    + intros Hc. exfalso. apply Hc. apply Hregd. right. reflexivity.
  - unfold worker_ok in *. rewrite Hwk, Hn, Hw.
    destruct (Z.eqb_spec (num_deferers st) 0), (Z.ltb_spec 0 (num_deferers st)),
      (Z.ltb_spec 0 (num_deferers st + 1)); try reflexivity; lia.
Qed.

Lemma elem_of_delete_NoDup {A} (l : list A) k x y :
  NoDup l → l !! k = Some x → y ∈ delete k l ↔ y ∈ l ∧ y ≠ x.
Proof.
  intros Hnd Hk. pose proof (delete_Permutation l k x Hk) as Hp.
  rewrite Hp in Hnd. apply NoDup_cons in Hnd as (Hx & _).
  assert (Hmem : y ∈ l ↔ y = x ∨ y ∈ delete k l).
  { rewrite <- elem_of_cons. split; intros H.
    - rewrite <- Hp. exact H.
    - rewrite Hp. exact H. }
  rewrite Hmem. split.
  - intros Hy. split; [right; exact Hy|]. intros ->. contradiction.
  - intros ([-> | Hy] & Hne); [contradiction | exact Hy].
Qed.

Lemma step_unregister cs st t :
  sys_inv cs st → registered t st →
  ∃ st', rcu_defer_unregister_thread t st = Ok (tt, st') ∧
         sys_inv (cs ++ [Unregister t]) st'.
Proof.
  intros (Hok & Hq & Hw) Hreg.
  pose proof (registered_num st t Hok Hreg) as Hn1.
  destruct (Hq t) as (items & Hinv & Hhist & Hbuf & _).
  assert (Hw1 : workers st = 1%nat).
  { unfold worker_ok in Hw. rewrite Hw. destruct (Z.ltb_spec 0 (num_deferers st)); [reflexivity | lia]. }
  destruct (rcu_defer_unregister_thread_spec t st items 0 Hok Hreg Hinv Hw1)
    as (st' & k & e & arr' & Hk & Hid & Hrun & Hr' & Hlen & Hlive & Hn & Ha & Hself & Hoth
        & Hwk & Hfut & Htr).
  pose proof Hok as (Hshape & Hnd & Hptr).
  assert (Hkt : (tid <$> live_entries st) !! k = Some t).
  { rewrite list_lookup_fmap, Hk. simpl. congruence. }
  assert (Hregd : ∀ t', registered t' st' ↔ registered t' st ∧ t' ≠ t).
  { intros t'. unfold registered. rewrite Hlive, (swap_remove_tids k _ e Hk).
    apply elem_of_delete_NoDup; assumption. }
  assert (Hcalls : ∀ t', calls t' (trace st') =
                         calls t' (trace st) ++ calls t' (drain_events t (tls_get t st) items)).
  { intros t'. rewrite Htr, !calls_app. simpl.
    destruct (_ =? _); [|rewrite !app_nil_r; reflexivity].
    unfold stop_events. rewrite !calls_app, calls_wake_events. simpl.
    rewrite !app_nil_r. reflexivity. }
  exists st'. split; [exact Hrun|]. split; [|split].
  - unfold registry_ok. rewrite Hr', Hlive, (swap_remove_tids k _ e Hk), Hn, Ha.
    destruct (registry st) as [arr|] eqn:Harr.
    2:{ unfold live_entries in Hk. rewrite Harr in Hk. simpl in Hk.
        rewrite take_nil in Hk. inversion Hk. }
    split; [|split].
    + split; [lia|]. split; [tauto | exact Hlen].
    + eapply sublist_NoDup; [exact Hnd | apply sublist_delete].
    + apply Forall_forall. intros x Hx. rewrite Forall_forall in Hptr.
      apply Hptr. eapply swap_remove_elem; eauto.
  - eapply (queues_ok_step cs _ st st' t [] Hq Hoth).
    + intros t' Hne. rewrite Hregd. tauto.
    + intros t' Hne. rewrite Hcalls, calls_drain_events.
      destruct (decide (t = t')); [congruence | apply app_nil_r].
    + intros t' _. reflexivity.
    + rewrite Hself. destruct (queue_inv_fill _ _ Hinv) as (_ & Hwd & _).
      apply queue_inv_nil; [exact Hwd | reflexivity | reflexivity].
    + rewrite Hcalls, calls_drain_events, deferred_snoc. simpl.
      destruct (decide (t = t)); [|congruence]. rewrite !app_nil_r, <- Hhist.
      destruct (fill (tls_get t st) =? 0) eqn:Hz; [|reflexivity].
      apply Z.eqb_eq in Hz. destruct (queue_inv_empty _ _ Hinv Hz) as (-> & _).
      reflexivity.
    + rewrite Hregd. intros (_ & Hc). congruence.
    + intros _. rewrite Hself. reflexivity.
  - unfold worker_ok. rewrite Hwk, Hn.
    destruct (Z.eqb_spec (num_deferers st) 1), (Z.ltb_spec 0 (num_deferers st - 1));
      try reflexivity; lia.
Qed.

(** ** Reachable states *)

Lemma sys_inv_init : sys_inv [] init_state.
Proof.
  split; [|split].
  - split; [reflexivity|]. split; [constructor | constructor].
  - intros t.
    assert (Hz : tls_get t init_state = zero_queue).
    { unfold tls_get. simpl. rewrite lookup_empty. reflexivity. }
    exists []. rewrite Hz. split; [|split; [reflexivity|split]].
    + apply queue_inv_nil; try reflexivity.
      unfold is_word, word_modulus, word_bits. simpl. lia.
    + intros Hr. inversion Hr.
    + reflexivity.
  - reflexivity.
Qed.

(** Every admissible call returns normally and keeps the invariant. *)
Lemma step_ok cs st c :
  sys_inv cs st → admissible c st →
  ∃ st', do_call c st = Ok (tt, st') ∧ sys_inv (cs ++ [c]) st'.
Proof.
  intros Hinv Hadm. destruct c as [t qmem rmem | t | t fct p | t | |]; simpl in *.
  - destruct Hadm as (Hnot & [qg ->] & [rg ->] & Hnum). apply step_register; assumption.
  - apply step_unregister; assumption.
  - apply step_defer; tauto.
  - apply step_barrier_thread; assumption.
  - apply step_barrier; assumption.
  - apply step_wait_defer; assumption.
Qed.

Lemma steps_inv cs0 st cs st' :
  sys_inv cs0 st → steps st cs st' → sys_inv (cs0 ++ cs) st'.
Proof.
  intros Hinv Hsteps. revert cs0 Hinv.
  induction Hsteps as [st | st c st1 cs st' Hadm Hrun _ IH]; intros cs0 Hinv.
  - rewrite app_nil_r. exact Hinv.
  - destruct (step_ok cs0 st c Hinv Hadm) as (st2 & Hrun' & Hinv').
    rewrite Hrun in Hrun'. inversion Hrun'; subst st2.
    replace (cs0 ++ c :: cs) with ((cs0 ++ [c]) ++ cs) by (rewrite <- app_assoc; reflexivity).
    apply IH. exact Hinv'.
Qed.

Lemma reaches_inv cs st : reaches cs st → sys_inv cs st.
Proof. intros H. apply (steps_inv [] init_state cs st sys_inv_init H). Qed.

Lemma steps_snoc st cs st' c st'' :
  steps st cs st' → admissible c st' → do_call c st' = Ok (tt, st'') →
  steps st (cs ++ [c]) st''.
Proof.
  induction 1 as [st | st c0 st1 cs st' Hadm Hrun _ IH]; intros Hadm' Hrun'; simpl.
  - econstructor; eauto. constructor.
  - econstructor; eauto.
Qed.

(** ** Running a schedule *)

Lemma run_admissible_steps cs : ∀ st st',
  run_admissible cs st = Some st' → steps st cs st'.
Proof.
  induction cs as [|c cs IH]; intros st st' H; simpl in H.
  - inversion H. constructor.
  - destruct (decide (admissible c st)) as [Hadm|]; [|discriminate].
    destruct (do_call c st) as [[[] st1]|] eqn:Hrun; [|discriminate].
    econstructor; eauto.
Qed.

(** ** Consequences of the invariant *)

Lemma grace_periods_wake_events st : grace_periods (wake_events st) = 0%nat.
Proof. unfold wake_events. destruct (_ =? _); reflexivity. Qed.

(** Draining a queue up to its head invokes what is left of the callbacks
    its thread enqueued. *)
Lemma drain_to_head cs st t :
  sys_inv cs st →
  ∃ st',
    rcu_defer_barrier_queue t (dq_head (tls_get t st)) st = Ok (tt, st') ∧
    calls t (trace st') = deferred t cs ∧
    fill (tls_get t st') = 0.
Proof.
  intros (_ & Hq & _).
  destruct (drain_queue_ok cs st t Hq) as (st' & Hrun & _ & _ & Hq' & Hz & _).
  exists st'. split; [exact Hrun|]. split; [|exact Hz].
  destruct (Hq' t) as (items & Hinv & Hhist & _).
  destruct (queue_inv_empty _ _ Hinv Hz) as (-> & _).
  rewrite app_nil_r in Hhist. exact Hhist.
Qed.

Lemma enqueue_slots_drained d fct p slots :
  enqueue_slots (set_dq_tail (dq_head d) (set_dq_last_fct_out (dq_last_fct_in d) d))
                fct p slots = enqueue_slots d fct p slots.
Proof. reflexivity. Qed.

(** The head, the buffer and the encoder state after an enqueue. *)
Lemma rcu_defer_queue_exact self fct p st items slots :
  let d := tls_get self st in
  let k := (enqueue_slots d fct p slots).1 in
  let slots' := (enqueue_slots d fct p slots).2 in
  queue_inv d items → dq_q d = Some slots →
  length slots = Z.to_nat DEFER_QUEUE_SIZE →
  ∃ st',
    _rcu_defer_queue self fct p st = Ok (tt, st') ∧
    dq_head (tls_get self st') = wrap (dq_head d + k) ∧
    dq_q (tls_get self st') = Some slots' ∧
    dq_last_fct_in (tls_get self st') = fct.
Proof.
  intros d k slots' Hinv Hq Hlen. pose proof size_bounds as Hsz.
  destruct (queue_inv_fill _ _ Hinv) as (Hfill & Hw & _).
  destruct (Z.le_gt_cases (DEFER_QUEUE_SIZE - 2) (fill d)) as [Hslow | Hfast].
  - destruct (rcu_defer_queue_slow self fct p st items Hinv Hslow)
      as (st1 & _ & (Hd1 & _) & ->). fold d in Hd1.
    destruct (rcu_defer_queue_fast_exact self fct p st1 [] slots)
      as (st' & Hrun & (Hd' & _) & _).
    + rewrite Hd1. apply (queue_inv_drained _ _ Hinv).
    + rewrite Hd1. exact Hq.
    + exact Hlen.
    + rewrite Hd1. unfold fill. simpl. rewrite wrap_sub_self. lia.
    + rewrite Hd1, enqueue_slots_drained in Hd'. fold k slots' in Hd'.
      exists st'. split; [exact Hrun|]. rewrite Hd'. simpl.
      split; [|split; reflexivity].
      unfold fill. simpl. rewrite wrap_sub_self. wrap_solve.
  - destruct (rcu_defer_queue_fast_exact self fct p st items slots Hinv Hq Hlen)
      as (st' & Hrun & (Hd' & _) & _); [fold d; lia|].
    fold d k slots' in Hd'.
    exists st'. split; [exact Hrun|]. rewrite Hd'. simpl.
    split; [|split; reflexivity].
    destruct Hinv as (Ht & _). unfold fill. wrap_solve.
Qed.

(** * The properties of the specification *)

(** C1 (encode/decode round trip). After any schedule of admissible calls
    (registrations, enqueues of arbitrary words as function and argument,
    barriers, in any order and by any threads), draining the queue of a
    thread [t] with [rcu_defer_barrier_queue] up to its head returns
    normally, and the callbacks invoked from that queue, over the whole
    run, are exactly the pairs that [t] enqueued with [_rcu_defer_queue]:
    the same values, once each, in the order of submission. *)
Theorem defer_roundtrip cs st t :
  reaches cs st →
  ∃ st',
    rcu_defer_barrier_queue t (dq_head (tls_get t st)) st = Ok (tt, st') ∧
    calls t (trace st') = deferred t cs.
Proof.
  intros Hr. destruct (drain_to_head cs st t (reaches_inv cs st Hr)) as (st' & Hrun & Hc & _).
  exists st'. split; assumption.
Qed.

(** C2 (barrier contract). In any reachable state [rcu_defer_barrier]
    returns normally, and then, for every registered thread, all the
    callbacks the thread had enqueued before the call have been invoked
    (once each, in order) and the tail of its queue is the head recorded by
    the first pass. *)
Theorem barrier_contract cs st :
  reaches cs st →
  ∃ st',
    rcu_defer_barrier st = Ok (tt, st') ∧
    ∀ t, registered t st →
         calls t (trace st') = deferred t cs ∧
         dq_tail (tls_get t st') = dq_head (tls_get t st).
Proof.
  intros Hr. destruct (reaches_inv cs st Hr) as (Hok & Hq & _).
  destruct (rcu_defer_barrier_spec cs st Hok Hq)
    as (st' & Hrun & _ & Hq' & _ & _ & _ & _ & _ & Hz & Hheads & _).
  exists st'. split; [exact Hrun|]. intros t Ht.
  destruct (Hq' t) as (items & Hinv & Hhist & _).
  destruct (queue_inv_empty _ _ Hinv (Hz t Ht)) as (-> & _ & Hh).
  rewrite app_nil_r in Hhist. split; [exact Hhist|].
  rewrite <- Hh. apply Hheads.
Qed.

(** C3 (fill invariant). In every reachable state, for every queue,
    [0 <= head - tail <= DEFER_QUEUE_SIZE]. An enqueue by a registered
    thread returns normally in a state where the bound holds again; it
    drains its own queue under one grace period exactly when
    [head - tail >= DEFER_QUEUE_SIZE - 2] at entry, and it writes between
    one and three slots. *)
Theorem queue_fill_invariant cs st :
  reaches cs st →
  (∀ t, 0 <= fill (tls_get t st) <= DEFER_QUEUE_SIZE) ∧
  (∀ t fct p, registered t st →
     let d := tls_get t st in
     let slow := DEFER_QUEUE_SIZE - 2 <=? fill d in
     ∃ st' evs,
       _rcu_defer_queue t fct p st = Ok (tt, st') ∧
       trace st' = trace st ++ evs ∧
       grace_periods evs = (if slow then 1%nat else 0%nat) ∧
       dq_tail (tls_get t st') = (if slow then dq_head d else dq_tail d) ∧
       (if slow then 0 else fill d) < fill (tls_get t st')
         <= (if slow then 0 else fill d) + 3 ∧
       0 <= fill (tls_get t st') <= DEFER_QUEUE_SIZE).
Proof.
  intros Hr. destruct (reaches_inv cs st Hr) as (Hok & Hq & _).
  split; [intros t; apply (queues_ok_fill cs st t Hq)|].
  intros t fct p Hreg d slow.
  destruct (Hq t) as (items & Hinv & _ & Hbuf & _).
  destruct (rcu_defer_queue_spec t fct p st items Hinv (Hbuf Hreg))
    as (st' & d' & Hrun & (Hd' & _ & _ & _ & Htr) & Hinv' & _ & Htail & _ & Hfill).
  fold d slow in Htr, Htail, Hfill, Hinv'.
  eexists st', _. split; [exact Hrun|]. split; [exact Htr|]. rewrite Hd'.
  split; [|split; [exact Htail|split; [exact Hfill|]]].
  - rewrite grace_periods_app, grace_periods_wake_events, Nat.add_0_r.
    destruct slow; [|reflexivity].
    change (EvSynchronizeRcu :: call_events t items)
      with ([EvSynchronizeRcu] ++ call_events t items).
    rewrite grace_periods_app, grace_periods_call_events. reflexivity.
  - apply (queue_inv_fill _ _ Hinv').
Qed.

(** C4 (the assertions of the backpressure path). When a registered
    thread enters [_rcu_defer_queue] with [head - tail >= DEFER_QUEUE_SIZE
    - 2] (in particular with equality): the first assertion holds; the
    self-drain returns normally, after one grace period, and leaves
    [head - tail == 0], the second assertion; and the enqueue returns
    normally, with the new callback alone in the queue: a later drain of
    the queue invokes it, after all the earlier ones. *)
Theorem backpressure_assertions cs st t fct p :
  reaches cs st → registered t st → is_word fct → is_word p →
  DEFER_QUEUE_SIZE - 2 <= fill (tls_get t st) →
  let d := tls_get t st in
  (fill d <=? wrap DEFER_QUEUE_SIZE) = true ∧
  (∃ st1 evs,
     rcu_defer_barrier_thread t st = Ok (tt, st1) ∧
     trace st1 = trace st ++ evs ∧ grace_periods evs = 1%nat ∧
     (wrap (dq_head d - dq_tail (tls_get t st1)) =? 0) = true) ∧
  (∃ st',
     _rcu_defer_queue t fct p st = Ok (tt, st') ∧
     dq_tail (tls_get t st') = dq_head d ∧
     calls t (trace st') = deferred t cs ∧
     ∃ st'',
       rcu_defer_barrier_queue t (dq_head (tls_get t st')) st' = Ok (tt, st'') ∧
       calls t (trace st'') = deferred t cs ++ [(fct, p)]).
Proof.
  intros Hr Hreg Hfct Hp Hslow d. pose proof size_bounds as Hsz.
  pose proof (reaches_inv cs st Hr) as Hsys. destruct Hsys as (Hok & Hq & Hw).
  destruct (Hq t) as (items & Hinv & Hhist & Hbuf & _).
  destruct (queue_inv_fill _ _ Hinv) as (Hfill & _ & _). fold d in Hfill, Hinv.
  split; [|split].
  - rewrite wrap_id by (unfold is_word; lia). apply Z.leb_le. lia.
  - destruct (rcu_defer_queue_slow t fct p st items Hinv Hslow)
      as (st1 & Hrun & (Hd1 & _ & _ & _ & Htr) & _).
    eexists st1, _. split; [exact Hrun|]. split; [exact Htr|]. split.
    + change (EvSynchronizeRcu :: call_events t items)
        with ([EvSynchronizeRcu] ++ call_events t items).
      rewrite grace_periods_app, grace_periods_call_events. reflexivity.
    + rewrite Hd1. simpl. fold d. rewrite wrap_sub_self. reflexivity.
  - assert (Hadm : admissible (Defer t fct p) st) by (simpl; tauto).
    destruct (step_ok cs st _ (conj Hok (conj Hq Hw)) Hadm) as (st' & Hrun & Hsys').
    simpl in Hrun. exists st'. split; [exact Hrun|].
    destruct (rcu_defer_queue_spec t fct p st items Hinv (Hbuf Hreg))
      as (st2 & d' & Hrun2 & (Hd' & _ & _ & _ & Htr) & _ & _ & Htail & _).
    rewrite Hrun in Hrun2. inversion Hrun2; subst st2. fold d in Htr, Htail.
    assert (Hslow' : (DEFER_QUEUE_SIZE - 2 <=? fill d) = true)
      by (apply Z.leb_le; exact Hslow).
    rewrite Hslow' in Htr, Htail.
    split; [rewrite Hd'; exact Htail|]. split.
    + rewrite Htr, !calls_app, calls_sync, calls_call_events, calls_wake_events, app_nil_r.
      exact Hhist.
    + destruct (drain_to_head _ st' t Hsys') as (st'' & Hrun'' & Hc & _).
      exists st''. split; [exact Hrun''|].
      rewrite Hc, deferred_snoc. simpl. destruct (decide (t = t)); [reflexivity | congruence].
Qed.

(** C7 (grace-period elision). In a reachable state: when the sum of the
    fills of the registered queues is zero [rcu_defer_barrier] returns
    without any logged action, so without a grace period; when the
    registry was never allocated it returns at once and leaves the state
    as it is, so no reclamation thread is started; and
    [rcu_defer_barrier_thread] on an empty queue returns at once,
    without a grace period. *)
Theorem grace_period_elision cs st :
  reaches cs st →
  (total_fill st (live_entries st) = 0 →
   ∃ st', rcu_defer_barrier st = Ok (tt, st') ∧
          trace st' = trace st ∧ workers st' = workers st) ∧
  (registry st = None → rcu_defer_barrier st = Ok (tt, st)) ∧
  (∀ t, fill (tls_get t st) = 0 → rcu_defer_barrier_thread t st = Ok (tt, st)).
Proof.
  intros Hr. destruct (reaches_inv cs st Hr) as (Hok & Hq & _).
  split; [|split].
  - intros Hz.
    destruct (rcu_defer_barrier_spec cs st Hok Hq)
      as (st' & Hrun & _ & _ & _ & _ & _ & Hwk & _ & _ & _ & evs & Htr & Hnil & _).
    exists st'. split; [exact Hrun|]. split; [|exact Hwk].
    rewrite Htr, (Hnil Hz). apply app_nil_r.
  - intros Hnone. unfold rcu_defer_barrier. mred. rewrite Hnone. reflexivity.
  - intros t Hz. unfold rcu_defer_barrier_thread, _rcu_defer_barrier_thread. mred.
    fold (fill (tls_get t st)). rewrite Hz. reflexivity.
Qed.

Lemma registered_swap_remove st st' k e :
  registry_ok st → live_entries st !! k = Some e →
  live_entries st' = swap_remove k (live_entries st) →
  ∀ t, registered t st' ↔ registered t st ∧ t ≠ tid e.
Proof.
  intros (_ & Hnd & _) Hk Hlive t. unfold registered.
  rewrite Hlive, (swap_remove_tids k _ e Hk).
  apply elem_of_delete_NoDup; [exact Hnd|].
  rewrite list_lookup_fmap, Hk. reflexivity.
Qed.

(** C5 (unregistration), as the code has it. For a registered caller
    [rcu_defer_unregister_thread] returns normally after, in this order:
    removing the caller's registry entry; draining the caller's queue,
    under one grace period unless the queue is empty; freeing the buffer;
    and, when the caller was the last registered thread, stopping the
    reclamation thread. On return every callback the caller had enqueued
    has been invoked, once and in order, the caller is no longer
    registered and its buffer pointer is null. *)
Theorem unregister_sequence cs st t :
  reaches cs st → registered t st →
  ∃ st' items,
    rcu_defer_unregister_thread t st = Ok (tt, st') ∧
    calls t (trace st) ++ items = deferred t cs ∧
    trace st' = trace st ++ [EvRegistryRemove t] ++
                drain_events t (tls_get t st) items ++ [EvFreeQueue t] ++
                (if num_deferers st =? 1 then stop_events st else []) ∧
    calls t (trace st') = deferred t cs ∧
    ¬ registered t st' ∧
    dq_q (tls_get t st') = None.
Proof.
  intros Hr Hreg. pose proof (reaches_inv cs st Hr) as Hsys.
  destruct Hsys as (Hok & Hq & Hw).
  pose proof (registered_num st t Hok Hreg) as Hn1.
  destruct (Hq t) as (items & Hinv & Hhist & _).
  assert (Hw1 : workers st = 1%nat).
  { unfold worker_ok in Hw. rewrite Hw.
    destruct (Z.ltb_spec 0 (num_deferers st)); [reflexivity | lia]. }
  destruct (rcu_defer_unregister_thread_spec t st items 0 Hok Hreg Hinv Hw1)
    as (st' & k & e & arr' & Hk & Hid & Hrun & _ & _ & Hlive & _ & _ & Hself & _ & _ & _ & Htr).
  exists st', items. split; [exact Hrun|]. split; [exact Hhist|]. split; [exact Htr|].
  split; [|split].
  - rewrite Htr, !calls_app, calls_drain_events. simpl.
    destruct (decide (t = t)); [|congruence].
    assert (Hstop : calls t (if num_deferers st =? 1 then stop_events st else []) = []).
    { destruct (_ =? _); [|reflexivity].
      unfold stop_events. rewrite !calls_app, calls_wake_events. reflexivity. }
    rewrite Hstop, !app_nil_r, <- Hhist.
    destruct (fill (tls_get t st) =? 0) eqn:Hz; [|reflexivity].
    apply Z.eqb_eq in Hz. destruct (queue_inv_empty _ _ Hinv Hz) as (-> & _).
    reflexivity.
  - rewrite (registered_swap_remove st st' k e Hok Hk Hlive). intros (_ & Hne). congruence.
  - rewrite Hself. reflexivity.
Qed.

(** C6 (allocation failures), as the code has it. The results of [malloc]
    are not checked. When the allocation of the queue buffer fails,
    [rcu_defer_register_thread] still returns normally: the caller is
    added to the registry with a null buffer pointer, and the reclamation
    thread is started when the caller is the first registered thread.
    When the allocation of the registry array fails (the first allocation
    or a growth), the call does not return: it faults on the null array,
    before an entry is added or the reclamation thread started. *)
Theorem register_allocation_failure cs st t :
  reaches cs st → ¬ registered t st → num_deferers st < 2 ^ 30 →
  (∀ rg, ∃ st',
     rcu_defer_register_thread t None (Some rg) st = Ok (tt, st') ∧
     registered t st' ∧
     dq_q (tls_get t st') = None ∧
     workers st' = (if num_deferers st =? 0 then S (workers st) else workers st) ∧
     trace st' = trace st ++ [EvRegistryAdd t] ++
                 (if num_deferers st =? 0 then [EvPthreadCreate] else [])) ∧
  (∀ qmem, registry st = None ∨ alloc_deferers st < num_deferers st + 1 →
     rcu_defer_register_thread t qmem None st = Fail Segfault).
Proof.
  intros Hr Hnot Hnum. destruct (reaches_inv cs st Hr) as (Hok & _ & _).
  split.
  - intros rg.
    destruct (rcu_defer_register_thread_spec t None rg st Hok Hnum)
      as (st' & arr' & Hrun & _ & _ & _ & _ & _ & _ & Hlive & Hself & _ & Hwk & _ & Htr).
    exists st'. split; [exact Hrun|]. split; [|split; [|split; assumption]].
    + unfold registered. rewrite Hlive, fmap_app. apply elem_of_app. right.
      simpl. apply list_elem_of_singleton. reflexivity.
    + rewrite Hself. reflexivity.
  - intros qmem Hneed. pose proof (registry_ok_num st Hok) as Hn0.
    unfold rcu_defer_register_thread. erewrite bind_eval; [|apply update_dq_eval].
    apply bind_fail.
    match goal with |- rcu_add_deferer _ _ _ ?s = _ => set (s1 := s) end.
    assert (Hr1 : registry s1 = registry st) by reflexivity.
    assert (Hn1 : num_deferers s1 = num_deferers st) by reflexivity.
    assert (Ha1 : alloc_deferers s1 = alloc_deferers st) by reflexivity.
    clearbody s1.
    unfold rcu_add_deferer, malloc. mred. rewrite Hr1.
    unfold INT_MAX, INIT_NUM_THREADS.
    destruct (registry st) as [arr|] eqn:Harr.
    + destruct Hneed as [? | Hgrow]; [discriminate|].
      rewrite Hn1, Ha1.
      rewrite (proj2 (Z.ltb_ge _ _)) by lia.
      rewrite (proj2 (Z.ltb_lt _ _) Hgrow).
      rewrite (proj2 (Z.ltb_ge _ _)) by lia. reflexivity.
    + cbn [num_deferers alloc_deferers registry set_registry
             set_num_deferers set_alloc_deferers].
      simpl. reflexivity.
Qed.

(** C8 (lifecycle of the reclamation thread). In every reachable state
    there is one reclamation thread if the count of registered threads is
    positive and none otherwise. A registration makes the count one more
    and creates the thread exactly when the count was 0; an
    unregistration makes the count one less and, exactly when the count
    was 1, cancels the thread, calls [wake_up_defer] (which wakes it when
    it waits on the futex) and joins it. *)
Theorem worker_lifecycle cs st :
  reaches cs st →
  workers st = (if 0 <? num_deferers st then 1%nat else 0%nat) ∧
  num_deferers st = Z.of_nat (length (live_entries st)) ∧
  (∀ t qg rg, admissible (Register t (Some qg) (Some rg)) st →
     ∃ st',
       rcu_defer_register_thread t (Some qg) (Some rg) st = Ok (tt, st') ∧
       num_deferers st' = num_deferers st + 1 ∧
       workers st' = (if num_deferers st =? 0 then S (workers st) else workers st) ∧
       trace st' = trace st ++ [EvRegistryAdd t] ++
                   (if num_deferers st =? 0 then [EvPthreadCreate] else [])) ∧
  (∀ t, registered t st →
     ∃ st' items,
       rcu_defer_unregister_thread t st = Ok (tt, st') ∧
       num_deferers st' = num_deferers st - 1 ∧
       workers st' = (if num_deferers st =? 1 then pred (workers st) else workers st) ∧
       trace st' = trace st ++ [EvRegistryRemove t] ++
                   drain_events t (tls_get t st) items ++ [EvFreeQueue t] ++
                   (if num_deferers st =? 1
                    then [EvPthreadCancel] ++ wake_events st ++ [EvPthreadJoin]
                    else [])).
Proof.
  intros Hr. destruct (reaches_inv cs st Hr) as (Hok & Hq & Hw).
  pose proof (registry_ok_num st Hok) as Hn0.
  split; [exact Hw|]. split; [rewrite (live_entries_length st Hok); lia|]. split.
  - intros t qg rg (Hnot & _ & _ & Hnum).
    destruct (rcu_defer_register_thread_spec t (Some qg) rg st Hok Hnum)
      as (st' & arr' & Hrun & _ & _ & _ & _ & Hn & _ & _ & _ & _ & Hwk & _ & Htr).
    exists st'. tauto.
  - intros t Hreg. pose proof (registered_num st t Hok Hreg) as Hn1.
    destruct (Hq t) as (items & Hinv & _).
    assert (Hw1 : workers st = 1%nat).
    { unfold worker_ok in Hw. rewrite Hw.
      destruct (Z.ltb_spec 0 (num_deferers st)); [reflexivity | lia]. }
    destruct (rcu_defer_unregister_thread_spec t st items 0 Hok Hreg Hinv Hw1)
      as (st' & k & e & arr' & _ & _ & Hrun & _ & _ & _ & Hn & _ & _ & _ & Hwk & _ & Htr).
    exists st', items. split; [exact Hrun|]. split; [exact Hn|]. split; [|exact Htr].
    rewrite Hwk, Hw1. reflexivity.
Qed.

(** C9 (registry mechanics). In a reachable state: [rcu_add_deferer]
    allocates the array with capacity 4 when there is none, doubles the
    capacity when the count has reached it and otherwise keeps it, so the
    capacity never decreases; it keeps the entries in use and appends the
    entry (id, pointer to the caller's queue, last_head 0), and the count
    grows by one. [rcu_remove_deferer] finds the entry of the thread,
    overwrites it with the last entry in use and decrements the count,
    leaving the capacity as it is; it fails its assertion when the thread
    has no entry. *)
Theorem registry_mechanics cs st self id :
  reaches cs st → num_deferers st < 2 ^ 30 →
  (∀ rg, ∃ st',
     rcu_add_deferer self id (Some rg) st = Ok (tt, st') ∧
     alloc_deferers st' =
       match registry st with
       | None => 4
       | Some _ => if alloc_deferers st <? num_deferers st + 1
                   then alloc_deferers st * 2 else alloc_deferers st
       end ∧
     (registry st ≠ None → alloc_deferers st <= alloc_deferers st') ∧
     live_entries st' = live_entries st ++ [mk_deferer_registry id (Some self) 0] ∧
     num_deferers st' = num_deferers st + 1) ∧
  (registered id st →
   ∃ st' k e,
     live_entries st !! k = Some e ∧ tid e = id ∧
     (∀ j e', live_entries st !! j = Some e' → tid e' = id → j = k) ∧
     rcu_remove_deferer id st = Ok (tt, st') ∧
     live_entries st' =
       take (length (live_entries st) - 1)
            (<[k := default zero_entry (last (live_entries st))]> (live_entries st)) ∧
     num_deferers st' = num_deferers st - 1 ∧
     alloc_deferers st' = alloc_deferers st) ∧
  (¬ registered id st → rcu_remove_deferer id st = Fail AssertFailed).
Proof.
  intros Hr Hnum. destruct (reaches_inv cs st Hr) as (Hok & _ & _).
  split; [|split].
  - intros rg.
    destruct (rcu_add_deferer_spec self id st rg Hok Hnum)
      as (st' & arr' & Hrun & _ & _ & Hcap & _ & Hn & _ & Hlive & _).
    exists st'. split; [exact Hrun|]. split; [exact Hcap|].
    split; [|split; assumption].
    intros Hsome. rewrite Hcap. unfold grown_capacity.
    destruct Hok as (Hshape & _).
    destruct (registry st); [|congruence].
    destruct (_ <? _); lia.
  - intros Hreg.
    destruct (rcu_remove_deferer_spec id st Hok Hreg)
      as (st' & k & e & arr' & Hk & Hid & Hrun & _ & _ & Hlive & Hn & Ha & _).
    exists st', k, e. split; [exact Hk|]. split; [exact Hid|]. split.
    { intros j e' Hj Hid'. eapply (live_tid_inj st j k e' e Hok); eauto. congruence. }
    split; [exact Hrun|]. split; [exact Hlive|]. split; assumption.
  - apply rcu_remove_deferer_not_found. exact Hok.
Qed.

(** C10 (encoder and decoder in step). In a reachable state, when a queue
    is empty the function last decoded is the function last encoded. An
    enqueue by a registered thread returns normally; when the function is
    the one last encoded and the argument is an untagged word other than
    the sentinel, it writes the argument alone; when the function is a new
    one, untagged and not the sentinel, it writes the tagged function
    and then the argument, whatever the argument is, without a sentinel.
    In every case a later drain of the queue invokes the new callback
    with that function and that argument, after the earlier ones. *)
Theorem decoder_state_sync cs st t :
  reaches cs st →
  let d := tls_get t st in
  (fill d = 0 → dq_last_fct_out d = dq_last_fct_in d) ∧
  (∀ fct p, registered t st → is_word fct → is_word p →
     ∃ st' slots',
       _rcu_defer_queue t fct p st = Ok (tt, st') ∧
       dq_q (tls_get t st') = Some slots' ∧
       (dq_last_fct_in d = fct → DQ_IS_FCT_BIT p = false → p ≠ DQ_FCT_MARK →
        dq_head (tls_get t st') = wrap (dq_head d + 1) ∧
        slot_at slots' (dq_head d) = Some p) ∧
       (dq_last_fct_in d ≠ fct → DQ_IS_FCT_BIT fct = false → fct ≠ DQ_FCT_MARK →
        dq_head (tls_get t st') = wrap (dq_head d + 2) ∧
        slot_at slots' (dq_head d) = Some (DQ_SET_FCT_BIT fct) ∧
        slot_at slots' (wrap (dq_head d + 1)) = Some p) ∧
       ∃ st'',
         rcu_defer_barrier_queue t (dq_head (tls_get t st')) st' = Ok (tt, st'') ∧
         calls t (trace st'') = deferred t cs ++ [(fct, p)]).
Proof.
  intros Hr d. pose proof (reaches_inv cs st Hr) as Hsys.
  destruct Hsys as (Hok & Hq & Hw).
  destruct (Hq t) as (items & Hinv & Hhist & Hbuf & _). fold d in Hinv, Hbuf.
  split.
  - intros Hz. apply (queue_inv_empty _ _ Hinv Hz).
  - intros fct p Hreg Hfct Hp.
    destruct (Hbuf Hreg) as (slots & Hslots & Hlen).
    destruct (rcu_defer_queue_exact t fct p st items slots Hinv Hslots Hlen)
      as (st' & Hrun & Hhead & Hq' & _). fold d in Hhead, Hq'.
    exists st'. eexists. split; [exact Hrun|]. split; [exact Hq'|].
    split; [|split].
    + intros Hsame Hb Hm. rewrite Hhead. unfold enqueue_slots.
      rewrite (proj2 (Z.eqb_eq _ _) Hsame), Hb, (proj2 (Z.eqb_neq _ _) Hm). simpl.
      split; [reflexivity|]. apply slot_at_insert_eq. exact Hlen.
    + intros Hnew Hb Hm. rewrite Hhead. unfold enqueue_slots.
      rewrite (proj2 (Z.eqb_neq _ _) Hnew), Hb, (proj2 (Z.eqb_neq _ _) Hm). simpl.
      split; [reflexivity|]. split.
      * rewrite slot_at_insert_ne.
        { apply slot_at_insert_eq. exact Hlen. }
        rewrite slot_index_wrap. rewrite <- (Z.add_0_r (dq_head d)) at 1.
        apply slot_index_succ_ne; lia.
      * apply slot_at_insert_eq. rewrite length_insert. exact Hlen.
    + assert (Hadm : admissible (Defer t fct p) st) by (simpl; tauto).
      destruct (step_ok cs st _ (conj Hok (conj Hq Hw)) Hadm) as (st2 & Hrun2 & Hsys').
      simpl in Hrun2. rewrite Hrun in Hrun2. inversion Hrun2; subst st2.
      destruct (drain_to_head _ st' t Hsys') as (st'' & Hrun'' & Hc & _).
      exists st''. split; [exact Hrun''|].
      rewrite Hc, deferred_snoc. simpl. destruct (decide (t = t)); [reflexivity | congruence].
Qed.

(** * Further properties of the code *)

(** ** Runs, from their last call *)

Lemma steps_app_inv cs1 : ∀ st cs2 st',
  steps st (cs1 ++ cs2) st' → ∃ st1, steps st cs1 st1 ∧ steps st1 cs2 st'.
Proof.
  induction cs1 as [|c cs1 IH]; intros st cs2 st' Hs; simpl in Hs.
  - exists st. split; [constructor | exact Hs].
  - inversion Hs as [|? ? s1 ? ? Hadm Hrun Hrest]; subst.
    destruct (IH _ _ _ Hrest) as (st1 & H1 & H2).
    exists st1. split; [econstructor; eauto | exact H2].
Qed.

Lemma reaches_snoc_inv cs c st' :
  reaches (cs ++ [c]) st' →
  ∃ st, reaches cs st ∧ admissible c st ∧ do_call c st = Ok (tt, st').
Proof.
  intros Hr. destruct (steps_app_inv _ _ _ _ Hr) as (st & H1 & H2).
  exists st. split; [exact H1|].
  inversion H2 as [|? ? s1 ? ? Hadm Hrun Hrest]; subst.
  inversion Hrest; subst. split; assumption.
Qed.

(** Induction on a run, call after call. *)
Lemma reaches_ind_snoc (P : list call → state → Prop) :
  P [] init_state →
  (∀ cs st c st', reaches cs st → P cs st → admissible c st →
                  do_call c st = Ok (tt, st') → P (cs ++ [c]) st') →
  ∀ cs st, reaches cs st → P cs st.
Proof.
  intros Hinit Hstep cs. induction cs as [|c cs IH] using rev_ind; intros st Hr.
  - inversion Hr; subst. exact Hinit.
  - destruct (reaches_snoc_inv _ _ _ Hr) as (st0 & Hr0 & Hadm & Hrun).
    eapply Hstep; eauto.
Qed.

(** ** Pending callbacks *)

Lemma pending_items t cs tr items :
  calls t tr ++ items = deferred t cs → pending t cs tr = items.
Proof. intros H0. unfold pending. rewrite <- H0. apply drop_app_length. Qed.

Lemma reaches_pending cs st t :
  reaches cs st →
  queue_inv (tls_get t st) (pending t cs (trace st)) ∧
  calls t (trace st) ++ pending t cs (trace st) = deferred t cs.
Proof.
  intros Hr. destruct (reaches_inv _ _ Hr) as (_ & Hq & _).
  destruct (Hq t) as (items & Hinv & Hc & _).
  rewrite (pending_items _ _ _ _ Hc). split; assumption.
Qed.

Lemma encodes_upper slots i f items n f' :
  encodes slots i f items n f' → n <= 3 * Z.of_nat (length items).
Proof. induction 1; simpl length; lia. Qed.

(** X1 (callbacks run once, in order, and only if enqueued). In every
    reachable state the callbacks invoked so far from the queue of a
    thread are an initial segment of the callbacks the thread has
    enqueued: none is invoked that was not enqueued, none twice, and none
    before an earlier one of the same thread. *)
Theorem invoked_prefix_of_deferred cs st t :
  reaches cs st → calls t (trace st) `prefix_of` deferred t cs.
Proof.
  intros Hr. destruct (reaches_pending cs st t Hr) as (_ & Hc).
  exists (pending t cs (trace st)). symmetry. exact Hc.
Qed.

(** X2 (slots per callback). In every reachable state the number of slots
    in use in a queue, [head - tail], is at least the number of its
    pending callbacks and at most three times that number. *)
Theorem pending_slots_bounds cs st t :
  reaches cs st →
  let k := Z.of_nat (length (pending t cs (trace st))) in
  k <= fill (tls_get t st) <= 3 * k.
Proof.
  intros Hr k. destruct (reaches_pending cs st t Hr) as (Hinv & _).
  destruct (queue_inv_fill _ _ Hinv) as (_ & _ & Henc).
  split.
  - apply (encodes_nonneg _ _ _ _ _ _ Henc).
  - apply (encodes_upper _ _ _ _ _ _ Henc).
Qed.

(** ** The events of a batch *)

Lemma batch_events_tids cs st :
  batch_events cs st =
  mjoin ((λ t, call_events t (pending t cs (trace st))) <$> (tid <$> live_entries st)).
Proof. unfold batch_events. rewrite <- list_fmap_compose. reflexivity. Qed.

Lemma batch_events_same cs st st' :
  tid <$> live_entries st' = tid <$> live_entries st →
  (∀ t, calls t (trace st') = calls t (trace st)) →
  batch_events cs st' = batch_events cs st.
Proof.
  intros Htids Hcalls. rewrite !batch_events_tids, Htids. f_equal.
  apply list_fmap_ext. intros _ t _. unfold pending. rewrite Hcalls. reflexivity.
Qed.

Lemma calls_batch_other t (g : deferer_registry → list (Z * Z)) l :
  t ∉ tid <$> l →
  calls t (mjoin ((λ e, call_events (tid e) (g e)) <$> l)) = [].
Proof.
  induction l as [|e l IH]; intros Hnot; [reflexivity|].
  rewrite fmap_cons in Hnot. apply not_elem_of_cons in Hnot as (Hne & Hnot).
  simpl. rewrite calls_app, calls_call_events_ne by congruence.
  apply IH. exact Hnot.
Qed.

Lemma queue_inv_nil_fill d : queue_inv d [] → fill d = 0.
Proof.
  intros (Hw & n & _ & Hhead & Henc). inversion Henc; subst.
  unfold fill. rewrite Hhead. wrap_solve.
Qed.

Lemma pending_nil_fill cs st t :
  queues_ok cs st → pending t cs (trace st) = [] ↔ fill (tls_get t st) = 0.
Proof.
  intros Hq. destruct (Hq t) as (items & Hinv & Hc & _).
  rewrite (pending_items _ _ _ _ Hc). split.
  - intros ->. apply queue_inv_nil_fill. exact Hinv.
  - intros Hz. apply (queue_inv_empty _ _ Hinv Hz).
Qed.

(** A batch is empty exactly when the fills of the registered queues sum
    up to zero. *)
Lemma batch_events_nil cs st :
  queues_ok cs st →
  batch_events cs st = [] ↔ total_fill st (live_entries st) = 0.
Proof.
  intros Hq. unfold batch_events. rewrite join_nil, Forall_fmap. split.
  - intros Hall. induction (live_entries st) as [|e l IH]; [reflexivity|].
    apply Forall_cons in Hall as (He & Hall). simpl in He |- *.
    rewrite (IH Hall).
    assert (Hp : pending (tid e) cs (trace st) = []).
    { unfold call_events in He. apply fmap_nil_inv in He. exact He. }
    apply (pending_nil_fill cs st _ Hq) in Hp. lia.
  - intros Hz. apply Forall_forall. intros e He. simpl.
    assert (Hf : fill (tls_get (tid e) st) = 0).
    { apply (total_fill_zero st (live_entries st)); [|exact Hz | exact He].
      intros t. apply (queues_ok_fill cs st t Hq). }
    apply (pending_nil_fill cs st _ Hq) in Hf. rewrite Hf. reflexivity.
Qed.

Lemma rcu_defer_barrier_queue_events cs st queue :
  queues_ok cs st →
  ∃ st',
    rcu_defer_barrier_queue queue (dq_head (tls_get queue st)) st = Ok (tt, st') ∧
    trace st' = trace st ++ call_events queue (pending queue cs (trace st)) ∧
    ∀ t, producer_fields (tls_get t st') = producer_fields (tls_get t st).
Proof.
  intros Hq. set (d := tls_get queue st).
  destruct (Hq queue) as (items & Hinv & Hcalls & _). fold d in Hinv.
  destruct (queue_inv_fill _ _ Hinv) as (Hfill & Hw & Henc).
  pose proof size_bounds as Hsz.
  destruct (rcu_defer_barrier_queue_spec queue (dq_head d) st items
              (fill d) (dq_last_fct_in d)) as (st' & Hrun & Heff);
    try (apply Hinv); try exact Henc; try lia.
  { destruct Hinv as (Ht & _). fold d. unfold fill. wrap_solve. }
  destruct Heff as (Hd' & Hoth & _ & _ & Htr).
  exists st'. split; [exact Hrun|].
  rewrite (pending_items _ _ _ _ Hcalls). split; [exact Htr|].
  intros t. destruct (decide (t = queue)) as [-> | Hne].
  - rewrite Hd'. reflexivity.
  - rewrite (Hoth t Hne). reflexivity.
Qed.

(** The second pass of [rcu_defer_barrier] invokes the batch. *)
Lemma drain_pass_events cs st arr :
  registry_ok st → registry st = Some arr → queues_ok cs st →
  (∀ e, e ∈ live_entries st → last_head e = dq_head (tls_get (tid e) st)) →
  ∃ st',
    for_each_deferer (λ index _,
        e ← load_entry index;
        queue ← deref_queue e;
        rcu_defer_barrier_queue queue (last_head e)) tt st = Ok (tt, st') ∧
    trace st' = trace st ++ batch_events cs st ∧
    ∀ t, producer_fields (tls_get t st') = producer_fields (tls_get t st).
Proof.
  intros Hok Hr Hq Hsnap. rewrite for_each_deferer_eval.
  set (n := Z.to_nat (num_deferers st)). set (live := live_entries st).
  set (f := λ e, call_events (tid e) (pending (tid e) cs (trace st))).
  match goal with
  | |- ∃ st', fold_index _ ?body _ _ = _ ∧ _ =>
      destruct (fold_index_seq
        (λ k (_ : unit) s,
           registry s = registry st ∧ num_deferers s = num_deferers st ∧
           queues_ok cs s ∧
           (∀ t, producer_fields (tls_get t s) = producer_fields (tls_get t st)) ∧
           trace s = trace st ++ mjoin (f <$> take k live))
        body n 0%nat tt st)
        as ([] & st' & Hrun & _ & _ & _ & Hpf & Htr)
  end.
  - split; [reflexivity|]. split; [reflexivity|]. split; [exact Hq|].
    split; [reflexivity|]. rewrite take_0. simpl. rewrite app_nil_r. reflexivity.
  - intros k [] s Hk (Hreg & Hnum & Hqs & Hpf & Htr).
    assert (Hhd : ∀ t, dq_head (tls_get t s) = dq_head (tls_get t st)).
    { intros t. pose proof (Hpf t) as Ht. unfold producer_fields in Ht. congruence. }
    destruct (registry_ok_lookup st arr k Hok Hr ltac:(lia)) as (e & He).
    pose proof (registry_ok_entry st arr k e Hok Hr ltac:(lia) He) as Hptr.
    pose proof (live_entries_lookup st arr k e Hr ltac:(lia) He) as Hlk. fold live in Hlk.
    assert (Hhead : last_head e = dq_head (tls_get (tid e) s)).
    { rewrite Hhd. apply Hsnap. eapply list_elem_of_lookup_2. exact Hlk. }
    destruct (drain_queue_ok cs s (tid e) Hqs)
      as (s' & Hrun & (Hreg' & Hnum' & _) & _ & Hqs' & _ & Hhd' & _).
    destruct (rcu_defer_barrier_queue_events cs s (tid e) Hqs)
      as (s'' & Hrun' & Htr' & Hpf').
    rewrite Hrun in Hrun'. inversion Hrun'; subst s''.
    exists tt, s'. split.
    + erewrite bind_eval; [|eapply load_entry_eval; [rewrite Hreg; exact Hr | exact He]].
      unfold deref_queue. rewrite Hptr. erewrite bind_eval; [|reflexivity].
      rewrite Hhead. exact Hrun.
    + split; [congruence|]. split; [congruence|]. split; [exact Hqs'|]. split.
      * intros t. rewrite Hpf'. apply Hpf.
      * assert (Hpend : pending (tid e) cs (trace s) = pending (tid e) cs (trace st)).
        { unfold pending. rewrite Htr, calls_app. unfold f.
          rewrite calls_batch_other, app_nil_r; [reflexivity|].
          intros Hin. apply list_elem_of_fmap in Hin as (e' & Heq & Hin).
          apply list_elem_of_lookup in Hin as (j & Hj).
          apply lookup_take_Some in Hj as (Hj & Hlt).
          assert (j = k) by (eapply (live_tid_inj st j k e' e Hok); eauto).
          lia. }
        rewrite Htr', Hpend, (take_S_r _ _ _ Hlk), fmap_app, join_app. simpl.
        rewrite app_nil_r, Htr, <- app_assoc. reflexivity.
  - exists st'. split; [exact Hrun|]. split; [|exact Hpf]. rewrite Htr. f_equal. simpl.
    unfold batch_events. fold live. fold f. rewrite take_ge; [reflexivity|].
    unfold live. rewrite (live_entries_length st Hok). fold n. lia.
Qed.

Lemma rcu_defer_barrier_exact cs st :
  registry_ok st → queues_ok cs st →
  ∃ st',
    rcu_defer_barrier st = Ok (tt, st') ∧
    trace st' = trace st ++ barrier_events cs st ∧
    ∀ t, producer_fields (tls_get t st') = producer_fields (tls_get t st).
Proof.
  intros Hok Hq. unfold rcu_defer_barrier, barrier_events.
  erewrite bind_eval; [|reflexivity].
  destruct (registry st) as [arr|] eqn:Hr.
  - set (s1 := set_registry (Some (snapshot_array st (Z.to_nat (num_deferers st)) arr)) st).
    pose proof (snapshot_registry_ok st arr Hok Hr) as Hok1. fold s1 in Hok1.
    pose proof (live_snapshot st arr Hok Hr) as Hlive1. fold s1 in Hlive1.
    assert (Htids : tid <$> live_entries s1 = tid <$> live_entries st).
    { rewrite Hlive1, <- list_fmap_compose. reflexivity. }
    assert (Hq1 : queues_ok cs s1).
    { eapply queues_ok_transfer; [| | |exact Hq]; try reflexivity.
      intros t. apply registered_tids. exact Htids. }
    erewrite bind_eval; [|apply snapshot_pass; [exact Hok | exact Hr]].
    fold s1. rewrite (total_fill_word cs st Hok Hq).
    destruct (total_fill st (live_entries st) =? 0) eqn:Hz.
    + apply Z.eqb_eq in Hz. apply (batch_events_nil cs st Hq) in Hz. rewrite Hz.
      exists s1. split; [reflexivity|]. simpl. rewrite app_nil_r.
      split; reflexivity.
    + apply Z.eqb_neq in Hz.
      set (s2 := add_trace [EvSynchronizeRcu] s1).
      assert (Hq2 : queues_ok cs s2).
      { eapply queues_ok_transfer; [| | |exact Hq1]; try reflexivity.
        intros t. simpl. rewrite calls_app. simpl. rewrite app_nil_r. reflexivity. }
      destruct (drain_pass_events cs s2 _ Hok1 eq_refl Hq2) as (st' & Hrun & Htr & Hpf).
      { intros e He. change (live_entries s2) with (live_entries s1) in He.
        rewrite Hlive1 in He. apply list_elem_of_fmap in He as (e0 & -> & He0).
        reflexivity. }
      assert (Hsame : batch_events cs s2 = batch_events cs st).
      { apply batch_events_same; [exact Htids|].
        intros t. simpl. rewrite calls_app. simpl. apply app_nil_r. }
      exists st'. split.
      { erewrite bind_eval; [|reflexivity]. exact Hrun. }
      split; [|exact Hpf].
      rewrite Htr, Hsame. simpl. rewrite <- app_assoc. simpl.
      destruct (batch_events cs st) eqn:Hb; [|reflexivity].
      exfalso. apply Hz. apply (batch_events_nil cs st Hq). exact Hb.
  - exists st. split; [reflexivity|].
    unfold batch_events, live_entries. rewrite Hr. simpl. rewrite take_nil. simpl.
    rewrite app_nil_r. split; reflexivity.
Qed.

(** ** The log of a call *)

Lemma wait_defer_exact cs st :
  registry_ok st → queues_ok cs st →
  let idle := total_fill st (live_entries st) =? 0 in
  ∃ st',
    wait_defer st = Ok (tt, st') ∧
    tls st' = tls st ∧ registry st' = registry st ∧
    num_deferers st' = num_deferers st ∧ alloc_deferers st' = alloc_deferers st ∧
    workers st' = workers st ∧
    defer_thread_futex st' = (if idle then defer_thread_futex st - 1 else 0) ∧
    trace st' = trace st ++
                (if idle && (defer_thread_futex st =? 0) then [EvFutexWait] else []).
Proof.
  intros Hok Hq idle. unfold wait_defer. mred.
  rewrite (rcu_defer_num_callbacks_spec (set_futex (defer_thread_futex st - 1) st))
    by exact Hok.
  cbv beta iota.
  change (live_entries (set_futex (defer_thread_futex st - 1) st))
    with (live_entries st).
  change (total_fill (set_futex (defer_thread_futex st - 1) st) (live_entries st))
    with (total_fill st (live_entries st)).
  rewrite (total_fill_word cs st Hok Hq). fold idle.
  destruct idle; simpl.
  - replace (defer_thread_futex st - 1 =? -1) with (defer_thread_futex st =? 0)
      by (destruct (Z.eqb_spec (defer_thread_futex st) 0),
                   (Z.eqb_spec (defer_thread_futex st - 1) (-1)); lia).
    destruct (defer_thread_futex st =? 0).
    + eexists. split; [reflexivity|]. simpl. tauto.
    + eexists. split; [reflexivity|]. simpl. rewrite app_nil_r. tauto.
  - eexists. split; [reflexivity|]. simpl. rewrite app_nil_r. tauto.
Qed.

Lemma do_call_log cs st c :
  sys_inv cs st → admissible c st →
  ∃ st',
    do_call c st = Ok (tt, st') ∧
    sys_inv (cs ++ [c]) st' ∧
    trace st' = trace st ++ call_log c cs st.
Proof.
  intros Hsys Hadm.
  destruct (step_ok cs st c Hsys Hadm) as (st' & Hrun & Hsys').
  exists st'. split; [exact Hrun|]. split; [exact Hsys'|].
  destruct Hsys as (Hok & Hq & Hw).
  destruct c as [t qmem rmem | t | t fct p | t | |]; simpl in Hrun, Hadm |- *.
  - destruct Hadm as (_ & _ & (rg & ->) & Hnum).
    destruct (rcu_defer_register_thread_spec t qmem rg st Hok Hnum)
      as (s & arr' & Hrun2 & _ & _ & _ & _ & _ & _ & _ & _ & _ & _ & _ & Htr).
    rewrite Hrun in Hrun2. inversion Hrun2; subst s. exact Htr.
  - destruct (Hq t) as (items & Hinv & Hc & _).
    assert (Hw1 : workers st = 1%nat).
    { unfold worker_ok in Hw. rewrite Hw.
      pose proof (registered_num st t Hok Hadm).
      destruct (Z.ltb_spec 0 (num_deferers st)); [reflexivity | lia]. }
    destruct (rcu_defer_unregister_thread_spec t st items 0 Hok Hadm Hinv Hw1)
      as (s & k & e & arr' & _ & _ & Hrun2 & _ & _ & _ & _ & _ & _ & _ & _ & _ & Htr).
    rewrite Hrun in Hrun2. inversion Hrun2; subst s.
    rewrite (pending_items _ _ _ _ Hc). exact Htr.
  - destruct Hadm as (Hreg & _).
    destruct (Hq t) as (items & Hinv & Hc & Hbuf & _).
    destruct (rcu_defer_queue_spec t fct p st items Hinv (Hbuf Hreg))
      as (s & d' & Hrun2 & (_ & _ & _ & _ & Htr) & _).
    rewrite Hrun in Hrun2. inversion Hrun2; subst s.
    rewrite (pending_items _ _ _ _ Hc), Htr.
    destruct (_ <=? _); reflexivity.
  - destruct (Hq t) as (items & Hinv & Hc & _).
    destruct (rcu_defer_barrier_thread_spec t st items Hinv)
      as (s & Hrun2 & (_ & _ & _ & _ & Htr)).
    unfold rcu_defer_barrier_thread in Hrun.
    rewrite Hrun in Hrun2. inversion Hrun2; subst s.
    rewrite (pending_items _ _ _ _ Hc). exact Htr.
  - destruct (rcu_defer_barrier_exact cs st Hok Hq) as (s & Hrun2 & Htr & _).
    rewrite Hrun in Hrun2. inversion Hrun2; subst s. exact Htr.
  - destruct (wait_defer_exact cs st Hok Hq)
      as (s & Hrun2 & _ & _ & _ & _ & _ & _ & Htr).
    rewrite Hrun in Hrun2. inversion Hrun2; subst s. exact Htr.
Qed.

Lemma guarded_synced evs : guarded true evs = true.
Proof. induction evs as [|[] evs IH]; simpl; auto. Qed.

Lemma guarded_wake_events b st evs :
  guarded b (wake_events st ++ evs) = guarded b evs.
Proof. unfold wake_events. destruct (_ =? _); reflexivity. Qed.

Lemma guarded_drain_events t d items evs :
  guarded false (drain_events t d items ++ evs) =
  if fill d =? 0 then guarded false evs else true.
Proof.
  unfold drain_events. destruct (fill d =? 0); [reflexivity|].
  simpl. apply guarded_synced.
Qed.

Lemma guarded_call_log c cs st : guarded false (call_log c cs st) = true.
Proof.
  destruct c as [t qmem rmem | t | t fct p | t | |]; simpl.
  - destruct (_ =? _); reflexivity.
  - rewrite guarded_drain_events. destruct (fill _ =? 0); [|reflexivity]. simpl.
    destruct (_ =? _); [|reflexivity]. unfold stop_events. simpl.
    rewrite guarded_wake_events. reflexivity.
  - destruct (_ <=? _); simpl.
    + apply guarded_synced.
    + rewrite <- (app_nil_r (wake_events st)), guarded_wake_events. reflexivity.
  - rewrite <- (app_nil_r (drain_events _ _ _)), guarded_drain_events.
    destruct (_ =? _); reflexivity.
  - unfold barrier_events. destruct (batch_events cs st) as [|ev evs]; [reflexivity|].
    apply (guarded_synced (ev :: evs)).
  - destruct (_ && _); reflexivity.
Qed.

Lemma grace_periods_batch_events cs st : grace_periods (batch_events cs st) = 0%nat.
Proof.
  unfold batch_events. induction (live_entries st) as [|e l IH]; [reflexivity|].
  simpl. rewrite grace_periods_app, grace_periods_call_events. exact IH.
Qed.

Lemma grace_periods_drain_events t d items :
  grace_periods (drain_events t d items) = if fill d =? 0 then 0%nat else 1%nat.
Proof.
  unfold drain_events. destruct (_ =? _); [reflexivity|].
  change (EvSynchronizeRcu :: call_events t items)
    with ([EvSynchronizeRcu] ++ call_events t items).
  rewrite grace_periods_app, grace_periods_call_events. reflexivity.
Qed.

Lemma grace_periods_call_log c cs st : (grace_periods (call_log c cs st) ≤ 1)%nat.
Proof.
  destruct c as [t qmem rmem | t | t fct p | t | |]; simpl.
  - destruct (_ =? _); vm_compute; lia.
  - change (EvRegistryRemove t :: ?l) with ([EvRegistryRemove t] ++ l).
    rewrite !grace_periods_app, grace_periods_drain_events.
    change (EvFreeQueue t :: ?l) with ([EvFreeQueue t] ++ l).
    rewrite grace_periods_app.
    assert (grace_periods (if num_deferers st =? 1 then stop_events st else []) = 0%nat)
      as ->.
    { destruct (_ =? _); [|reflexivity]. unfold stop_events.
      rewrite !grace_periods_app, grace_periods_wake_events. reflexivity. }
    destruct (_ =? _); vm_compute; lia.
  - rewrite grace_periods_app, grace_periods_wake_events.
    destruct (_ <=? _); [|vm_compute; lia].
    change (EvSynchronizeRcu :: ?l) with ([EvSynchronizeRcu] ++ l).
    rewrite grace_periods_app, grace_periods_call_events. vm_compute. lia.
  - rewrite grace_periods_drain_events. destruct (_ =? _); lia.
  - unfold barrier_events. pose proof (grace_periods_batch_events cs st) as Hb.
    destruct (batch_events cs st) as [|ev evs]; [vm_compute; lia|].
    change (EvSynchronizeRcu :: ev :: evs) with ([EvSynchronizeRcu] ++ ev :: evs).
    rewrite grace_periods_app, Hb. vm_compute. lia.
  - destruct (_ && _); vm_compute; lia.
Qed.

(** X3 (a grace period before the callbacks). Every call of the
    interface made within its preconditions in a reachable state returns
    normally, and in what it logs every invocation of a callback comes
    after a grace period of that same call; the call waits for at most one
    grace period; and the callbacks invoked by the time it returns had
    all been enqueued before it began, so a call never invokes the
    callback it enqueues. *)
Theorem grace_period_before_callbacks cs st c :
  reaches cs st → admissible c st →
  ∃ st' evs,
    do_call c st = Ok (tt, st') ∧
    trace st' = trace st ++ evs ∧
    guarded false evs = true ∧
    (grace_periods evs ≤ 1)%nat ∧
    ∀ t, calls t (trace st') `prefix_of` deferred t cs.
Proof.
  intros Hr Hadm. pose proof (reaches_inv _ _ Hr) as Hsys.
  destruct (do_call_log cs st c Hsys Hadm) as (st' & Hrun & Hsys' & Htr).
  exists st', (call_log c cs st). split; [exact Hrun|]. split; [exact Htr|].
  split; [apply guarded_call_log|]. split; [apply grace_periods_call_log|].
  intros t.
  assert (Hother : deferred_by t c = [] → calls t (trace st') `prefix_of` deferred t cs).
  { intros Hnone. destruct Hsys' as (_ & Hq' & _).
    destruct (Hq' t) as (items' & _ & Hc' & _).
    rewrite deferred_snoc, Hnone, app_nil_r in Hc'.
    exists items'. symmetry. exact Hc'. }
  destruct c as [t' qmem rmem | t' | t' fct p | t' | |]; try (apply Hother; reflexivity).
  destruct (decide (t' = t)) as [-> | Hne];
    [|apply Hother; simpl; destruct (decide (t' = t)); [contradiction | reflexivity]].
  destruct Hsys as (_ & Hq & _). destruct (Hq t) as (items & _ & Hc & _).
  rewrite Htr, calls_app, <- Hc. simpl.
  rewrite calls_app, calls_wake_events, app_nil_r, (pending_items _ _ _ _ Hc).
  apply prefix_app. destruct (_ <=? _).
  - rewrite calls_sync, calls_call_events. reflexivity.
  - apply prefix_nil.
Qed.

(** X4 (the log of a batch). In a reachable state [rcu_defer_barrier]
    returns normally and logs exactly this: nothing when no registered
    thread has a pending callback; otherwise one grace period, whatever
    the number of queues, and then the pending callbacks of the registered
    threads, queue after queue in the order of the registry, each queue in
    the order of submission. *)
Theorem barrier_log cs st :
  reaches cs st →
  ∃ st',
    rcu_defer_barrier st = Ok (tt, st') ∧
    trace st' = trace st ++ barrier_events cs st.
Proof.
  intros Hr. destruct (reaches_inv _ _ Hr) as (Hok & Hq & _).
  destruct (rcu_defer_barrier_exact cs st Hok Hq) as (st' & Hrun & Htr & _).
  exists st'. split; assumption.
Qed.

(** ** The registry along a run *)

Lemma registered_snoc st st' e :
  live_entries st' = live_entries st ++ [e] →
  ∀ t, registered t st' ↔ registered t st ∨ t = tid e.
Proof.
  intros Hlive t. unfold registered. rewrite Hlive, fmap_app, elem_of_app. simpl.
  rewrite list_elem_of_singleton. reflexivity.
Qed.

(** What a call does to the set of registered threads and to their
    number. *)
Lemma step_registry cs st c st' :
  sys_inv cs st → admissible c st → do_call c st = Ok (tt, st') →
  (∀ t, registered t st' ↔
        match c with
        | Register t' _ _ => registered t st ∨ t = t'
        | Unregister t' => registered t st ∧ t ≠ t'
        | _ => registered t st
        end) ∧
  num_deferers st' =
    match c with
    | Register _ _ _ => num_deferers st + 1
    | Unregister _ => num_deferers st - 1
    | _ => num_deferers st
    end.
Proof.
  intros (Hok & Hq & Hw) Hadm Hrun.
  destruct c as [t' qmem rmem | t' | t' fct p | t' | |]; simpl in Hrun, Hadm.
  - destruct Hadm as (_ & _ & (rg & ->) & Hnum).
    destruct (rcu_defer_register_thread_spec t' qmem rg st Hok Hnum)
      as (s & arr' & Hrun2 & _ & _ & _ & _ & Hn & _ & Hlive & _).
    rewrite Hrun in Hrun2. inversion Hrun2; subst s.
    split; [|exact Hn]. apply (registered_snoc st st' _ Hlive).
  - destruct (Hq t') as (items & Hinv & _).
    assert (Hw1 : workers st = 1%nat).
    { unfold worker_ok in Hw. rewrite Hw.
      pose proof (registered_num st t' Hok Hadm).
      destruct (Z.ltb_spec 0 (num_deferers st)); [reflexivity | lia]. }
    destruct (rcu_defer_unregister_thread_spec t' st items 0 Hok Hadm Hinv Hw1)
      as (s & k & e & arr' & Hk & Hid & Hrun2 & _ & _ & Hlive & Hn & _).
    rewrite Hrun in Hrun2. inversion Hrun2; subst s.
    split; [|exact Hn]. intros t.
    rewrite (registered_swap_remove st st' k e Hok Hk Hlive t), Hid. reflexivity.
  - destruct Hadm as (Hreg & _). destruct (Hq t') as (items & Hinv & _ & Hbuf & _).
    destruct (rcu_defer_queue_spec t' fct p st items Hinv (Hbuf Hreg))
      as (s & d' & Hrun2 & (_ & _ & (Hr & Hn & _) & _) & _).
    rewrite Hrun in Hrun2. inversion Hrun2; subst s.
    split; [|exact Hn]. intros t. apply registered_same, live_entries_same; assumption.
  - destruct (Hq t') as (items & Hinv & _).
    destruct (rcu_defer_barrier_thread_spec t' st items Hinv)
      as (s & Hrun2 & (_ & _ & (Hr & Hn & _) & _)).
    unfold rcu_defer_barrier_thread in Hrun.
    rewrite Hrun in Hrun2. inversion Hrun2; subst s.
    split; [|exact Hn]. intros t. apply registered_same, live_entries_same; assumption.
  - destruct (rcu_defer_barrier_spec cs st Hok Hq)
      as (s & Hrun2 & _ & _ & Htids & Hn & _).
    rewrite Hrun in Hrun2. inversion Hrun2; subst s.
    split; [|exact Hn]. intros t. apply registered_tids. exact Htids.
  - destruct (wait_defer_spec st Hok) as (s & evs & Hrun2 & _ & Hr & Hn & _).
    rewrite Hrun in Hrun2. inversion Hrun2; subst s.
    split; [|exact Hn]. intros t. apply registered_same, live_entries_same; assumption.
Qed.

Lemma registered_by_snoc t cs c :
  registered_by t (cs ++ [c]) =
  match c with
  | Register t' _ _ => if decide (t' = t) then true else registered_by t cs
  | Unregister t' => if decide (t' = t) then false else registered_by t cs
  | _ => registered_by t cs
  end.
Proof. unfold registered_by. rewrite foldl_app. reflexivity. Qed.

Lemma registrations_snoc cs c :
  registrations (cs ++ [c]) =
  match c with
  | Register _ _ _ => registrations cs + 1
  | Unregister _ => registrations cs - 1
  | _ => registrations cs
  end.
Proof. unfold registrations. rewrite foldl_app. reflexivity. Qed.

Lemma reaches_registry cs st :
  reaches cs st →
  (∀ t, registered t st ↔ registered_by t cs = true) ∧
  num_deferers st = registrations cs.
Proof.
  revert cs st. apply reaches_ind_snoc.
  - split; [|reflexivity]. intros t. unfold registered. simpl. split.
    + intros Hin. inversion Hin.
    + discriminate.
  - intros cs st c st' Hr (IHreg & IHnum) Hadm Hrun.
    destruct (step_registry cs st c st' (reaches_inv _ _ Hr) Hadm Hrun) as (Hreg & Hnum).
    split.
    + intros t. rewrite Hreg, registered_by_snoc.
      destruct c as [t' qmem rmem | t' | t' fct p | t' | |]; try apply IHreg.
      * destruct (decide (t' = t)) as [-> | Hne]; [tauto|].
        rewrite IHreg. split; [intros [?|?]; [assumption | congruence] | tauto].
      * destruct (decide (t' = t)) as [-> | Hne].
        { split; [tauto | discriminate]. }
        rewrite IHreg. split; [tauto | intros; split; [assumption | congruence]].
    + rewrite Hnum, registrations_snoc, IHnum. destruct c; reflexivity.
Qed.

(** X5 (the registry follows the schedule). In every reachable state the
    registered threads are exactly those whose last registration in the
    schedule has no later unregistration, and the count of the registry
    is the number of registrations less the number of unregistrations. *)
Theorem registry_follows_schedule cs st :
  reaches cs st →
  (∀ t, registered t st ↔ registered_by t cs = true) ∧
  num_deferers st = registrations cs.
Proof. apply reaches_registry. Qed.

(** ** Calls by a thread that is not registered *)

Lemma store_slot_null queue i v st :
  dq_q (tls_get queue st) = None → store_slot queue i v st = Fail Segfault.
Proof.
  intros Hq. unfold store_slot. rewrite (bind_eval _ _ _ _ _ (load_dq_eval _ _)).
  rewrite Hq. reflexivity.
Qed.

Lemma rcu_defer_queue_null self fct p st :
  dq_q (tls_get self st) = None → fill (tls_get self st) = 0 →
  _rcu_defer_queue self fct p st = Fail Segfault.
Proof.
  intros Hq Hz. pose proof size_bounds as Hsz. unfold _rcu_defer_queue.
  rewrite (bind_eval _ _ _ _ _ (load_dq_eval _ _)). cbv beta zeta.
  unfold fill in Hz. rewrite Hz.
  replace (wrap (DEFER_QUEUE_SIZE - 2) <=? 0) with false
    by (symmetry; apply Z.leb_gt; wrap_solve).
  mred.
  destruct (negb (dq_last_fct_in (tls_get self st) =? fct)).
  - destruct (DQ_IS_FCT_BIT fct || (fct =? DQ_FCT_MARK)); mred;
      rewrite store_slot_null; try reflexivity;
      rewrite tls_get_put_eq; exact Hq.
  - destruct (DQ_IS_FCT_BIT p || (p =? DQ_FCT_MARK)); mred;
      rewrite store_slot_null; try reflexivity; exact Hq.
Qed.

(** X6 (calls by a thread that is not registered). In a reachable state,
    for a thread that is not registered (it never registered, or it has
    unregistered since): an enqueue faults on the null buffer of its
    queue, whatever the function and the argument, there is no check;
    [rcu_defer_unregister_thread] fails the assertion of
    [rcu_remove_deferer]; and [rcu_defer_barrier_thread] returns at once
    and changes nothing. *)
Theorem unregistered_thread_calls cs st t :
  reaches cs st → ¬ registered t st →
  (∀ fct p, _rcu_defer_queue t fct p st = Fail Segfault) ∧
  rcu_defer_unregister_thread t st = Fail AssertFailed ∧
  rcu_defer_barrier_thread t st = Ok (tt, st).
Proof.
  intros Hr Hnot. destruct (reaches_inv _ _ Hr) as (Hok & Hq & _).
  destruct (Hq t) as (items & Hinv & _ & _ & Hnone).
  specialize (Hnone Hnot).
  destruct (queue_inv_no_buffer _ _ Hinv Hnone) as (-> & Hhead & _).
  pose proof (queue_inv_nil_fill _ Hinv) as Hz.
  split; [|split].
  - intros fct p. apply rcu_defer_queue_null; assumption.
  - unfold rcu_defer_unregister_thread. apply bind_fail.
    apply rcu_remove_deferer_not_found; assumption.
  - unfold rcu_defer_barrier_thread, _rcu_defer_barrier_thread.
    rewrite (bind_eval _ _ _ _ _ (load_dq_eval _ _)). cbv beta zeta.
    unfold fill in Hz. rewrite Hz. reflexivity.
Qed.

(** ** Calls act on the queue of their caller *)

Lemma calls_stop_events t st (b : bool) :
  calls t (if b then stop_events st else []) = [].
Proof.
  destruct b; [|reflexivity].
  unfold stop_events. rewrite !calls_app, calls_wake_events. reflexivity.
Qed.

Lemma calls_call_log_other c cs st t t' :
  caller c = Some t → t' ≠ t → calls t' (call_log c cs st) = [].
Proof.
  intros Hc Hne.
  destruct c as [t0 qmem rmem | t0 | t0 fct p | t0 | |]; simpl in Hc;
    inversion Hc; subst t0; simpl.
  - destruct (_ =? _); reflexivity.
  - rewrite calls_app, calls_drain_events. simpl. rewrite calls_stop_events.
    destruct (decide (t = t')); [congruence | reflexivity].
  - rewrite calls_app, calls_wake_events, app_nil_r.
    destruct (_ <=? _); [|reflexivity].
    rewrite calls_sync. apply calls_call_events_ne. congruence.
  - rewrite calls_drain_events. destruct (decide (t = t')); [congruence | reflexivity].
Qed.

Lemma step_frame cs st c st' t :
  sys_inv cs st → admissible c st → do_call c st = Ok (tt, st') →
  caller c = Some t →
  ∀ t', t' ≠ t → tls_get t' st' = tls_get t' st.
Proof.
  intros (Hok & Hq & Hw) Hadm Hrun Hc.
  destruct c as [t0 qmem rmem | t0 | t0 fct p | t0 | |]; simpl in Hc;
    inversion Hc; subst t0; simpl in Hrun, Hadm.
  - destruct Hadm as (_ & _ & (rg & ->) & Hnum).
    destruct (rcu_defer_register_thread_spec t qmem rg st Hok Hnum)
      as (s & arr' & Hrun2 & _ & _ & _ & _ & _ & _ & _ & _ & Hoth & _).
    rewrite Hrun in Hrun2. inversion Hrun2; subst s. exact Hoth.
  - destruct (Hq t) as (items & Hinv & _).
    assert (Hw1 : workers st = 1%nat).
    { unfold worker_ok in Hw. rewrite Hw.
      pose proof (registered_num st t Hok Hadm).
      destruct (Z.ltb_spec 0 (num_deferers st)); [reflexivity | lia]. }
    destruct (rcu_defer_unregister_thread_spec t st items 0 Hok Hadm Hinv Hw1)
      as (s & k & e & arr' & _ & _ & Hrun2 & _ & _ & _ & _ & _ & _ & Hoth & _).
    rewrite Hrun in Hrun2. inversion Hrun2; subst s. exact Hoth.
  - destruct Hadm as (Hreg & _). destruct (Hq t) as (items & Hinv & _ & Hbuf & _).
    destruct (rcu_defer_queue_spec t fct p st items Hinv (Hbuf Hreg))
      as (s & d' & Hrun2 & (_ & Hoth & _) & _).
    rewrite Hrun in Hrun2. inversion Hrun2; subst s. exact Hoth.
  - destruct (Hq t) as (items & Hinv & _).
    destruct (rcu_defer_barrier_thread_spec t st items Hinv)
      as (s & Hrun2 & (_ & Hoth & _)).
    unfold rcu_defer_barrier_thread in Hrun.
    rewrite Hrun in Hrun2. inversion Hrun2; subst s. exact Hoth.
Qed.

(** X7 (a call acts on the queue of its caller only). A registration, an
    unregistration, an enqueue or [rcu_defer_barrier_thread] by thread
    [t], made within its preconditions in a reachable state, leaves the
    queue of every other thread as it is and invokes no callback of
    another thread: what the other threads have pending stays pending. *)
Theorem call_leaves_other_queues cs st c t :
  reaches cs st → admissible c st → caller c = Some t →
  ∃ st',
    do_call c st = Ok (tt, st') ∧
    ∀ t', t' ≠ t →
      tls_get t' st' = tls_get t' st ∧
      calls t' (trace st') = calls t' (trace st) ∧
      pending t' (cs ++ [c]) (trace st') = pending t' cs (trace st).
Proof.
  intros Hr Hadm Hc. pose proof (reaches_inv _ _ Hr) as Hsys.
  destruct (do_call_log cs st c Hsys Hadm) as (st' & Hrun & _ & Htr).
  exists st'. split; [exact Hrun|]. intros t' Hne.
  assert (Hcalls : calls t' (trace st') = calls t' (trace st)).
  { rewrite Htr, calls_app, (calls_call_log_other c cs st t t' Hc Hne).
    apply app_nil_r. }
  split; [exact (step_frame cs st c st' t Hsys Hadm Hrun Hc t' Hne)|].
  split; [exact Hcalls|].
  unfold pending. rewrite Hcalls, deferred_snoc. f_equal.
  assert (Hby : deferred_by t' c = []).
  { destruct c as [t0 qmem rmem | t0 | t0 fct p | t0 | |]; try reflexivity.
    simpl in Hc. inversion Hc; subst t0. simpl.
    destruct (decide (t = t')); [congruence | reflexivity]. }
  rewrite Hby. apply app_nil_r.
Qed.

(** ** A registration undone by an unregistration *)

Lemma swap_remove_last live e :
  swap_remove (length live) (live ++ [e]) = live.
Proof.
  unfold swap_remove. rewrite length_app. simpl.
  replace (length live + 1 - 1)%nat with (length live) by lia.
  rewrite take_insert_ge by lia. apply take_app_length.
Qed.

Lemma unregistered_queue_id d :
  dq_q d = None → dq_head d = dq_tail d → dq_last_fct_in d = dq_last_fct_out d →
  ∀ q, unregistered_queue (set_dq_q q d) = d.
Proof.
  destruct d as [h fi tl fo q0]. simpl. intros -> -> -> q. reflexivity.
Qed.

(** X8 (registering and unregistering at once). When a thread that is
    not registered registers and then unregisters, both calls return
    normally; the entries in use of the registry and their count are as
    before, and so are the queues of all threads, the unregistered one
    with a null buffer again, and the number of reclamation threads. No
    grace period is waited for and no callback is invoked: the log gains
    the addition and the removal of the entry and the release of the
    buffer, with the creation, cancellation and join of the reclamation
    thread in between when no other thread was registered. *)
Theorem register_unregister_roundtrip cs st t qg rg :
  reaches cs st → admissible (Register t (Some qg) (Some rg)) st →
  ∃ st1 st2,
    rcu_defer_register_thread t (Some qg) (Some rg) st = Ok (tt, st1) ∧
    rcu_defer_unregister_thread t st1 = Ok (tt, st2) ∧
    live_entries st2 = live_entries st ∧
    num_deferers st2 = num_deferers st ∧
    (∀ t', tls_get t' st2 = tls_get t' st) ∧
    workers st2 = workers st ∧
    trace st2 =
      trace st ++
      [EvRegistryAdd t] ++ (if num_deferers st =? 0 then [EvPthreadCreate] else []) ++
      [EvRegistryRemove t; EvFreeQueue t] ++
      (if num_deferers st =? 0 then stop_events st else []).
Proof.
  intros Hr Hadm. pose proof (reaches_inv _ _ Hr) as Hsys.
  pose proof Hsys as (Hok & Hq & Hw).
  pose proof Hadm as (Hnot & _ & _ & Hnum).
  destruct (step_ok cs st _ Hsys Hadm) as (st1 & Hrun1 & Hsys1). simpl in Hrun1.
  destruct (rcu_defer_register_thread_spec t (Some qg) rg st Hok Hnum)
    as (s & arr1 & Hrun1' & _ & _ & _ & _ & Hn1 & _ & Hlive1 & Hself1 & Hoth1
        & Hwk1 & Hfut1 & Htr1).
  rewrite Hrun1 in Hrun1'. inversion Hrun1'; subst s.
  pose proof Hsys1 as (Hok1 & Hq1 & Hw1).
  assert (Hreg1 : registered t st1).
  { apply (registered_snoc st st1 _ Hlive1). right. reflexivity. }
  destruct (Hq t) as (items & Hinv & _ & _ & Hnone). specialize (Hnone Hnot).
  destruct (queue_inv_no_buffer _ _ Hinv Hnone) as (-> & Hhead & Hfct).
  assert (Hinv1 : queue_inv (tls_get t st1) []).
  { rewrite Hself1. destruct Hinv as (Hword & _).
    apply queue_inv_nil; simpl; assumption. }
  assert (Hwk : workers st1 = 1%nat).
  { unfold worker_ok in Hw1. rewrite Hw1.
    pose proof (registry_ok_num st Hok).
    destruct (Z.ltb_spec 0 (num_deferers st1)); [reflexivity | lia]. }
  destruct (rcu_defer_unregister_thread_spec t st1 [] 0 Hok1 Hreg1 Hinv1 Hwk)
    as (st2 & k & e & arr2 & Hk & Hid & Hrun2 & _ & _ & Hlive2 & Hn2 & _ & Hself2
        & Hoth2 & Hwk2 & _ & Htr2).
  assert (Hklast : k = length (live_entries st)).
  { eapply (live_tid_inj st1 k _ e (new_entry t t) Hok1 Hk).
    - rewrite Hlive1. apply list_lookup_middle. reflexivity.
    - exact Hid. }
  exists st1, st2. split; [exact Hrun1|]. split; [exact Hrun2|].
  split; [rewrite Hlive2, Hlive1, Hklast; apply swap_remove_last|].
  split; [lia|]. split; [|split].
  - intros t'. destruct (decide (t' = t)) as [-> | Hne].
    + rewrite Hself2, Hself1. apply unregistered_queue_id; assumption.
    + rewrite Hoth2, Hoth1 by exact Hne. reflexivity.
  - rewrite Hwk2. unfold worker_ok in Hw. rewrite Hw, Hn1.
    pose proof (registry_ok_num st Hok).
    destruct (Z.eqb_spec (num_deferers st + 1) 1), (Z.ltb_spec 0 (num_deferers st));
      try reflexivity; lia.
  - rewrite Htr2, Htr1, Hn1, <- !app_assoc. do 2 f_equal.
    assert (Hd : drain_events t (tls_get t st1) [] = []).
    { unfold drain_events. rewrite (queue_inv_nil_fill _ Hinv1). reflexivity. }
    rewrite Hd. simpl.
    replace (num_deferers st + 1 =? 1) with (num_deferers st =? 0)
      by (destruct (Z.eqb_spec (num_deferers st) 0),
                   (Z.eqb_spec (num_deferers st + 1) 1); lia).
    destruct (num_deferers st =? 0); [|reflexivity].
    unfold stop_events, wake_events. rewrite Hfut1. reflexivity.
Qed.

(** ** The reclamation thread: counting, waiting, waking *)

Lemma batch_length_fill cs st l :
  queues_ok cs st →
  Z.of_nat (length
    (mjoin ((λ e, call_events (tid e) (pending (tid e) cs (trace st))) <$> l)))
    <= total_fill st l
  ∧ total_fill st l <=
    3 * Z.of_nat (length
      (mjoin ((λ e, call_events (tid e) (pending (tid e) cs (trace st))) <$> l))).
Proof.
  intros Hq. induction l as [|e l IH]; [simpl; lia|].
  rewrite fmap_cons.
  change (total_fill st (e :: l)) with (fill (tls_get (tid e) st) + total_fill st l).
  match goal with
  | |- context [mjoin (?x :: ?xs)] => change (mjoin (x :: xs)) with (x ++ mjoin xs)
  end.
  rewrite length_app. unfold call_events at 1 3. rewrite length_fmap.
  destruct (Hq (tid e)) as (items & Hinv & Hc & _).
  rewrite (pending_items _ _ _ _ Hc).
  destruct (queue_inv_fill _ _ Hinv) as (_ & _ & Henc).
  pose proof (encodes_nonneg _ _ _ _ _ _ Henc) as (_ & Hlo).
  pose proof (encodes_upper _ _ _ _ _ _ Henc) as Hhi.
  lia.
Qed.

(** X9 (what [rcu_defer_num_callbacks] counts). In a reachable state
    [rcu_defer_num_callbacks] leaves the state as it is and returns the
    number of slots in use in the queues of the registered threads, not
    the number of their pending callbacks: the result lies between that
    number and three times that number, and so it is zero exactly when no
    registered thread has a pending callback. *)
Theorem num_callbacks_counts_slots cs st :
  reaches cs st →
  let k := Z.of_nat (length (batch_events cs st)) in
  ∃ n,
    rcu_defer_num_callbacks st = Ok (n, st) ∧
    n = total_fill st (live_entries st) ∧
    k <= n <= 3 * k.
Proof.
  intros Hr k. destruct (reaches_inv _ _ Hr) as (Hok & Hq & _).
  exists (total_fill st (live_entries st)). split; [|split; [reflexivity|]].
  - rewrite (rcu_defer_num_callbacks_spec st Hok), (total_fill_word cs st Hok Hq).
    reflexivity.
  - apply (batch_length_fill cs st (live_entries st) Hq).
Qed.

(** X10 ([wait_defer] sleeps only when there is nothing to do). In a
    reachable state [wait_defer] returns normally and leaves the queues
    and the registry as they are. When a registered thread has a pending
    callback it sets the futex to 0 and makes no system call; otherwise
    it leaves the futex decremented, and it waits on the futex exactly
    when the futex was 0 at entry. *)
Theorem wait_defer_sleeps_when_idle cs st :
  reaches cs st →
  let idle := bool_decide (batch_events cs st = []) in
  ∃ st',
    wait_defer st = Ok (tt, st') ∧
    (∀ t, tls_get t st' = tls_get t st) ∧
    registry st' = registry st ∧
    num_deferers st' = num_deferers st ∧
    defer_thread_futex st' = (if idle then defer_thread_futex st - 1 else 0) ∧
    trace st' = trace st ++
                (if idle && (defer_thread_futex st =? 0) then [EvFutexWait] else []).
Proof.
  intros Hr idle. destruct (reaches_inv _ _ Hr) as (Hok & Hq & _).
  destruct (wait_defer_exact cs st Hok Hq)
    as (st' & Hrun & Htls & Hreg & Hnum & _ & _ & Hfut & Htr).
  assert (Hidle : idle = (total_fill st (live_entries st) =? 0)).
  { unfold idle. pose proof (batch_events_nil cs st Hq) as Hnil.
    destruct (Z.eqb_spec (total_fill st (live_entries st)) 0) as [Hz | Hnz].
    - apply bool_decide_eq_true. apply Hnil. exact Hz.
    - apply bool_decide_eq_false. intros Hb. apply Hnz, Hnil. exact Hb. }
  exists st'. split; [exact Hrun|]. split.
  { intros t. unfold tls_get. rewrite Htls. reflexivity. }
  split; [exact Hreg|]. split; [exact Hnum|].
  rewrite Hidle. split; assumption.
Qed.


(** ** The passes of the reclamation thread *)

Lemma total_fill_same st st' l :
  (∀ t, tls_get t st' = tls_get t st) → total_fill st' l = total_fill st l.
Proof.
  intros Hget. induction l as [|e l IH]; [reflexivity|].
  simpl. rewrite Hget, IH. reflexivity.
Qed.

Lemma total_fill_all_zero st l :
  (∀ e, e ∈ l → fill (tls_get (tid e) st) = 0) → total_fill st l = 0.
Proof.
  induction l as [|e l IH]; intros Hall; [reflexivity|].
  simpl. rewrite (Hall e), IH; [reflexivity | | left].
  intros e' He'. apply Hall. right. exact He'.
Qed.

(** One pass: [wait_defer] and then [rcu_defer_barrier]. *)
Lemma thr_defer_pass cs st :
  registry_ok st → queues_ok cs st →
  ∃ st',
    (wait_defer;; rcu_defer_barrier) st = Ok (tt, st') ∧
    registry_ok st' ∧ queues_ok cs st' ∧
    tid <$> live_entries st' = tid <$> live_entries st ∧
    (∀ t, registered t st → fill (tls_get t st') = 0) ∧
    grace_periods (trace st') =
      (grace_periods (trace st) +
       if (total_fill st (live_entries st) =? 0)%Z then 0 else 1)%nat.
Proof.
  intros Hok Hq.
  destruct (wait_defer_spec st Hok)
    as (st1 & evs1 & Hrun1 & Htls1 & Hreg1 & Hnum1 & Hall1 & Hwk1 & Htr1 & Hevs1).
  assert (Hget : ∀ t, tls_get t st1 = tls_get t st).
  { intros t. unfold tls_get. rewrite Htls1. reflexivity. }
  pose proof (live_entries_same st st1 Hreg1 Hnum1) as Hlive1.
  assert (Hcalls : ∀ t, calls t (trace st1) = calls t (trace st)).
  { intros t. rewrite Htr1, calls_app.
    destruct Hevs1 as [-> | ->]; simpl; apply app_nil_r. }
  assert (Hgp1 : grace_periods (trace st1) = grace_periods (trace st)).
  { rewrite Htr1, grace_periods_app.
    destruct Hevs1 as [-> | ->];
      [change (grace_periods []) with 0%nat
      |change (grace_periods [EvFutexWait]) with 0%nat]; lia. }
  assert (Hok1 : registry_ok st1).
  { apply (registry_ok_same st st1); [unfold same_globals; tauto | exact Hok]. }
  assert (Hq1 : queues_ok cs st1).
  { apply (queues_ok_transfer cs st st1 Hget Hcalls); [|exact Hq].
    intros t. apply registered_same. exact Hlive1. }
  destruct (rcu_defer_barrier_spec cs st1 Hok1 Hq1)
    as (st' & Hrun & Hok' & Hq' & Htids & _ & _ & _ & _ & Hz & _ & evs & Htr & Hnil & Hone).
  exists st'. split.
  { erewrite bind_eval; [|exact Hrun1]. exact Hrun. }
  split; [exact Hok'|]. split; [exact Hq'|].
  split; [rewrite Htids, Hlive1; reflexivity|]. split.
  - intros t Ht. apply Hz. apply (registered_same st st1 t Hlive1). exact Ht.
  - rewrite Htr, grace_periods_app, Hgp1. f_equal.
    rewrite Hlive1, (total_fill_same st st1 _ Hget) in Hnil, Hone.
    destruct (Z.eqb_spec (total_fill st (live_entries st)) 0) as [Hzero | Hnz].
    + rewrite (Hnil Hzero). reflexivity.
    + apply Hone. exact Hnz.
Qed.

Lemma thr_defer_run cs n : ∀ st,
  registry_ok st → queues_ok cs st →
  ∃ st',
    thr_defer n st = Ok (tt, st') ∧
    registry_ok st' ∧ queues_ok cs st' ∧
    tid <$> live_entries st' = tid <$> live_entries st ∧
    (∀ t, registered t st → (n = 0%nat → fill (tls_get t st) = 0) →
          fill (tls_get t st') = 0) ∧
    grace_periods (trace st') =
      (grace_periods (trace st) +
       if (n =? 0)%nat || (total_fill st (live_entries st) =? 0)%Z then 0 else 1)%nat.
Proof.
  induction n as [|n IH]; intros st Hok Hq.
  - exists st. split; [reflexivity|]. split; [exact Hok|]. split; [exact Hq|].
    split; [reflexivity|]. split; [auto|]. simpl. lia.
  - destruct (thr_defer_pass cs st Hok Hq)
      as (st1 & Hrun1 & Hok1 & Hq1 & Htids1 & Hz1 & Hgp1).
    destruct (IH st1 Hok1 Hq1) as (st' & Hrun & Hok' & Hq' & Htids & Hz & Hgp).
    exists st'. split.
    { change (thr_defer (S n)) with (wait_defer;; rcu_defer_barrier;; thr_defer n).
      unfold mbind, M_bind in Hrun1 |- *.
      destruct (wait_defer st) as [[[] s1]|]; [|discriminate].
      rewrite Hrun1. exact Hrun. }
    split; [exact Hok'|]. split; [exact Hq'|].
    split; [rewrite Htids; exact Htids1|]. split.
    + intros t Ht _. apply Hz.
      * apply (registered_tids st st1 t Htids1). exact Ht.
      * intros _. apply Hz1. exact Ht.
    + rewrite Hgp, Hgp1.
      assert (Hzero : total_fill st1 (live_entries st1) = 0).
      { apply total_fill_all_zero. intros e He. apply Hz1.
        apply (registered_tids st st1 _ Htids1). unfold registered.
        apply list_elem_of_fmap. exists e. split; [reflexivity | exact He]. }
      rewrite Hzero. simpl. rewrite orb_true_r. lia.
Qed.

(** X12 (the passes of the reclamation thread). In a reachable state,
    one or more passes of the loop of [thr_defer], each [wait_defer]
    followed by [rcu_defer_barrier], return normally. After them every
    callback enqueued by a registered thread has been invoked. The
    passes wait for one grace period in all when a registered thread had
    a pending callback and for none otherwise, however many they are: an
    idle reclamation thread causes no grace period. *)
Theorem thr_defer_passes cs st n :
  reaches cs st →
  ∃ st',
    thr_defer (S n) st = Ok (tt, st') ∧
    (∀ t, registered t st → calls t (trace st') = deferred t cs) ∧
    grace_periods (trace st') =
      (grace_periods (trace st) +
       if bool_decide (batch_events cs st = []) then 0 else 1)%nat.
Proof.
  intros Hr. destruct (reaches_inv _ _ Hr) as (Hok & Hq & _).
  destruct (thr_defer_run cs (S n) st Hok Hq)
    as (st' & Hrun & _ & Hq' & _ & Hz & Hgp).
  exists st'. split; [exact Hrun|]. split.
  - intros t Ht. destruct (Hq' t) as (items & Hinv & Hc & _).
    assert (Hfill : fill (tls_get t st') = 0) by (apply Hz; [exact Ht | discriminate]).
    destruct (queue_inv_empty _ _ Hinv Hfill) as (-> & _).
    rewrite app_nil_r in Hc. exact Hc.
  - rewrite Hgp. simpl. f_equal.
    pose proof (batch_events_nil cs st Hq) as Hnil.
    destruct (Z.eqb_spec (total_fill st (live_entries st)) 0) as [Hzero | Hnz].
    + rewrite bool_decide_eq_true_2 by (apply Hnil; exact Hzero). reflexivity.
    + rewrite bool_decide_eq_false_2; [reflexivity|].
      intros Hb. apply Hnz, Hnil. exact Hb.
Qed.

(** ** Draining up to an earlier head *)

(** A drain in two steps, up to a head between two callbacks and then up
    to a later one. *)
Lemma drain_in_two queue st pre post n1 n2 g f' :
  let d := tls_get queue st in
  is_word (dq_tail d) →
  encodes (default [] (dq_q d)) (dq_tail d) (dq_last_fct_out d) pre n1 g →
  encodes (default [] (dq_q d)) (wrap (dq_tail d + n1)) g post n2 f' →
  n1 + n2 < word_modulus →
  ∃ st2 st3,
    rcu_defer_barrier_queue queue (wrap (dq_tail d + n1)) st = Ok (tt, st2) ∧
    trace st2 = trace st ++ call_events queue pre ∧
    dq_tail (tls_get queue st2) = wrap (dq_tail d + n1) ∧
    rcu_defer_barrier_queue queue (wrap (dq_tail d + (n1 + n2))) st2 = Ok (tt, st3) ∧
    trace st3 = trace st2 ++ call_events queue post.
Proof.
  intros d Hw Hpre Hpost Hn.
  pose proof (encodes_nonneg _ _ _ _ _ _ Hpre) as (Hn1 & _).
  pose proof (encodes_nonneg _ _ _ _ _ _ Hpost) as (Hn2 & _).
  destruct (rcu_defer_barrier_queue_spec queue (wrap (dq_tail d + n1)) st pre n1 g)
    as (st2 & Hrun2 & (Hd2 & _ & _ & _ & Htr2)); try assumption; try lia; [reflexivity|].
  fold d in Hd2.
  destruct (rcu_defer_barrier_queue_spec queue (wrap (dq_tail d + (n1 + n2))) st2 post n2 f')
    as (st3 & Hrun3 & (_ & _ & _ & _ & Htr3)).
  - rewrite Hd2. simpl. apply wrap_word.
  - rewrite Hd2. simpl. exact Hpost.
  - lia.
  - rewrite Hd2. simpl. rewrite wrap_add_l. f_equal. lia.
  - exists st2, st3. split; [exact Hrun2|]. split; [exact Htr2|].
    split; [rewrite Hd2; reflexivity|]. split; [exact Hrun3 | exact Htr3].
Qed.

Section Enqueued.

Variables (d : defer_queue) (fct p : Z) (slots : list Z).
Hypothesis Hlen : length slots = Z.to_nat DEFER_QUEUE_SIZE.

(** The slots an enqueue writes encode the new callback, from the head. *)
Lemma enqueue_slots_single :
  encodes (enqueue_slots d fct p slots).2 (dq_head d) (dq_last_fct_in d)
          [(fct, p)] (enqueue_slots d fct p slots).1 fct.
Proof.
  unfold enqueue_slots.
  destruct (negb (dq_last_fct_in d =? fct)) eqn:Hnew.
  - destruct (DQ_IS_FCT_BIT fct || (fct =? DQ_FCT_MARK)) eqn:Hesc; simpl.
    + apply single_mark. exact Hlen.
    + apply orb_false_iff in Hesc as (Hb & _).
      rewrite <- (clear_set_fct_bit fct Hb) at 2 3.
      apply single_fct; [exact Hlen | apply is_fct_bit_set].
  - apply negb_false_iff, Z.eqb_eq in Hnew.
    destruct (DQ_IS_FCT_BIT p || (p =? DQ_FCT_MARK)) eqn:Hesc; simpl.
    + apply single_mark. exact Hlen.
    + apply orb_false_iff in Hesc as (Hb & Hm). apply Z.eqb_neq in Hm.
      rewrite Hnew. apply single_arg; assumption.
Qed.

(** They leave the callbacks already encoded as they are. *)
Lemma enqueue_slots_prefix tl f items n f' :
  encodes slots tl f items n f' → n + 3 <= DEFER_QUEUE_SIZE →
  dq_head d = wrap (tl + n) →
  encodes (enqueue_slots d fct p slots).2 tl f items n f'.
Proof.
  intros Henc Hroom Hhead. unfold enqueue_slots. rewrite Hhead.
  assert (H3 : encodes
    (<[slot_index (wrap (wrap (wrap (tl + n) + 1) + 1)) := p]>
       (<[slot_index (wrap (wrap (tl + n) + 1)) := fct]>
          (<[slot_index (wrap (tl + n)) := DQ_FCT_MARK]> slots))) tl f items n f').
  { apply (encodes_insert_ahead _ _ _ _ _ _ 2); [| lia | lia | wrap_solve].
    apply (encodes_insert_ahead _ _ _ _ _ _ 1); [| lia | lia | wrap_solve].
    apply (encodes_insert_ahead _ _ _ _ _ _ 0); [exact Henc | lia | lia | wrap_solve]. }
  destruct (negb _).
  - destruct (_ || _); simpl; [exact H3|].
    apply (encodes_insert_ahead _ _ _ _ _ _ 1); [| lia | lia | wrap_solve].
    apply (encodes_insert_ahead _ _ _ _ _ _ 0); [exact Henc | lia | lia | wrap_solve].
  - destruct (_ || _); simpl; [exact H3|].
    apply (encodes_insert_ahead _ _ _ _ _ _ 0); [exact Henc | lia | lia | wrap_solve].
Qed.

End Enqueued.

(** X13 (a drain up to an earlier head). In a reachable state, let a
    registered thread enqueue a callback. A drain of its queue up to the
    head the queue had before the enqueue then returns normally and
    leaves the new callback in the queue: the callbacks invoked are those
    enqueued earlier and the tail stops at that head. A further drain up
    to the present head invokes the new callback. *)
Theorem drain_up_to_earlier_head cs st t fct p :
  reaches cs st → registered t st →
  ∃ st1 st2 st3,
    _rcu_defer_queue t fct p st = Ok (tt, st1) ∧
    rcu_defer_barrier_queue t (dq_head (tls_get t st)) st1 = Ok (tt, st2) ∧
    calls t (trace st2) = deferred t cs ∧
    dq_tail (tls_get t st2) = dq_head (tls_get t st) ∧
    rcu_defer_barrier_queue t (dq_head (tls_get t st1)) st2 = Ok (tt, st3) ∧
    calls t (trace st3) = deferred t cs ++ [(fct, p)].
Proof.
  intros Hr Hreg. destruct (reaches_inv _ _ Hr) as (Hok & Hq & _).
  destruct (Hq t) as (items & Hinv & Hc & Hbuf & _). specialize (Hbuf Hreg).
  set (d := tls_get t st) in *.
  destruct (queue_inv_fill _ _ Hinv) as (Hfill & Hwh & Henc).
  pose proof Hinv as (Hwt & _).
  pose proof size_bounds as Hsz.
  assert (Hhead : dq_head d = wrap (dq_tail d + fill d)).
  { unfold fill. wrap_solve. }
  destruct (Z.le_gt_cases (DEFER_QUEUE_SIZE - 2) (fill d)) as [Hslow | Hfast].
  - destruct (rcu_defer_queue_spec t fct p st items Hinv Hbuf)
      as (st1 & d1 & Hrun1 & (Hd1 & _ & _ & _ & Htr1) & Hinv1 & _ & Htail1 & _).
    fold d in Htr1, Hinv1, Htail1.
    rewrite (proj2 (Z.leb_le _ _) Hslow) in Htr1, Hinv1, Htail1. simpl in Hinv1.
    destruct (queue_inv_fill _ _ Hinv1) as (Hfill1 & Hwh1 & Henc1).
    pose proof Hinv1 as (Hwt1 & _).
    destruct (drain_in_two t st1 [] [(fct, p)] 0 (fill d1)
                (dq_last_fct_out d1) (dq_last_fct_in d1))
      as (st2 & st3 & Hrun2 & Htr2 & Htail2 & Hrun3 & Htr3);
      rewrite ?Hd1; try assumption; try lia.
    { constructor. }
    { rewrite Z.add_0_r, (wrap_id _ Hwt1). exact Henc1. }
    rewrite Hd1, Z.add_0_r, (wrap_id _ Hwt1), Htail1 in Hrun2, Htail2.
    rewrite Hd1 in Hrun3.
    replace (wrap (dq_tail d1 + (0 + fill d1))) with (dq_head d1) in Hrun3
      by (unfold fill; wrap_solve).
    rewrite <- Hd1 in Hrun3 at 1.
    exists st1, st2, st3. split; [exact Hrun1|]. split; [exact Hrun2|].
    assert (Hc2 : calls t (trace st2) = deferred t cs).
    { rewrite Htr2, Htr1, !calls_app, calls_sync, calls_call_events, calls_wake_events.
      simpl. rewrite !app_nil_r. exact Hc. }
    split; [exact Hc2|]. split; [exact Htail2|]. split; [exact Hrun3|].
    rewrite Htr3, calls_app, Hc2, calls_call_events. reflexivity.
  - destruct Hbuf as (slots & Hslots & Hlen).
    destruct (rcu_defer_queue_fast_exact t fct p st items slots Hinv Hslots Hlen Hfast)
      as (st1 & Hrun1 & (Hd1 & _ & _ & _ & Htr1) & Hk & Hlen1 & _).
    fold d in Hd1. rewrite Hslots in Henc. simpl in Henc.
    set (k := (enqueue_slots d fct p slots).1) in *.
    set (slots1 := (enqueue_slots d fct p slots).2) in *.
    destruct (drain_in_two t st1 items [(fct, p)] (fill d) k
                (dq_last_fct_in d) fct)
      as (st2 & st3 & Hrun2 & Htr2 & Htail2 & Hrun3 & Htr3);
      rewrite ?Hd1; simpl; try assumption.
    { apply enqueue_slots_prefix; [exact Hlen | exact Henc | lia | exact Hhead]. }
    { rewrite <- Hhead. apply enqueue_slots_single. exact Hlen. }
    { fold d in Hk. fold k in Hk. lia. }
    rewrite Hd1 in Hrun2, Htail2, Hrun3. simpl in Hrun2, Htail2, Hrun3.
    rewrite <- Hhead in Hrun2, Htail2.
    exists st1, st2, st3. split; [exact Hrun1|]. split; [exact Hrun2|].
    assert (Hc2 : calls t (trace st2) = deferred t cs).
    { rewrite Htr2, Htr1, !calls_app, calls_call_events, calls_wake_events.
      simpl. rewrite !app_nil_r. exact Hc. }
    split; [exact Hc2|]. split; [exact Htail2|].
    split; [rewrite Hd1; exact Hrun3|].
    rewrite Htr3, calls_app, Hc2, calls_call_events. reflexivity.
Qed.

(** ** The capacity of the registry *)

Lemma step_capacity cs st c st' :
  sys_inv cs st → admissible c st → do_call c st = Ok (tt, st') →
  alloc_deferers st' =
    match c with
    | Register _ _ _ => grown_capacity st
    | _ => alloc_deferers st
    end.
Proof.
  intros (Hok & Hq & Hw) Hadm Hrun.
  destruct c as [t' qmem rmem | t' | t' fct p | t' | |]; simpl in Hrun, Hadm.
  - destruct Hadm as (_ & _ & (rg & ->) & Hnum).
    destruct (rcu_defer_register_thread_spec t' qmem rg st Hok Hnum)
      as (s & arr' & Hrun2 & _ & _ & Ha & _).
    rewrite Hrun in Hrun2. inversion Hrun2; subst s. exact Ha.
  - destruct (Hq t') as (items & Hinv & _).
    assert (Hw1 : workers st = 1%nat).
    { unfold worker_ok in Hw. rewrite Hw.
      pose proof (registered_num st t' Hok Hadm).
      destruct (Z.ltb_spec 0 (num_deferers st)); [reflexivity | lia]. }
    destruct (rcu_defer_unregister_thread_spec t' st items 0 Hok Hadm Hinv Hw1)
      as (s & k & e & arr' & _ & _ & Hrun2 & _ & _ & _ & _ & Ha & _).
    rewrite Hrun in Hrun2. inversion Hrun2; subst s. exact Ha.
  - destruct Hadm as (Hreg & _). destruct (Hq t') as (items & Hinv & _ & Hbuf & _).
    destruct (rcu_defer_queue_spec t' fct p st items Hinv (Hbuf Hreg))
      as (s & d' & Hrun2 & (_ & _ & (_ & _ & Ha & _) & _) & _).
    rewrite Hrun in Hrun2. inversion Hrun2; subst s. exact Ha.
  - destruct (Hq t') as (items & Hinv & _).
    destruct (rcu_defer_barrier_thread_spec t' st items Hinv)
      as (s & Hrun2 & (_ & _ & (_ & _ & Ha & _) & _)).
    unfold rcu_defer_barrier_thread in Hrun.
    rewrite Hrun in Hrun2. inversion Hrun2; subst s. exact Ha.
  - destruct (rcu_defer_barrier_spec cs st Hok Hq)
      as (s & Hrun2 & _ & _ & _ & _ & Ha & _).
    rewrite Hrun in Hrun2. inversion Hrun2; subst s. exact Ha.
  - destruct (wait_defer_spec st Hok) as (s & evs & Hrun2 & _ & _ & _ & Ha & _).
    rewrite Hrun in Hrun2. inversion Hrun2; subst s. exact Ha.
Qed.

(** X14 (the shape of the registry). In every reachable state the
    capacity of the registry is 0, with no thread registered, until the
    first registration, and from then on [INIT_NUM_THREADS] times a power
    of two; the count is at most the capacity; the array, once
    allocated, has the length of the capacity; and the entries in use
    are as many as the count, belong to distinct threads and point each
    to the queue of its thread. *)
Theorem registry_shape cs st :
  reaches cs st →
  (alloc_deferers st = 0 ∧ num_deferers st = 0 ∨
   ∃ k : nat, alloc_deferers st = INIT_NUM_THREADS * 2 ^ Z.of_nat k) ∧
  0 <= num_deferers st <= alloc_deferers st ∧
  (∀ arr, registry st = Some arr → length arr = Z.to_nat (alloc_deferers st)) ∧
  length (live_entries st) = Z.to_nat (num_deferers st) ∧
  NoDup (tid <$> live_entries st) ∧
  Forall (λ e, dr_defer_queue e = Some (tid e)) (live_entries st).
Proof.
  intros Hr.
  assert (Hcap : alloc_deferers st = 0 ∧ num_deferers st = 0 ∨
                 ∃ k : nat, alloc_deferers st = INIT_NUM_THREADS * 2 ^ Z.of_nat k).
  { revert cs st Hr. apply reaches_ind_snoc.
    - left. split; reflexivity.
    - intros cs st c st' Hr IH Hadm Hrun.
      pose proof (reaches_inv _ _ Hr) as Hsys.
      pose proof (step_capacity cs st c st' Hsys Hadm Hrun) as Ha.
      destruct (step_registry cs st c st' Hsys Hadm Hrun) as (_ & Hn).
      destruct Hsys as ((Hshape & _) & _).
      destruct c as [t' qmem rmem | t' | t' fct p | t' | |];
        try (rewrite Ha, Hn; exact IH).
      + right. rewrite Ha. unfold grown_capacity.
        destruct (registry st) as [arr|].
        * destruct IH as [(Hz & _) | (k & Hk)]; [unfold INIT_NUM_THREADS in *; lia|].
          destruct (_ <? _); [|exists k; exact Hk].
          exists (S k). rewrite Hk, Nat2Z.inj_succ, Z.pow_succ_r by lia. lia.
        * exists 0%nat. reflexivity.
      + rewrite Ha. destruct IH as [(Hz & Hz') | Hk]; [|right; exact Hk].
        simpl in Hadm.
        pose proof (registered_num st t' (proj1 (reaches_inv _ _ Hr)) Hadm). lia. }
  destruct (reaches_inv _ _ Hr) as (Hok & _).
  pose proof (live_entries_length st Hok) as Hlen.
  pose proof Hok as (Hshape & Hnd & Hptr).
  split; [exact Hcap|]. split; [|split; [|split; [|split]]]; try assumption.
  - destruct (registry st) as [arr|]; [lia|].
    destruct Hcap as [(-> & ->) | (k & ->)]; [lia|].
    rewrite Hshape. unfold INIT_NUM_THREADS.
    pose proof (Z.pow_pos_nonneg 2 (Z.of_nat k)). lia.
  - intros arr Harr. rewrite Harr in Hshape. apply Hshape.
Qed.

(** ** The life of the reclamation thread in the log *)

Lemma count_event_app ev tr1 tr2 :
  count_event ev (tr1 ++ tr2) = (count_event ev tr1 + count_event ev tr2)%nat.
Proof. unfold count_event. rewrite filter_app, length_app. reflexivity. Qed.

Lemma count_thread_call_events ev t items :
  thread_event ev → count_event ev (call_events t items) = 0%nat.
Proof.
  intros Hev. unfold count_event, call_events.
  induction items as [|c items IH]; [reflexivity|].
  rewrite fmap_cons, filter_cons_False; [exact IH|].
  destruct Hev as [-> | [-> | ->]]; discriminate.
Qed.

Lemma count_thread_batch_events ev cs st :
  thread_event ev → count_event ev (batch_events cs st) = 0%nat.
Proof.
  intros Hev. unfold batch_events.
  induction (live_entries st) as [|e l IH]; [reflexivity|].
  rewrite fmap_cons.
  match goal with
  | |- context [mjoin (?x :: ?xs)] => change (mjoin (x :: xs)) with (x ++ mjoin xs)
  end.
  rewrite count_event_app, count_thread_call_events, IH by exact Hev. reflexivity.
Qed.

Lemma count_thread_drain_events ev t d items :
  thread_event ev → count_event ev (drain_events t d items) = 0%nat.
Proof.
  intros Hev. unfold drain_events. destruct (_ =? _); [reflexivity|].
  change (EvSynchronizeRcu :: ?l) with ([EvSynchronizeRcu] ++ l).
  rewrite count_event_app, count_thread_call_events by exact Hev.
  destruct Hev as [-> | [-> | ->]]; reflexivity.
Qed.

Lemma count_thread_wake_events ev st :
  thread_event ev → count_event ev (wake_events st) = 0%nat.
Proof.
  intros Hev. unfold wake_events.
  destruct (_ =? _); destruct Hev as [-> | [-> | ->]]; reflexivity.
Qed.

(** The creations, cancellations and joins a call logs. *)
Lemma count_thread_call_log ev c cs st :
  thread_event ev →
  count_event ev (call_log c cs st) =
  match c with
  | Register _ _ _ =>
      if (num_deferers st =? 0) && bool_decide (ev = EvPthreadCreate) then 1%nat else 0%nat
  | Unregister _ =>
      if (num_deferers st =? 1) && negb (bool_decide (ev = EvPthreadCreate))
      then 1%nat else 0%nat
  | _ => 0%nat
  end.
Proof.
  intros Hev.
  destruct c as [t' qmem rmem | t' | t' fct p | t' | |]; unfold call_log.
  - destruct (_ =? _); destruct Hev as [-> | [-> | ->]]; reflexivity.
  - rewrite !count_event_app, count_thread_drain_events by exact Hev.
    destruct (_ =? _).
    + unfold stop_events.
      rewrite !count_event_app, count_thread_wake_events by exact Hev.
      destruct Hev as [-> | [-> | ->]]; reflexivity.
    + destruct Hev as [-> | [-> | ->]]; reflexivity.
  - rewrite count_event_app, count_thread_wake_events by exact Hev.
    destruct (_ <=? _); [|reflexivity].
    change (EvSynchronizeRcu :: ?l) with ([EvSynchronizeRcu] ++ l).
    rewrite count_event_app, count_thread_call_events by exact Hev.
    destruct Hev as [-> | [-> | ->]]; reflexivity.
  - apply count_thread_drain_events. exact Hev.
  - unfold barrier_events. pose proof (count_thread_batch_events ev cs st Hev) as Hb.
    destruct (batch_events cs st) as [|x l]; [reflexivity|].
    change (EvSynchronizeRcu :: x :: l) with ([EvSynchronizeRcu] ++ x :: l).
    rewrite count_event_app, Hb.
    destruct Hev as [-> | [-> | ->]]; reflexivity.
  - destruct (_ && _); destruct Hev as [-> | [-> | ->]]; reflexivity.
Qed.

(** X15 (one reclamation thread at a time). In every reachable state the
    log shows as many creations of the reclamation thread as joins, plus
    one when a thread is registered; every cancellation has its join;
    and there is never more than one reclamation thread. *)
Theorem reclamation_thread_balance cs st :
  reaches cs st →
  count_event EvPthreadCreate (trace st) =
    (count_event EvPthreadJoin (trace st) + workers st)%nat ∧
  count_event EvPthreadCancel (trace st) = count_event EvPthreadJoin (trace st) ∧
  workers st = (if 0 <? num_deferers st then 1%nat else 0%nat).
Proof.
  revert cs st. apply reaches_ind_snoc.
  - repeat split.
  - intros cs st c st' Hr (IHc & IHj & IHw) Hadm Hrun.
    pose proof (reaches_inv _ _ Hr) as Hsys.
    destruct (do_call_log cs st c Hsys Hadm) as (s & Hrun2 & (_ & _ & Hw') & Htr).
    rewrite Hrun in Hrun2. inversion Hrun2; subst s.
    destruct (step_registry cs st c st' Hsys Hadm Hrun) as (_ & Hn).
    pose proof (registry_ok_num st (proj1 Hsys)) as Hpos.
    unfold worker_ok in Hw'. split; [|split; [|exact Hw']].
    + rewrite Htr, !count_event_app, !count_thread_call_log, IHc, IHw, Hw', Hn
        by (unfold thread_event; tauto).
      destruct c as [t' qmem rmem | t' | t' fct p | t' | |]; simpl;
        repeat match goal with
               | |- context [?a =? ?b] => destruct (Z.eqb_spec a b)
               | |- context [?a <? ?b] => destruct (Z.ltb_spec a b)
               end; simpl; lia.
    + rewrite Htr, !count_event_app, !count_thread_call_log, IHj
        by (unfold thread_event; tauto).
      destruct c; simpl; try reflexivity.
Qed.

(** ** The barrier of one thread *)

(** X16 ([rcu_defer_barrier_thread] runs the callbacks of its caller). In
    a reachable state [rcu_defer_barrier_thread] by any thread returns
    normally. It logs nothing when the caller has no pending callback,
    and otherwise one grace period followed by the pending callbacks of
    the caller in the order of submission. On return every callback the
    caller has enqueued has been invoked, its queue is empty, and the
    head of the queue is where it was. *)
Theorem barrier_thread_runs_own_callbacks cs st t :
  reaches cs st →
  ∃ st',
    rcu_defer_barrier_thread t st = Ok (tt, st') ∧
    trace st' = trace st ++
                match pending t cs (trace st) with
                | [] => []
                | items => EvSynchronizeRcu :: call_events t items
                end ∧
    calls t (trace st') = deferred t cs ∧
    fill (tls_get t st') = 0 ∧
    dq_head (tls_get t st') = dq_head (tls_get t st).
Proof.
  intros Hr. destruct (reaches_inv _ _ Hr) as (_ & Hq & _).
  destruct (Hq t) as (items & Hinv & Hc & _).
  destruct (rcu_defer_barrier_thread_spec t st items Hinv)
    as (st' & Hrun & (Hd' & _ & _ & _ & Htr)).
  rewrite (pending_items _ _ _ _ Hc).
  assert (Hev : drain_events t (tls_get t st) items =
                match items with
                | [] => []
                | _ => EvSynchronizeRcu :: call_events t items
                end).
  { unfold drain_events. destruct (Z.eqb_spec (fill (tls_get t st)) 0) as [Hz | Hnz].
    - destruct (queue_inv_empty _ _ Hinv Hz) as (-> & _). reflexivity.
    - destruct items; [|reflexivity].
      exfalso. apply Hnz. apply queue_inv_nil_fill. exact Hinv. }
  exists st'. split; [exact Hrun|].
  split; [rewrite Htr, Hev; destruct items; reflexivity|].
  split; [|split].
  - rewrite Htr, Hev, calls_app, <- Hc. f_equal.
    destruct items; [reflexivity|]. rewrite calls_sync. apply calls_call_events.
  - rewrite Hd'. unfold fill. simpl. apply wrap_sub_self.
  - rewrite Hd'. reflexivity.
Qed.

(** ** A second registration *)

(** X17 (a second registration is not detected). In a reachable state,
    when a thread that is registered already calls
    [rcu_defer_register_thread] again, the call returns normally: there
    is no check. It adds a second entry for the thread to the registry,
    so the thread ids of the entries in use are no longer distinct, and
    it replaces the buffer of the queue by the new allocation, while the
    head and the tail of the queue stay where they were. *)
Theorem second_registration_unchecked cs st t qg rg :
  reaches cs st → registered t st → num_deferers st < 2 ^ 30 →
  ∃ st',
    rcu_defer_register_thread t (Some qg) (Some rg) st = Ok (tt, st') ∧
    live_entries st' = live_entries st ++ [mk_deferer_registry t (Some t) 0] ∧
    num_deferers st' = num_deferers st + 1 ∧
    ¬ NoDup (tid <$> live_entries st') ∧
    dq_q (tls_get t st') = Some (resize (Z.to_nat DEFER_QUEUE_SIZE) 0 qg) ∧
    dq_head (tls_get t st') = dq_head (tls_get t st) ∧
    dq_tail (tls_get t st') = dq_tail (tls_get t st).
Proof.
  intros Hr Hreg Hnum. destruct (reaches_inv _ _ Hr) as (Hok & _).
  destruct (rcu_defer_register_thread_spec t (Some qg) rg st Hok Hnum)
    as (st' & arr' & Hrun & _ & _ & _ & _ & Hn & _ & Hlive & Hself & _).
  exists st'. split; [exact Hrun|]. split; [exact Hlive|]. split; [exact Hn|].
  split; [|rewrite Hself; repeat split].
  rewrite Hlive, fmap_app. simpl. intros Hnd.
  apply NoDup_app in Hnd as (_ & Hdisj & _).
  apply (Hdisj t Hreg). left.
Qed.

(** ** The slot a removal vacates *)

Lemma rcu_remove_deferer_array id st :
  registry_ok st → registered id st →
  ∃ arr k lst,
    registry st = Some arr ∧
    (k < Z.to_nat (num_deferers st))%nat ∧
    arr !! Z.to_nat (num_deferers st - 1) = Some lst ∧
    rcu_remove_deferer id st =
      Ok (tt, set_num_deferers (num_deferers st - 1)
                (add_trace [EvRegistryRemove id]
                   (set_registry
                      (Some (<[Z.to_nat (num_deferers st - 1) := zero_entry]>
                               (<[k := lst]> arr))) st))).
Proof.
  intros Hok Hreg.
  destruct (registered_lookup id st Hreg) as (k & e & Hk & Hid).
  destruct (live_entries_lookup_inv st k e Hk) as (arr & Hr & Hak & Hlt).
  pose proof Hok as (Hshape & _). rewrite Hr in Hshape.
  destruct Hshape as (Hn & Ha & Hl).
  set (n := Z.to_nat (num_deferers st)) in *.
  assert (Hn1 : Z.to_nat (num_deferers st - 1) = (n - 1)%nat) by lia.
  destruct (lookup_lt_is_Some_2 arr (n - 1)%nat) as (lst & Hlst); [lia|].
  exists arr, k, lst. split; [exact Hr|]. split; [exact Hlt|].
  split; [rewrite Hn1; exact Hlst|].
  unfold rcu_remove_deferer. mred. rewrite Hr.
  rewrite bool_decide_eq_true_2 by discriminate. simpl assert. cbv beta iota.
  unfold assert. mred. fold n.
  apply (remove_deferer_loop_found id st arr k e lst n Hr Hak Hid);
    [rewrite Hn1; exact Hlst | lia |].
  intros j ej Hj Hej Heq.
  assert (j = k); [|lia].
  eapply (live_tid_inj st j k ej e Hok); eauto; [|congruence].
  eapply live_entries_lookup; eauto. lia.
Qed.

(** X18 (a removal leaves no stale entry). In a reachable state, when
    [rcu_remove_deferer] removes the entry of a registered thread, the
    slot it vacates at the end of the entries in use holds the null entry
    afterwards (thread id 0, null queue pointer, [last_head] 0): no
    pointer to the queue of the removed thread stays in the array. The
    array keeps its length, and its slots past the entries in use are
    left as they were. *)
Theorem removal_clears_vacated_slot cs st id :
  reaches cs st → registered id st →
  ∃ st' arr arr',
    rcu_remove_deferer id st = Ok (tt, st') ∧
    registry st = Some arr ∧ registry st' = Some arr' ∧
    length arr' = length arr ∧
    arr' !! Z.to_nat (num_deferers st') = Some zero_entry ∧
    (∀ j, (Z.to_nat (num_deferers st) ≤ j)%nat → arr' !! j = arr !! j) ∧
    Forall (λ e, dr_defer_queue e ≠ Some id) (take (Z.to_nat (num_deferers st)) arr').
Proof.
  intros Hr Hreg. destruct (reaches_inv _ _ Hr) as (Hok & _).
  destruct (rcu_remove_deferer_array id st Hok Hreg)
    as (arr & k & lst & Harr & Hk & Hlst & Hrun).
  destruct (rcu_remove_deferer_spec id st Hok Hreg)
    as (st' & k' & e & arr' & Hk' & Hid & Hrun' & Harr' & _ & Hlive' & Hn' & _).
  rewrite Hrun in Hrun'. inversion Hrun' as [Hst']. clear Hrun'.
  pose proof (registered_num st id Hok Hreg) as Hpos.
  pose proof Hok as (Hshape & Hnd & Hptr). rewrite Harr in Hshape.
  destruct Hshape as (Hn & Ha & Hl).
  assert (Harr2 : arr' = <[Z.to_nat (num_deferers st - 1) := zero_entry]> (<[k := lst]> arr)).
  { rewrite <- Hst' in Harr'. simpl in Harr'. congruence. }
  exists st', arr, arr'. split; [rewrite <- Hst'; exact Hrun|].
  split; [exact Harr|]. split; [exact Harr'|].
  split; [rewrite Harr2, !length_insert; reflexivity|]. split; [|split].
  - rewrite Hn', Harr2. apply list_lookup_insert_eq. rewrite length_insert. lia.
  - intros j Hj. rewrite Harr2, !list_lookup_insert_ne by lia. reflexivity.
  - replace (Z.to_nat (num_deferers st)) with (S (Z.to_nat (num_deferers st'))) by lia.
    assert (Hz : arr' !! Z.to_nat (num_deferers st') = Some zero_entry).
    { rewrite Hn', Harr2. apply list_lookup_insert_eq. rewrite length_insert. lia. }
    rewrite (take_S_r _ _ _ Hz). apply Forall_app. split.
    + assert (Hlive : take (Z.to_nat (num_deferers st')) arr' = live_entries st').
      { unfold live_entries. rewrite Harr'. reflexivity. }
      rewrite Hlive, Hlive'. apply Forall_forall. intros x Hx Hq.
      pose proof (swap_remove_elem k' (live_entries st) e x Hk' Hx) as Hin.
      rewrite Forall_forall in Hptr. pose proof (Hptr x Hin) as Hqx.
      assert (Htid : tid x = id) by congruence.
      assert (Hreg' : registered id st').
      { unfold registered. rewrite Hlive'. apply list_elem_of_fmap.
        exists x. split; [symmetry; exact Htid | exact Hx]. }
      apply (registered_swap_remove st st' k' e Hok Hk' Hlive' id) in Hreg'.
      destruct Hreg' as (_ & Hne). congruence.
    + constructor; [discriminate | constructor].
Qed.

(** ** The escape sequence *)

Lemma escape_slots slots h fct p :
  length slots = Z.to_nat DEFER_QUEUE_SIZE →
  let slots' := <[slot_index (wrap (wrap (h + 1) + 1)) := p]>
                  (<[slot_index (wrap (h + 1)) := fct]>
                     (<[slot_index h := DQ_FCT_MARK]> slots)) in
  slot_at slots' h = Some DQ_FCT_MARK ∧
  slot_at slots' (wrap (h + 1)) = Some fct ∧
  slot_at slots' (wrap (wrap (h + 1) + 1)) = Some p.
Proof.
  intros Hlen slots'.
  assert (H01 : slot_index h ≠ slot_index (wrap (h + 1))).
  { rewrite slot_index_wrap. rewrite <- (Z.add_0_r h) at 1.
    apply slot_index_succ_ne; lia. }
  assert (H02 : slot_index h ≠ slot_index (wrap (wrap (h + 1) + 1))).
  { rewrite (slot_index_congr (wrap (wrap (h + 1) + 1)) (h + 2)) by wrap_solve.
    rewrite <- (Z.add_0_r h) at 1. apply slot_index_succ_ne; lia. }
  assert (H12 : slot_index (wrap (h + 1)) ≠ slot_index (wrap (wrap (h + 1) + 1))).
  { rewrite slot_index_wrap.
    rewrite (slot_index_congr (wrap (wrap (h + 1) + 1)) (h + 2)) by wrap_solve.
    apply slot_index_succ_ne; lia. }
  unfold slots'. split; [|split].
  - rewrite !slot_at_insert_ne by assumption. apply slot_at_insert_eq. exact Hlen.
  - rewrite slot_at_insert_ne by assumption.
    apply slot_at_insert_eq. rewrite length_insert. exact Hlen.
  - apply slot_at_insert_eq. rewrite !length_insert. exact Hlen.
Qed.

(** X19 (the escape sequence). In a reachable state, let a registered
    thread enqueue a function that differs from the one last encoded and
    whose low bit is set or that is the sentinel, or the function last
    encoded with an argument whose low bit is set or that is the
    sentinel. The enqueue then writes three slots from the head: the
    sentinel, the function as it is, and the argument; the function is
    written again even when it is the one last encoded. *)
Theorem escape_sequence cs st t fct p :
  let d := tls_get t st in
  reaches cs st → registered t st →
  (dq_last_fct_in d ≠ fct ∧ (DQ_IS_FCT_BIT fct = true ∨ fct = DQ_FCT_MARK)) ∨
  (dq_last_fct_in d = fct ∧ (DQ_IS_FCT_BIT p = true ∨ p = DQ_FCT_MARK)) →
  ∃ st' slots',
    _rcu_defer_queue t fct p st = Ok (tt, st') ∧
    dq_q (tls_get t st') = Some slots' ∧
    dq_head (tls_get t st') = wrap (dq_head d + 3) ∧
    slot_at slots' (dq_head d) = Some DQ_FCT_MARK ∧
    slot_at slots' (wrap (dq_head d + 1)) = Some fct ∧
    slot_at slots' (wrap (wrap (dq_head d + 1) + 1)) = Some p.
Proof.
  intros d Hr Hreg Hesc. destruct (reaches_inv _ _ Hr) as (_ & Hq & _).
  destruct (Hq t) as (items & Hinv & _ & Hbuf & _). fold d in Hinv, Hbuf.
  destruct (Hbuf Hreg) as (slots & Hslots & Hlen).
  destruct (rcu_defer_queue_exact t fct p st items slots Hinv Hslots Hlen)
    as (st' & Hrun & Hhead & Hq' & _). fold d in Hhead, Hq'.
  assert (Hes : enqueue_slots d fct p slots =
                (3, <[slot_index (wrap (wrap (dq_head d + 1) + 1)) := p]>
                      (<[slot_index (wrap (dq_head d + 1)) := fct]>
                         (<[slot_index (dq_head d) := DQ_FCT_MARK]> slots)))).
  { unfold enqueue_slots.
    destruct Hesc as [(Hnew & Hbad) | (Hsame & Hbad)].
    - rewrite (proj2 (Z.eqb_neq _ _) Hnew). simpl.
      destruct Hbad as [-> | ->]; [reflexivity|].
      rewrite Z.eqb_refl, orb_true_r. reflexivity.
    - rewrite (proj2 (Z.eqb_eq _ _) Hsame). simpl.
      destruct Hbad as [-> | ->]; [reflexivity|].
      rewrite Z.eqb_refl, orb_true_r. reflexivity. }
  rewrite Hes in Hhead, Hq'. simpl in Hhead, Hq'.
  eexists st', _. split; [exact Hrun|]. split; [exact Hq'|]. split; [exact Hhead|].
  apply escape_slots. exact Hlen.
Qed.

(** ** Grace periods and invocations *)

Lemma invocations_app tr1 tr2 :
  invocations (tr1 ++ tr2) = (invocations tr1 + invocations tr2)%nat.
Proof. unfold invocations. rewrite omap_app, length_app. reflexivity. Qed.

Lemma invocations_call_events t items :
  invocations (call_events t items) = length items.
Proof.
  unfold invocations, call_events. induction items as [|c items IH]; [reflexivity|].
  simpl in IH |- *. f_equal. exact IH.
Qed.

Lemma invocations_batch_events cs st :
  invocations (batch_events cs st) = length (batch_events cs st).
Proof.
  unfold batch_events. induction (live_entries st) as [|e l IH]; [reflexivity|].
  rewrite fmap_cons.
  match goal with
  | |- context [mjoin (?x :: ?xs)] => change (mjoin (x :: xs)) with (x ++ mjoin xs)
  end.
  rewrite invocations_app, length_app, IH, invocations_call_events.
  unfold call_events. rewrite length_fmap. reflexivity.
Qed.

Lemma drain_events_counts cs st t :
  queues_ok cs st →
  (grace_periods (drain_events t (tls_get t st) (pending t cs (trace st)))
   ≤ invocations (drain_events t (tls_get t st) (pending t cs (trace st))))%nat.
Proof.
  intros Hq. rewrite grace_periods_drain_events. unfold drain_events.
  destruct (Z.eqb_spec (fill (tls_get t st)) 0) as [Hz | Hnz]; [simpl; lia|].
  change (EvSynchronizeRcu :: ?l) with ([EvSynchronizeRcu] ++ l).
  rewrite invocations_app, invocations_call_events.
  destruct (pending t cs (trace st)) eqn:Hp; [|simpl; lia].
  exfalso. apply Hnz. apply (pending_nil_fill cs st t Hq). exact Hp.
Qed.

Lemma call_log_counts c cs st :
  queues_ok cs st →
  (grace_periods (call_log c cs st) ≤ invocations (call_log c cs st))%nat.
Proof.
  intros Hq. pose proof size_bounds as Hsz.
  destruct c as [t qmem rmem | t | t fct p | t | |]; unfold call_log.
  - destruct (_ =? _); vm_compute; lia.
  - rewrite !grace_periods_app, !invocations_app.
    pose proof (drain_events_counts cs st t Hq).
    assert (grace_periods (if num_deferers st =? 1 then stop_events st else []) = 0%nat)
      as ->.
    { destruct (_ =? _); [|reflexivity]. unfold stop_events.
      rewrite !grace_periods_app, grace_periods_wake_events. reflexivity. }
    change (grace_periods [EvRegistryRemove t]) with 0%nat.
    change (grace_periods [EvFreeQueue t]) with 0%nat. lia.
  - rewrite grace_periods_app, invocations_app, grace_periods_wake_events.
    destruct (Z.leb_spec (DEFER_QUEUE_SIZE - 2) (fill (tls_get t st))) as [Hslow | Hfast];
      [|simpl; lia].
    change (EvSynchronizeRcu :: ?l) with ([EvSynchronizeRcu] ++ l).
    rewrite grace_periods_app, grace_periods_call_events, invocations_app,
      invocations_call_events.
    destruct (pending t cs (trace st)) eqn:Hp; [|simpl; lia].
    apply (pending_nil_fill cs st t Hq) in Hp. lia.
  - apply drain_events_counts. exact Hq.
  - unfold barrier_events.
    pose proof (invocations_batch_events cs st) as Hi.
    pose proof (grace_periods_batch_events cs st) as Hg.
    destruct (batch_events cs st) as [|x l]; [simpl; lia|].
    change (EvSynchronizeRcu :: x :: l) with ([EvSynchronizeRcu] ++ x :: l).
    rewrite grace_periods_app, invocations_app, Hg, Hi. simpl. lia.
  - destruct (_ && _); vm_compute; lia.
Qed.

(** X20 (no grace period in vain). In every reachable state the log
    shows at most as many grace periods as invocations of callbacks: the
    code never waits for a grace period without a callback to invoke
    after it. *)
Theorem no_grace_period_in_vain cs st :
  reaches cs st → (grace_periods (trace st) ≤ invocations (trace st))%nat.
Proof.
  revert cs st. apply reaches_ind_snoc.
  - simpl. unfold grace_periods, invocations. simpl. lia.
  - intros cs st c st' Hr IH Hadm Hrun.
    pose proof (reaches_inv _ _ Hr) as Hsys.
    destruct (do_call_log cs st c Hsys Hadm) as (s & Hrun2 & _ & Htr).
    rewrite Hrun in Hrun2. inversion Hrun2; subst s.
    rewrite Htr, grace_periods_app, invocations_app.
    pose proof (call_log_counts c cs st (proj1 (proj2 Hsys))). lia.
Qed.

(** ** The life of a queue buffer in the log *)

Lemma count_event_single ev x :
  count_event ev [x] = if decide (x = ev) then 1%nat else 0%nat.
Proof.
  unfold count_event. destruct (decide (x = ev)) as [Heq | Hne].
  - rewrite filter_cons_True by exact Heq. reflexivity.
  - rewrite filter_cons_False by exact Hne. reflexivity.
Qed.

Lemma count_book_call_events ev t items :
  bookkeeping ev = true → count_event ev (call_events t items) = 0%nat.
Proof.
  intros Hev. unfold count_event, call_events.
  induction items as [|c items IH]; [reflexivity|].
  rewrite fmap_cons, filter_cons_False; [exact IH|].
  intros <-. discriminate.
Qed.

Lemma count_book_batch_events ev cs st :
  bookkeeping ev = true → count_event ev (batch_events cs st) = 0%nat.
Proof.
  intros Hev. unfold batch_events.
  induction (live_entries st) as [|e l IH]; [reflexivity|].
  rewrite fmap_cons.
  match goal with
  | |- context [mjoin (?x :: ?xs)] => change (mjoin (x :: xs)) with (x ++ mjoin xs)
  end.
  rewrite count_event_app, count_book_call_events, IH by exact Hev. reflexivity.
Qed.

Lemma count_book_sync ev :
  bookkeeping ev = true → count_event ev [EvSynchronizeRcu] = 0%nat.
Proof.
  intros Hev. rewrite count_event_single.
  destruct (decide _) as [<- |]; [discriminate | reflexivity].
Qed.

Lemma count_book_drain_events ev t d items :
  bookkeeping ev = true → count_event ev (drain_events t d items) = 0%nat.
Proof.
  intros Hev. unfold drain_events. destruct (_ =? _); [reflexivity|].
  change (EvSynchronizeRcu :: ?l) with ([EvSynchronizeRcu] ++ l).
  rewrite count_event_app, count_book_call_events, count_book_sync by exact Hev.
  reflexivity.
Qed.

Lemma count_book_wake_events ev st :
  bookkeeping ev = true → count_event ev (wake_events st) = 0%nat.
Proof.
  intros Hev. unfold wake_events. destruct (_ =? _); [|reflexivity].
  rewrite count_event_single.
  destruct (decide _) as [<- |]; [discriminate | reflexivity].
Qed.

(** The registry and buffer events of thread [t] that a call logs. *)
Lemma count_registry_call_log ev t c cs st :
  ev = EvRegistryAdd t ∨ ev = EvRegistryRemove t ∨ ev = EvFreeQueue t →
  count_event ev (call_log c cs st) =
  match c with
  | Register t' _ _ =>
      if bool_decide (t' = t ∧ ev = EvRegistryAdd t) then 1%nat else 0%nat
  | Unregister t' =>
      if bool_decide (t' = t ∧ ev ≠ EvRegistryAdd t) then 1%nat else 0%nat
  | _ => 0%nat
  end.
Proof.
  intros Hev.
  assert (Hb : bookkeeping ev = true) by (destruct Hev as [-> | [-> | ->]]; reflexivity).
  destruct c as [t' qmem rmem | t' | t' fct p | t' | |]; unfold call_log.
  - rewrite count_event_app, count_event_single.
    assert (count_event ev (if num_deferers st =? 0 then [EvPthreadCreate] else []) = 0%nat)
      as ->.
    { destruct (_ =? _); [|reflexivity]. rewrite count_event_single.
      destruct (decide _) as [<- |]; [|reflexivity].
      destruct Hev as [? | [? | ?]]; discriminate. }
    destruct (decide (EvRegistryAdd t' = ev)) as [<- | Hne].
    + rewrite bool_decide_eq_true_2; [reflexivity|].
      destruct Hev as [Heq | [? | ?]]; try discriminate.
      inversion Heq. split; reflexivity.
    + rewrite bool_decide_eq_false_2; [reflexivity|].
      intros (-> & ->). apply Hne. reflexivity.
  - rewrite !count_event_app, count_book_drain_events, !count_event_single by exact Hb.
    assert (count_event ev (if num_deferers st =? 1 then stop_events st else []) = 0%nat)
      as ->.
    { destruct (_ =? _); [|reflexivity]. unfold stop_events.
      rewrite !count_event_app, count_book_wake_events, !count_event_single by exact Hb.
      destruct Hev as [-> | [-> | ->]]; reflexivity. }
    destruct (decide (t' = t)) as [-> | Hne].
    + destruct Hev as [-> | [-> | ->]].
      * rewrite bool_decide_eq_false_2 by tauto. reflexivity.
      * rewrite bool_decide_eq_true_2 by (split; [reflexivity | discriminate]).
        rewrite decide_True by reflexivity. rewrite decide_False by discriminate.
        reflexivity.
      * rewrite bool_decide_eq_true_2 by (split; [reflexivity | discriminate]).
        rewrite decide_False by discriminate. rewrite decide_True by reflexivity.
        reflexivity.
    + rewrite bool_decide_eq_false_2 by tauto.
      destruct Hev as [-> | [-> | ->]];
        rewrite !decide_False by congruence; reflexivity.
  - rewrite count_event_app, count_book_wake_events by exact Hb.
    destruct (_ <=? _); [|reflexivity].
    change (EvSynchronizeRcu :: ?l) with ([EvSynchronizeRcu] ++ l).
    rewrite count_event_app, count_book_call_events, count_book_sync by exact Hb.
    reflexivity.
  - apply count_book_drain_events. exact Hb.
  - unfold barrier_events. pose proof (count_book_batch_events ev cs st Hb) as Hz.
    destruct (batch_events cs st) as [|x l]; [reflexivity|].
    change (EvSynchronizeRcu :: x :: l) with ([EvSynchronizeRcu] ++ x :: l).
    rewrite count_event_app, Hz, count_book_sync by exact Hb. reflexivity.
  - destruct (_ && _); [|reflexivity]. rewrite count_event_single.
    destruct (decide _) as [<- |]; [discriminate | reflexivity].
Qed.

(** X21 (the life of a queue buffer). In every reachable state, for
    every thread: the log shows as many releases of its queue buffer as
    removals of its registry entry, and one addition of its entry more
    than that exactly when the thread is registered, so a buffer is
    released once, by the unregistration that follows its allocation;
    and the buffer pointer of the queue is null exactly when the thread
    is not registered. *)
Theorem queue_buffer_lifetime cs st t :
  reaches cs st →
  count_event (EvRegistryRemove t) (trace st) = count_event (EvFreeQueue t) (trace st) ∧
  count_event (EvRegistryAdd t) (trace st) =
    (count_event (EvFreeQueue t) (trace st) +
     if registered_by t cs then 1 else 0)%nat ∧
  (dq_q (tls_get t st) = None ↔ ¬ registered t st).
Proof.
  intros Hr. split; [|split].
  - revert cs st Hr. apply reaches_ind_snoc; [reflexivity|].
    intros cs st c st' Hr IH Hadm Hrun.
    pose proof (reaches_inv _ _ Hr) as Hsys.
    destruct (do_call_log cs st c Hsys Hadm) as (s & Hrun2 & _ & Htr).
    rewrite Hrun in Hrun2. inversion Hrun2; subst s.
    rewrite Htr, !count_event_app, IH, !(count_registry_call_log _ t) by tauto.
    destruct c as [t' qmem rmem | t' | t' fct p | t' | |]; try reflexivity.
    + rewrite !bool_decide_eq_false_2; [reflexivity | |]; intros (_ & ?); discriminate.
    + destruct (decide (t' = t)) as [-> | Hne].
      * rewrite !bool_decide_eq_true_2; [reflexivity | |]; (split; [reflexivity | discriminate]).
      * rewrite !bool_decide_eq_false_2; [reflexivity | |]; tauto.
  - revert cs st Hr. apply reaches_ind_snoc; [reflexivity|].
    intros cs st c st' Hr IH Hadm Hrun.
    pose proof (reaches_inv _ _ Hr) as Hsys.
    destruct (do_call_log cs st c Hsys Hadm) as (s & Hrun2 & _ & Htr).
    rewrite Hrun in Hrun2. inversion Hrun2; subst s.
    pose proof (proj1 (reaches_registry cs st Hr) t) as Htrack.
    rewrite Htr, !count_event_app, IH, !(count_registry_call_log _ t), registered_by_snoc
      by tauto.
    destruct c as [t' qmem rmem | t' | t' fct p | t' | |]; try lia.
    + destruct (decide (t' = t)) as [-> | Hne].
      * rewrite bool_decide_eq_true_2 by tauto.
        rewrite bool_decide_eq_false_2 by (intros (_ & ?); discriminate).
        destruct (registered_by t cs) eqn:Hby; [|lia].
        simpl in Hadm. destruct Hadm as (Hnot & _). exfalso. apply Hnot, Htrack.
        reflexivity.
      * rewrite !bool_decide_eq_false_2 by tauto. lia.
    + destruct (decide (t' = t)) as [-> | Hne].
      * rewrite bool_decide_eq_false_2 by tauto.
        rewrite bool_decide_eq_true_2 by (split; [reflexivity | discriminate]).
        destruct (registered_by t cs) eqn:Hby; [lia|].
        simpl in Hadm. apply Htrack in Hadm. discriminate.
      * rewrite !bool_decide_eq_false_2 by tauto. lia.
  - destruct (reaches_inv _ _ Hr) as (_ & Hq & _).
    destruct (Hq t) as (items & _ & _ & Hbuf & Hnone). split.
    + intros Hnull Hreg. destruct (Hbuf Hreg) as (slots & Hs & _). congruence.
    + exact Hnone.
Qed.

(** ** Who writes which field of a queue *)

(** X22 (the fields of the producer and of the consumer). In a reachable
    state, [rcu_defer_barrier] and [rcu_defer_barrier_thread] return
    normally and leave the head, the function last encoded and the buffer
    with all its slots of every queue as they are: a drain writes the
    tail and the function last decoded only. An enqueue by a registered
    thread that finds fewer than [DEFER_QUEUE_SIZE - 2] slots in use
    leaves the tail and the function last decoded of its queue as they
    are. *)
Theorem queue_field_ownership cs st :
  reaches cs st →
  (∃ st', rcu_defer_barrier st = Ok (tt, st') ∧
          ∀ t, producer_fields (tls_get t st') = producer_fields (tls_get t st)) ∧
  (∀ t, ∃ st', rcu_defer_barrier_thread t st = Ok (tt, st') ∧
               ∀ t', producer_fields (tls_get t' st') = producer_fields (tls_get t' st)) ∧
  (∀ t fct p, registered t st → fill (tls_get t st) < DEFER_QUEUE_SIZE - 2 →
     ∃ st', _rcu_defer_queue t fct p st = Ok (tt, st') ∧
            dq_tail (tls_get t st') = dq_tail (tls_get t st) ∧
            dq_last_fct_out (tls_get t st') = dq_last_fct_out (tls_get t st)).
Proof.
  intros Hr. destruct (reaches_inv _ _ Hr) as (Hok & Hq & _).
  split; [|split].
  - destruct (rcu_defer_barrier_exact cs st Hok Hq) as (st' & Hrun & _ & Hpf).
    exists st'. split; assumption.
  - intros t. destruct (Hq t) as (items & Hinv & _).
    destruct (rcu_defer_barrier_thread_spec t st items Hinv)
      as (st' & Hrun & (Hd' & Hoth & _)).
    exists st'. split; [exact Hrun|]. intros t'.
    destruct (decide (t' = t)) as [-> | Hne].
    + rewrite Hd'. reflexivity.
    + rewrite (Hoth t' Hne). reflexivity.
  - intros t fct p Hreg Hfast. destruct (Hq t) as (items & Hinv & _ & Hbuf & _).
    destruct (rcu_defer_queue_fast t fct p st items Hinv (Hbuf Hreg) Hfast)
      as (st' & d' & Hrun & (Hd' & _) & _ & _ & Htail & Hout & _).
    exists st'. split; [exact Hrun|]. rewrite Hd'. split; assumption.
Qed.

End Properties.

(** * The properties on the concrete configuration *)

Section Examples.

#[local] Existing Instance example_config.

Ltac example_config_ok :=
  split; [exists 2; split; [lia | reflexivity]
         | split; [simpl; lia
                  | split; [unfold is_word, word_modulus, word_bits; simpl; lia
                           | reflexivity]]].

Ltac by_decide :=
  lazymatch goal with
  | |- ?P => apply (bool_decide_unpack P); vm_compute; exact I
  end.

Ltac by_run := apply run_admissible_steps; vm_compute; reflexivity.

Lemma defer_roundtrip_witness :
  config_ok example_config ∧
  reaches schedule_two_threads state_two_threads ∧
  ∃ st',
    rcu_defer_barrier_queue 1
      (dq_head (tls_get 1 state_two_threads)) state_two_threads = Ok (tt, st') ∧
    calls 1 (trace st') = deferred 1 schedule_two_threads.
Proof.
  assert (Hc : config_ok example_config) by example_config_ok.
  assert (Hr : reaches schedule_two_threads state_two_threads)
    by by_run.
  split; [exact Hc|]. split; [exact Hr|].
  destruct Hc as (H1 & H2 & H3 & H4).
  exact (defer_roundtrip H1 H2 H3 H4
           schedule_two_threads state_two_threads 1 Hr).
Defined.

Lemma barrier_contract_witness :
  config_ok example_config ∧
  reaches schedule_two_pending state_two_pending ∧
  ∃ st',
    rcu_defer_barrier state_two_pending = Ok (tt, st') ∧
    ∀ t, registered t state_two_pending →
         calls t (trace st') = deferred t schedule_two_pending ∧
         dq_tail (tls_get t st') = dq_head (tls_get t state_two_pending).
Proof.
  assert (Hc : config_ok example_config) by example_config_ok.
  assert (Hr : reaches schedule_two_pending state_two_pending)
    by by_run.
  split; [exact Hc|]. split; [exact Hr|].
  destruct Hc as (H1 & H2 & H3 & H4).
  exact (barrier_contract H1 H2 H3 H4
           schedule_two_pending state_two_pending Hr).
Defined.

Lemma queue_fill_invariant_witness :
  config_ok example_config ∧
  reaches schedule_one_pending state_one_pending ∧
  (∀ t, 0 <= fill (tls_get t state_one_pending) <= DEFER_QUEUE_SIZE) ∧
  (∀ t fct p, registered t state_one_pending →
     let d := tls_get t state_one_pending in
     let slow := DEFER_QUEUE_SIZE - 2 <=? fill d in
     ∃ st' evs,
       _rcu_defer_queue t fct p state_one_pending
         = Ok (tt, st') ∧
       trace st' = trace state_one_pending ++ evs ∧
       grace_periods evs = (if slow then 1%nat else 0%nat) ∧
       dq_tail (tls_get t st') = (if slow then dq_head d else dq_tail d) ∧
       (if slow then 0 else fill d) < fill (tls_get t st')
         <= (if slow then 0 else fill d) + 3 ∧
       0 <= fill (tls_get t st') <= DEFER_QUEUE_SIZE).
Proof.
  assert (Hc : config_ok example_config) by example_config_ok.
  assert (Hr : reaches schedule_one_pending state_one_pending)
    by by_run.
  split; [exact Hc|]. split; [exact Hr|].
  destruct Hc as (H1 & H2 & H3 & H4).
  exact (queue_fill_invariant H1 H2 H3 H4
           schedule_one_pending state_one_pending Hr).
Defined.

Lemma backpressure_assertions_witness :
  config_ok example_config ∧
  reaches schedule_one_pending state_one_pending ∧
  registered 1 state_one_pending ∧ is_word 8 ∧ is_word 16 ∧
  DEFER_QUEUE_SIZE - 2 <= fill (tls_get 1 state_one_pending) ∧
  let d := tls_get 1 state_one_pending in
  (fill d <=? wrap DEFER_QUEUE_SIZE) = true ∧
  (∃ st1 evs,
     rcu_defer_barrier_thread 1 state_one_pending
       = Ok (tt, st1) ∧
     trace st1 = trace state_one_pending ++ evs ∧ grace_periods evs = 1%nat ∧
     (wrap (dq_head d - dq_tail (tls_get 1 st1)) =? 0) = true) ∧
  (∃ st',
     _rcu_defer_queue 1 8 16 state_one_pending
       = Ok (tt, st') ∧
     dq_tail (tls_get 1 st') = dq_head d ∧
     calls 1 (trace st') = deferred 1 schedule_one_pending ∧
     ∃ st'',
       rcu_defer_barrier_queue 1
         (dq_head (tls_get 1 st')) st' = Ok (tt, st'') ∧
       calls 1 (trace st'') = deferred 1 schedule_one_pending ++ [(8, 16)]).
Proof.
  assert (Hc : config_ok example_config) by example_config_ok.
  assert (Hr : reaches schedule_one_pending state_one_pending)
    by by_run.
  assert (Hreg : registered 1 state_one_pending) by by_decide.
  assert (Hf : is_word 8) by by_decide.
  assert (Hp : is_word 16) by by_decide.
  assert (Hfull : DEFER_QUEUE_SIZE - 2 <= fill (tls_get 1 state_one_pending)) by by_decide.
  split; [exact Hc|]. split; [exact Hr|]. split; [exact Hreg|].
  split; [exact Hf|]. split; [exact Hp|]. split; [exact Hfull|].
  destruct Hc as (H1 & H2 & H3 & H4).
  exact (backpressure_assertions H1 H2 H3 H4
           schedule_one_pending state_one_pending 1 8 16 Hr Hreg Hf Hp Hfull).
Defined.

Lemma unregister_sequence_witness :
  config_ok example_config ∧
  reaches schedule_one_pending state_one_pending ∧
  registered 1 state_one_pending ∧
  ∃ st' items,
    rcu_defer_unregister_thread 1 state_one_pending
      = Ok (tt, st') ∧
    calls 1 (trace state_one_pending) ++ items = deferred 1 schedule_one_pending ∧
    trace st' = trace state_one_pending ++ [EvRegistryRemove 1] ++
                drain_events 1 (tls_get 1 state_one_pending) items ++ [EvFreeQueue 1] ++
                (if num_deferers state_one_pending =? 1
                 then stop_events state_one_pending else []) ∧
    calls 1 (trace st') = deferred 1 schedule_one_pending ∧
    ¬ registered 1 st' ∧
    dq_q (tls_get 1 st') = None.
Proof.
  assert (Hc : config_ok example_config) by example_config_ok.
  assert (Hr : reaches schedule_one_pending state_one_pending)
    by by_run.
  assert (Hreg : registered 1 state_one_pending) by by_decide.
  split; [exact Hc|]. split; [exact Hr|]. split; [exact Hreg|].
  destruct Hc as (H1 & H2 & H3 & H4).
  exact (unregister_sequence H1 H2 H3 H4
           schedule_one_pending state_one_pending 1 Hr Hreg).
Defined.

(** C5, against the stated order: the only registered thread unregisters
    with one callback pending; its registry entry is removed first, before
    the grace period, the callback and the release of the buffer. *)
Lemma unregister_order_counterexample :
  reaches schedule_one_pending state_one_pending ∧
  registered 1 state_one_pending ∧
  events_of (rcu_defer_unregister_thread 1) state_one_pending
    = Some [EvRegistryRemove 1; EvSynchronizeRcu; EvCall 1 8 3; EvFreeQueue 1;
            EvPthreadCancel; EvPthreadJoin] ∧
  drain_free_remove 1 <$>
    events_of (rcu_defer_unregister_thread 1) state_one_pending
    = Some false.
Proof.
  split; [by_run|]. split; [by_decide|]. split; vm_compute; reflexivity.
Qed.

Lemma register_allocation_failure_witness :
  config_ok example_config ∧
  reaches [] init_state ∧
  ¬ registered 1 init_state ∧ num_deferers init_state < 2 ^ 30 ∧
  (∀ rg, ∃ st',
     rcu_defer_register_thread 1 None (Some rg) init_state
       = Ok (tt, st') ∧
     registered 1 st' ∧
     dq_q (tls_get 1 st') = None ∧
     workers st' = (if num_deferers init_state =? 0
                    then S (workers init_state) else workers init_state) ∧
     trace st' = trace init_state ++ [EvRegistryAdd 1] ++
                 (if num_deferers init_state =? 0 then [EvPthreadCreate] else [])) ∧
  (∀ qmem, registry init_state = None ∨
           alloc_deferers init_state < num_deferers init_state + 1 →
     rcu_defer_register_thread 1 qmem None init_state
       = Fail Segfault).
Proof.
  assert (Hc : config_ok example_config) by example_config_ok.
  assert (Hr : reaches [] init_state) by by_run.
  assert (Hnot : ¬ registered 1 init_state) by by_decide.
  assert (Hnum : num_deferers init_state < 2 ^ 30) by by_decide.
  split; [exact Hc|]. split; [exact Hr|]. split; [exact Hnot|]. split; [exact Hnum|].
  destruct Hc as (H1 & H2 & H3 & H4).
  exact (register_allocation_failure H1 H2 H3 H4
           [] init_state 1 Hr Hnot Hnum).
Defined.

(** C6, against the stated handling: the allocation of the queue buffer
    fails in the first registration; the call returns normally, the thread
    is registered, with a null buffer, and the reclamation thread is
    started. *)
Lemma register_queue_alloc_counterexample :
  rcu_defer_register_thread 1 None (Some []) init_state
    = Ok (tt, state_failed_queue_alloc) ∧
  registered 1 state_failed_queue_alloc ∧
  dq_q (tls_get 1 state_failed_queue_alloc) = None ∧
  workers state_failed_queue_alloc = 1%nat ∧
  trace state_failed_queue_alloc = [EvRegistryAdd 1; EvPthreadCreate].
Proof.
  split; [vm_compute; reflexivity|]. split; [by_decide|].
  repeat split; vm_compute; reflexivity.
Qed.

Lemma grace_period_elision_witness :
  config_ok example_config ∧
  reaches schedule_registered state_registered ∧
  (total_fill state_registered (live_entries state_registered) = 0 →
   ∃ st', rcu_defer_barrier state_registered = Ok (tt, st') ∧
          trace st' = trace state_registered ∧
          workers st' = workers state_registered) ∧
  (registry state_registered = None →
   rcu_defer_barrier state_registered
     = Ok (tt, state_registered)) ∧
  (∀ t, fill (tls_get t state_registered) = 0 →
        rcu_defer_barrier_thread t state_registered
          = Ok (tt, state_registered)).
Proof.
  assert (Hc : config_ok example_config) by example_config_ok.
  assert (Hr : reaches schedule_registered state_registered)
    by by_run.
  split; [exact Hc|]. split; [exact Hr|].
  destruct Hc as (H1 & H2 & H3 & H4).
  exact (grace_period_elision H1 H2 H3 H4
           schedule_registered state_registered Hr).
Defined.

Lemma worker_lifecycle_witness :
  config_ok example_config ∧
  reaches schedule_one_pending state_one_pending ∧
  workers state_one_pending
    = (if 0 <? num_deferers state_one_pending then 1%nat else 0%nat) ∧
  num_deferers state_one_pending = Z.of_nat (length (live_entries state_one_pending)) ∧
  (∀ t qg rg, admissible (Register t (Some qg) (Some rg)) state_one_pending →
     ∃ st',
       rcu_defer_register_thread t (Some qg) (Some rg) state_one_pending
         = Ok (tt, st') ∧
       num_deferers st' = num_deferers state_one_pending + 1 ∧
       workers st' = (if num_deferers state_one_pending =? 0
                      then S (workers state_one_pending)
                      else workers state_one_pending) ∧
       trace st' = trace state_one_pending ++ [EvRegistryAdd t] ++
                   (if num_deferers state_one_pending =? 0
                    then [EvPthreadCreate] else [])) ∧
  (∀ t, registered t state_one_pending →
     ∃ st' items,
       rcu_defer_unregister_thread t state_one_pending
         = Ok (tt, st') ∧
       num_deferers st' = num_deferers state_one_pending - 1 ∧
       workers st' = (if num_deferers state_one_pending =? 1
                      then pred (workers state_one_pending)
                      else workers state_one_pending) ∧
       trace st' = trace state_one_pending ++ [EvRegistryRemove t] ++
                   drain_events t (tls_get t state_one_pending) items ++
                   [EvFreeQueue t] ++
                   (if num_deferers state_one_pending =? 1
                    then [EvPthreadCancel] ++ wake_events state_one_pending ++
                         [EvPthreadJoin]
                    else [])).
Proof.
  assert (Hc : config_ok example_config) by example_config_ok.
  assert (Hr : reaches schedule_one_pending state_one_pending)
    by by_run.
  split; [exact Hc|]. split; [exact Hr|].
  destruct Hc as (H1 & H2 & H3 & H4).
  exact (worker_lifecycle H1 H2 H3 H4
           schedule_one_pending state_one_pending Hr).
Defined.

Lemma registry_mechanics_witness :
  config_ok example_config ∧
  reaches schedule_two_pending state_two_pending ∧
  num_deferers state_two_pending < 2 ^ 30 ∧
  (∀ rg, ∃ st',
     rcu_add_deferer 3 1 (Some rg) state_two_pending = Ok (tt, st') ∧
     alloc_deferers st' =
       match registry state_two_pending with
       | None => 4
       | Some _ =>
           if alloc_deferers state_two_pending <? num_deferers state_two_pending + 1
           then alloc_deferers state_two_pending * 2
           else alloc_deferers state_two_pending
       end ∧
     (registry state_two_pending ≠ None →
      alloc_deferers state_two_pending <= alloc_deferers st') ∧
     live_entries st' =
       live_entries state_two_pending ++ [mk_deferer_registry 1 (Some 3) 0] ∧
     num_deferers st' = num_deferers state_two_pending + 1) ∧
  (registered 1 state_two_pending →
   ∃ st' k e,
     live_entries state_two_pending !! k = Some e ∧ tid e = 1 ∧
     (∀ j e', live_entries state_two_pending !! j = Some e' → tid e' = 1 → j = k) ∧
     rcu_remove_deferer 1 state_two_pending = Ok (tt, st') ∧
     live_entries st' =
       take (length (live_entries state_two_pending) - 1)
            (<[k := default zero_entry (last (live_entries state_two_pending))]>
               (live_entries state_two_pending)) ∧
     num_deferers st' = num_deferers state_two_pending - 1 ∧
     alloc_deferers st' = alloc_deferers state_two_pending) ∧
  (¬ registered 1 state_two_pending →
   rcu_remove_deferer 1 state_two_pending = Fail AssertFailed).
Proof.
  assert (Hc : config_ok example_config) by example_config_ok.
  assert (Hr : reaches schedule_two_pending state_two_pending)
    by by_run.
  assert (Hnum : num_deferers state_two_pending < 2 ^ 30) by by_decide.
  split; [exact Hc|]. split; [exact Hr|]. split; [exact Hnum|].
  destruct Hc as (H1 & H2 & H3 & H4).
  exact (registry_mechanics H1 H2 H3 H4
           schedule_two_pending state_two_pending 3 1 Hr Hnum).
Defined.

Lemma decoder_state_sync_witness :
  config_ok example_config ∧
  reaches schedule_two_threads state_two_threads ∧
  let d := tls_get 2 state_two_threads in
  (fill d = 0 → dq_last_fct_out d = dq_last_fct_in d) ∧
  (∀ fct p, registered 2 state_two_threads → is_word fct → is_word p →
     ∃ st' slots',
       _rcu_defer_queue 2 fct p state_two_threads
         = Ok (tt, st') ∧
       dq_q (tls_get 2 st') = Some slots' ∧
       (dq_last_fct_in d = fct → DQ_IS_FCT_BIT p = false → p ≠ DQ_FCT_MARK →
        dq_head (tls_get 2 st') = wrap (dq_head d + 1) ∧
        slot_at slots' (dq_head d) = Some p) ∧
       (dq_last_fct_in d ≠ fct → DQ_IS_FCT_BIT fct = false → fct ≠ DQ_FCT_MARK →
        dq_head (tls_get 2 st') = wrap (dq_head d + 2) ∧
        slot_at slots' (dq_head d) = Some (DQ_SET_FCT_BIT fct) ∧
        slot_at slots' (wrap (dq_head d + 1)) = Some p) ∧
       ∃ st'',
         rcu_defer_barrier_queue 2
           (dq_head (tls_get 2 st')) st' = Ok (tt, st'') ∧
         calls 2 (trace st'') = deferred 2 schedule_two_threads ++ [(fct, p)]).
Proof.
  assert (Hc : config_ok example_config) by example_config_ok.
  assert (Hr : reaches schedule_two_threads state_two_threads)
    by by_run.
  split; [exact Hc|]. split; [exact Hr|].
  destruct Hc as (H1 & H2 & H3 & H4).
  exact (decoder_state_sync H1 H2 H3 H4
           schedule_two_threads state_two_threads 2 Hr).
Defined.

(** ** The further properties on the concrete configuration *)

Lemma invoked_prefix_of_deferred_witness :
  config_ok example_config ∧
  reaches schedule_two_threads state_two_threads ∧
  calls 1 (trace state_two_threads) `prefix_of` deferred 1 schedule_two_threads.
Proof.
  assert (Hc : config_ok example_config) by example_config_ok.
  assert (Hr : reaches schedule_two_threads state_two_threads) by by_run.
  split; [exact Hc|]. split; [exact Hr|].
  destruct Hc as (H1 & H2 & H3 & H4).
  exact (invoked_prefix_of_deferred H1 H2 H3 H4
           schedule_two_threads state_two_threads 1 Hr).
Defined.

Lemma pending_slots_bounds_witness :
  config_ok example_config ∧
  reaches schedule_two_pending state_two_pending ∧
  let k := Z.of_nat (length (pending 1 schedule_two_pending (trace state_two_pending))) in
  k <= fill (tls_get 1 state_two_pending) <= 3 * k.
Proof.
  assert (Hc : config_ok example_config) by example_config_ok.
  assert (Hr : reaches schedule_two_pending state_two_pending) by by_run.
  split; [exact Hc|]. split; [exact Hr|].
  destruct Hc as (H1 & H2 & H3 & H4).
  exact (pending_slots_bounds H1 H2 H3 H4
           schedule_two_pending state_two_pending 1 Hr).
Defined.

Lemma grace_period_before_callbacks_witness :
  config_ok example_config ∧
  reaches schedule_one_pending state_one_pending ∧
  admissible (Defer 1 8 5) state_one_pending ∧
  ∃ st' evs,
    do_call (Defer 1 8 5) state_one_pending = Ok (tt, st') ∧
    trace st' = trace state_one_pending ++ evs ∧
    guarded false evs = true ∧
    (grace_periods evs ≤ 1)%nat ∧
    ∀ t, calls t (trace st') `prefix_of` deferred t schedule_one_pending.
Proof.
  assert (Hc : config_ok example_config) by example_config_ok.
  assert (Hr : reaches schedule_one_pending state_one_pending) by by_run.
  assert (Ha : admissible (Defer 1 8 5) state_one_pending) by by_decide.
  split; [exact Hc|]. split; [exact Hr|]. split; [exact Ha|].
  destruct Hc as (H1 & H2 & H3 & H4).
  exact (grace_period_before_callbacks H1 H2 H3 H4
           schedule_one_pending state_one_pending (Defer 1 8 5) Hr Ha).
Defined.

Lemma barrier_log_witness :
  config_ok example_config ∧
  reaches schedule_two_pending state_two_pending ∧
  ∃ st',
    rcu_defer_barrier state_two_pending = Ok (tt, st') ∧
    trace st' = trace state_two_pending ++
                barrier_events schedule_two_pending state_two_pending.
Proof.
  assert (Hc : config_ok example_config) by example_config_ok.
  assert (Hr : reaches schedule_two_pending state_two_pending) by by_run.
  split; [exact Hc|]. split; [exact Hr|].
  destruct Hc as (H1 & H2 & H3 & H4).
  exact (barrier_log H1 H2 H3 H4 schedule_two_pending state_two_pending Hr).
Defined.

Lemma registry_follows_schedule_witness :
  config_ok example_config ∧
  reaches schedule_churn state_churn ∧
  (∀ t, registered t state_churn ↔ registered_by t schedule_churn = true) ∧
  num_deferers state_churn = registrations schedule_churn.
Proof.
  assert (Hc : config_ok example_config) by example_config_ok.
  assert (Hr : reaches schedule_churn state_churn) by by_run.
  split; [exact Hc|]. split; [exact Hr|].
  destruct Hc as (H1 & H2 & H3 & H4).
  exact (registry_follows_schedule H1 H2 H3 H4
           schedule_churn state_churn Hr).
Defined.

Lemma unregistered_thread_calls_witness :
  config_ok example_config ∧
  reaches schedule_registered state_registered ∧
  ¬ registered 2 state_registered ∧
  (∀ fct p, _rcu_defer_queue 2 fct p state_registered = Fail Segfault) ∧
  rcu_defer_unregister_thread 2 state_registered = Fail AssertFailed ∧
  rcu_defer_barrier_thread 2 state_registered = Ok (tt, state_registered).
Proof.
  assert (Hc : config_ok example_config) by example_config_ok.
  assert (Hr : reaches schedule_registered state_registered) by by_run.
  assert (Hn : ¬ registered 2 state_registered) by by_decide.
  split; [exact Hc|]. split; [exact Hr|]. split; [exact Hn|].
  destruct Hc as (H1 & H2 & H3 & H4).
  exact (unregistered_thread_calls H1 H2 H3 H4
           schedule_registered state_registered 2 Hr Hn).
Defined.

Lemma call_leaves_other_queues_witness :
  config_ok example_config ∧
  reaches schedule_two_pending state_two_pending ∧
  admissible (BarrierThread 1) state_two_pending ∧
  caller (BarrierThread 1) = Some 1 ∧
  ∃ st',
    do_call (BarrierThread 1) state_two_pending = Ok (tt, st') ∧
    ∀ t', t' ≠ 1 →
      tls_get t' st' = tls_get t' state_two_pending ∧
      calls t' (trace st') = calls t' (trace state_two_pending) ∧
      pending t' (schedule_two_pending ++ [BarrierThread 1]) (trace st')
        = pending t' schedule_two_pending (trace state_two_pending).
Proof.
  assert (Hc : config_ok example_config) by example_config_ok.
  assert (Hr : reaches schedule_two_pending state_two_pending) by by_run.
  assert (Ha : admissible (BarrierThread 1) state_two_pending) by by_decide.
  split; [exact Hc|]. split; [exact Hr|]. split; [exact Ha|].
  split; [reflexivity|].
  destruct Hc as (H1 & H2 & H3 & H4).
  exact (call_leaves_other_queues H1 H2 H3 H4
           schedule_two_pending state_two_pending (BarrierThread 1) 1
           Hr Ha eq_refl).
Defined.

Lemma register_unregister_roundtrip_witness :
  config_ok example_config ∧
  reaches schedule_one_pending state_one_pending ∧
  admissible (Register 2 (Some [7]) (Some [])) state_one_pending ∧
  ∃ st1 st2,
    rcu_defer_register_thread 2 (Some [7]) (Some []) state_one_pending = Ok (tt, st1) ∧
    rcu_defer_unregister_thread 2 st1 = Ok (tt, st2) ∧
    live_entries st2 = live_entries state_one_pending ∧
    num_deferers st2 = num_deferers state_one_pending ∧
    (∀ t', tls_get t' st2 = tls_get t' state_one_pending) ∧
    workers st2 = workers state_one_pending ∧
    trace st2 =
      trace state_one_pending ++
      [EvRegistryAdd 2] ++
      (if num_deferers state_one_pending =? 0 then [EvPthreadCreate] else []) ++
      [EvRegistryRemove 2; EvFreeQueue 2] ++
      (if num_deferers state_one_pending =? 0
       then stop_events state_one_pending else []).
Proof.
  assert (Hc : config_ok example_config) by example_config_ok.
  assert (Hr : reaches schedule_one_pending state_one_pending) by by_run.
  assert (Ha : admissible (Register 2 (Some [7]) (Some [])) state_one_pending)
    by by_decide.
  split; [exact Hc|]. split; [exact Hr|]. split; [exact Ha|].
  destruct Hc as (H1 & H2 & H3 & H4).
  exact (register_unregister_roundtrip H1 H2 H3 H4
           schedule_one_pending state_one_pending 2 [7] [] Hr Ha).
Defined.

Lemma num_callbacks_counts_slots_witness :
  config_ok example_config ∧
  reaches schedule_two_pending state_two_pending ∧
  let k := Z.of_nat (length (batch_events schedule_two_pending state_two_pending)) in
  ∃ n,
    rcu_defer_num_callbacks state_two_pending = Ok (n, state_two_pending) ∧
    n = total_fill state_two_pending (live_entries state_two_pending) ∧
    k <= n <= 3 * k.
Proof.
  assert (Hc : config_ok example_config) by example_config_ok.
  assert (Hr : reaches schedule_two_pending state_two_pending) by by_run.
  split; [exact Hc|]. split; [exact Hr|].
  destruct Hc as (H1 & H2 & H3 & H4).
  exact (num_callbacks_counts_slots H1 H2 H3 H4
           schedule_two_pending state_two_pending Hr).
Defined.

Lemma wait_defer_sleeps_when_idle_witness :
  config_ok example_config ∧
  reaches schedule_registered state_registered ∧
  let idle := bool_decide (batch_events schedule_registered state_registered = []) in
  ∃ st',
    wait_defer state_registered = Ok (tt, st') ∧
    (∀ t, tls_get t st' = tls_get t state_registered) ∧
    registry st' = registry state_registered ∧
    num_deferers st' = num_deferers state_registered ∧
    defer_thread_futex st' =
      (if idle then defer_thread_futex state_registered - 1 else 0) ∧
    trace st' = trace state_registered ++
                (if idle && (defer_thread_futex state_registered =? 0)
                 then [EvFutexWait] else []).
Proof.
  assert (Hc : config_ok example_config) by example_config_ok.
  assert (Hr : reaches schedule_registered state_registered) by by_run.
  split; [exact Hc|]. split; [exact Hr|].
  destruct Hc as (H1 & H2 & H3 & H4).
  exact (wait_defer_sleeps_when_idle H1 H2 H3 H4
           schedule_registered state_registered Hr).
Defined.


Lemma thr_defer_passes_witness :
  config_ok example_config ∧
  reaches schedule_two_pending state_two_pending ∧
  ∃ st',
    thr_defer 2 state_two_pending = Ok (tt, st') ∧
    (∀ t, registered t state_two_pending →
          calls t (trace st') = deferred t schedule_two_pending) ∧
    grace_periods (trace st') =
      (grace_periods (trace state_two_pending) +
       if bool_decide (batch_events schedule_two_pending state_two_pending = [])
       then 0 else 1)%nat.
Proof.
  assert (Hc : config_ok example_config) by example_config_ok.
  assert (Hr : reaches schedule_two_pending state_two_pending) by by_run.
  split; [exact Hc|]. split; [exact Hr|].
  destruct Hc as (H1 & H2 & H3 & H4).
  exact (thr_defer_passes H1 H2 H3 H4
           schedule_two_pending state_two_pending 1 Hr).
Defined.

Lemma drain_up_to_earlier_head_witness :
  config_ok example_config ∧
  reaches schedule_registered state_registered ∧
  registered 1 state_registered ∧
  ∃ st1 st2 st3,
    _rcu_defer_queue 1 8 3 state_registered = Ok (tt, st1) ∧
    rcu_defer_barrier_queue 1 (dq_head (tls_get 1 state_registered)) st1 = Ok (tt, st2) ∧
    calls 1 (trace st2) = deferred 1 schedule_registered ∧
    dq_tail (tls_get 1 st2) = dq_head (tls_get 1 state_registered) ∧
    rcu_defer_barrier_queue 1 (dq_head (tls_get 1 st1)) st2 = Ok (tt, st3) ∧
    calls 1 (trace st3) = deferred 1 schedule_registered ++ [(8, 3)].
Proof.
  assert (Hc : config_ok example_config) by example_config_ok.
  assert (Hr : reaches schedule_registered state_registered) by by_run.
  assert (Hg : registered 1 state_registered) by by_decide.
  split; [exact Hc|]. split; [exact Hr|]. split; [exact Hg|].
  destruct Hc as (H1 & H2 & H3 & H4).
  exact (drain_up_to_earlier_head H1 H2 H3 H4
           schedule_registered state_registered 1 8 3 Hr Hg).
Defined.

Lemma registry_shape_witness :
  config_ok example_config ∧
  reaches schedule_two_threads state_two_threads ∧
  (alloc_deferers state_two_threads = 0 ∧ num_deferers state_two_threads = 0 ∨
   ∃ k : nat, alloc_deferers state_two_threads = INIT_NUM_THREADS * 2 ^ Z.of_nat k) ∧
  0 <= num_deferers state_two_threads <= alloc_deferers state_two_threads ∧
  (∀ arr, registry state_two_threads = Some arr →
          length arr = Z.to_nat (alloc_deferers state_two_threads)) ∧
  length (live_entries state_two_threads) = Z.to_nat (num_deferers state_two_threads) ∧
  NoDup (tid <$> live_entries state_two_threads) ∧
  Forall (λ e, dr_defer_queue e = Some (tid e)) (live_entries state_two_threads).
Proof.
  assert (Hc : config_ok example_config) by example_config_ok.
  assert (Hr : reaches schedule_two_threads state_two_threads) by by_run.
  split; [exact Hc|]. split; [exact Hr|].
  destruct Hc as (H1 & H2 & H3 & H4).
  exact (registry_shape H1 H2 H3 H4 schedule_two_threads state_two_threads Hr).
Defined.

Lemma reclamation_thread_balance_witness :
  config_ok example_config ∧
  reaches schedule_churn state_churn ∧
  count_event EvPthreadCreate (trace state_churn) =
    (count_event EvPthreadJoin (trace state_churn) +
     workers state_churn)%nat ∧
  count_event EvPthreadCancel (trace state_churn) =
    count_event EvPthreadJoin (trace state_churn) ∧
  workers state_churn =
    (if 0 <? num_deferers state_churn then 1%nat else 0%nat).
Proof.
  assert (Hc : config_ok example_config) by example_config_ok.
  assert (Hr : reaches schedule_churn state_churn) by by_run.
  split; [exact Hc|]. split; [exact Hr|].
  destruct Hc as (H1 & H2 & H3 & H4).
  exact (reclamation_thread_balance H1 H2 H3 H4
           schedule_churn state_churn Hr).
Defined.

Lemma barrier_thread_runs_own_callbacks_witness :
  config_ok example_config ∧
  reaches schedule_two_pending state_two_pending ∧
  ∃ st',
    rcu_defer_barrier_thread 1 state_two_pending = Ok (tt, st') ∧
    trace st' = trace state_two_pending ++
                match pending 1 schedule_two_pending (trace state_two_pending) with
                | [] => []
                | items => EvSynchronizeRcu :: call_events 1 items
                end ∧
    calls 1 (trace st') = deferred 1 schedule_two_pending ∧
    fill (tls_get 1 st') = 0 ∧
    dq_head (tls_get 1 st') = dq_head (tls_get 1 state_two_pending).
Proof.
  assert (Hc : config_ok example_config) by example_config_ok.
  assert (Hr : reaches schedule_two_pending state_two_pending) by by_run.
  split; [exact Hc|]. split; [exact Hr|].
  destruct Hc as (H1 & H2 & H3 & H4).
  exact (barrier_thread_runs_own_callbacks H1 H2 H3 H4
           schedule_two_pending state_two_pending 1 Hr).
Defined.

Lemma second_registration_unchecked_witness :
  config_ok example_config ∧
  reaches schedule_one_pending state_one_pending ∧
  registered 1 state_one_pending ∧
  num_deferers state_one_pending < 2 ^ 30 ∧
  ∃ st',
    rcu_defer_register_thread 1 (Some [7]) (Some []) state_one_pending = Ok (tt, st') ∧
    live_entries st' =
      live_entries state_one_pending ++ [mk_deferer_registry 1 (Some 1) 0] ∧
    num_deferers st' = num_deferers state_one_pending + 1 ∧
    ¬ NoDup (tid <$> live_entries st') ∧
    dq_q (tls_get 1 st') = Some (resize (Z.to_nat DEFER_QUEUE_SIZE) 0 [7]) ∧
    dq_head (tls_get 1 st') = dq_head (tls_get 1 state_one_pending) ∧
    dq_tail (tls_get 1 st') = dq_tail (tls_get 1 state_one_pending).
Proof.
  assert (Hc : config_ok example_config) by example_config_ok.
  assert (Hr : reaches schedule_one_pending state_one_pending) by by_run.
  assert (Hg : registered 1 state_one_pending) by by_decide.
  assert (Hn : num_deferers state_one_pending < 2 ^ 30) by by_decide.
  split; [exact Hc|]. split; [exact Hr|]. split; [exact Hg|]. split; [exact Hn|].
  destruct Hc as (H1 & H2 & H3 & H4).
  exact (second_registration_unchecked H1 H2 H3 H4
           schedule_one_pending state_one_pending 1 [7] [] Hr Hg Hn).
Defined.

Lemma removal_clears_vacated_slot_witness :
  config_ok example_config ∧
  reaches schedule_two_pending state_two_pending ∧
  registered 1 state_two_pending ∧
  ∃ st' arr arr',
    rcu_remove_deferer 1 state_two_pending = Ok (tt, st') ∧
    registry state_two_pending = Some arr ∧ registry st' = Some arr' ∧
    length arr' = length arr ∧
    arr' !! Z.to_nat (num_deferers st') = Some zero_entry ∧
    (∀ j, (Z.to_nat (num_deferers state_two_pending) ≤ j)%nat →
          arr' !! j = arr !! j) ∧
    Forall (λ e, dr_defer_queue e ≠ Some 1)
           (take (Z.to_nat (num_deferers state_two_pending)) arr').
Proof.
  assert (Hc : config_ok example_config) by example_config_ok.
  assert (Hr : reaches schedule_two_pending state_two_pending) by by_run.
  assert (Hg : registered 1 state_two_pending) by by_decide.
  split; [exact Hc|]. split; [exact Hr|]. split; [exact Hg|].
  destruct Hc as (H1 & H2 & H3 & H4).
  exact (removal_clears_vacated_slot H1 H2 H3 H4
           schedule_two_pending state_two_pending 1 Hr Hg).
Defined.

Lemma escape_sequence_witness :
  config_ok example_config ∧
  reaches schedule_one_pending state_one_pending ∧
  registered 1 state_one_pending ∧
  (dq_last_fct_in (tls_get 1 state_one_pending) ≠ 8 ∧
   (DQ_IS_FCT_BIT 8 = true ∨ 8 = DQ_FCT_MARK) ∨
   dq_last_fct_in (tls_get 1 state_one_pending) = 8 ∧
   (DQ_IS_FCT_BIT 3 = true ∨ 3 = DQ_FCT_MARK)) ∧
  ∃ st' slots',
    _rcu_defer_queue 1 8 3 state_one_pending = Ok (tt, st') ∧
    dq_q (tls_get 1 st') = Some slots' ∧
    dq_head (tls_get 1 st') = wrap (dq_head (tls_get 1 state_one_pending) + 3) ∧
    slot_at slots' (dq_head (tls_get 1 state_one_pending)) = Some DQ_FCT_MARK ∧
    slot_at slots' (wrap (dq_head (tls_get 1 state_one_pending) + 1)) = Some 8 ∧
    slot_at slots' (wrap (wrap (dq_head (tls_get 1 state_one_pending) + 1) + 1))
      = Some 3.
Proof.
  assert (Hc : config_ok example_config) by example_config_ok.
  assert (Hr : reaches schedule_one_pending state_one_pending) by by_run.
  assert (Hg : registered 1 state_one_pending) by by_decide.
  assert (He : dq_last_fct_in (tls_get 1 state_one_pending) ≠ 8 ∧
               (DQ_IS_FCT_BIT 8 = true ∨ 8 = DQ_FCT_MARK) ∨
               dq_last_fct_in (tls_get 1 state_one_pending) = 8 ∧
               (DQ_IS_FCT_BIT 3 = true ∨ 3 = DQ_FCT_MARK)).
  { right. split; [reflexivity|]. left. reflexivity. }
  split; [exact Hc|]. split; [exact Hr|]. split; [exact Hg|]. split; [exact He|].
  destruct Hc as (H1 & H2 & H3 & H4).
  exact (escape_sequence H1 H2 H3 H4
           schedule_one_pending state_one_pending 1 8 3 Hr Hg He).
Defined.

Lemma no_grace_period_in_vain_witness :
  config_ok example_config ∧
  reaches schedule_churn state_churn ∧
  (grace_periods (trace state_churn) ≤ invocations (trace state_churn))%nat.
Proof.
  assert (Hc : config_ok example_config) by example_config_ok.
  assert (Hr : reaches schedule_churn state_churn) by by_run.
  split; [exact Hc|]. split; [exact Hr|].
  destruct Hc as (H1 & H2 & H3 & H4).
  exact (no_grace_period_in_vain H1 H2 H3 H4
           schedule_churn state_churn Hr).
Defined.

Lemma queue_buffer_lifetime_witness :
  config_ok example_config ∧
  reaches schedule_churn state_churn ∧
  count_event (EvRegistryRemove 1) (trace state_churn) =
    count_event (EvFreeQueue 1) (trace state_churn) ∧
  count_event (EvRegistryAdd 1) (trace state_churn) =
    (count_event (EvFreeQueue 1) (trace state_churn) +
     if registered_by 1 schedule_churn then 1 else 0)%nat ∧
  (dq_q (tls_get 1 state_churn) = None ↔ ¬ registered 1 state_churn).
Proof.
  assert (Hc : config_ok example_config) by example_config_ok.
  assert (Hr : reaches schedule_churn state_churn) by by_run.
  split; [exact Hc|]. split; [exact Hr|].
  destruct Hc as (H1 & H2 & H3 & H4).
  exact (queue_buffer_lifetime H1 H2 H3 H4
           schedule_churn state_churn 1 Hr).
Defined.

Lemma queue_field_ownership_witness :
  config_ok example_config ∧
  reaches schedule_two_threads state_two_threads ∧
  (∃ st', rcu_defer_barrier state_two_threads = Ok (tt, st') ∧
          ∀ t, producer_fields (tls_get t st')
               = producer_fields (tls_get t state_two_threads)) ∧
  (∀ t, ∃ st', rcu_defer_barrier_thread t state_two_threads = Ok (tt, st') ∧
               ∀ t', producer_fields (tls_get t' st')
                     = producer_fields (tls_get t' state_two_threads)) ∧
  (∀ t fct p, registered t state_two_threads →
     fill (tls_get t state_two_threads) < DEFER_QUEUE_SIZE - 2 →
     ∃ st', _rcu_defer_queue t fct p state_two_threads = Ok (tt, st') ∧
            dq_tail (tls_get t st') = dq_tail (tls_get t state_two_threads) ∧
            dq_last_fct_out (tls_get t st')
              = dq_last_fct_out (tls_get t state_two_threads)).
Proof.
  assert (Hc : config_ok example_config) by example_config_ok.
  assert (Hr : reaches schedule_two_threads state_two_threads) by by_run.
  split; [exact Hc|]. split; [exact Hr|].
  destruct Hc as (H1 & H2 & H3 & H4).
  exact (queue_field_ownership H1 H2 H3 H4
           schedule_two_threads state_two_threads Hr).
Defined.

End Examples.
